(** * Lunch menu fetcher: a shallow embedding of [fetch-lunch-menu.ts]

    The script determines a target (ISO week, weekday), resolves the PDF link
    for it on a listing page, and cleans the extracted text.  This file embeds
    the pure parts of the script: the ISO week computation, the weekday
    table, the command-line overrides, the link resolver and the two text
    transforms, together with the pieces of the JavaScript run time they rely
    on (time values and local time, strings, regular expressions).

    Conventions.
    - A JavaScript string is a list of code units.  The development covers
      the code units 0..255 (the Latin-1 range, which contains every
      character of the weekday table and of the patterns of the script), so
      a code unit is an [ascii] and a string a [list ascii].
    - A JavaScript number that holds an integer is a [Z].  The dates and
      weeks the script computes with lie far below 2^53, where double
      precision arithmetic is exact.  A run of digits read by [parseInt]
      keeps its exact value here; beyond 2^53 the script holds the nearest
      double instead, which changes no comparison with a week below 2^53.
    - [null] and [undefined] are [None]. *)

From Stdlib Require Import ZArith NArith Lia List Bool Ascii String DecimalString.
Import ListNotations.

Ltac Zify.zify_post_hook ::= Z.to_euclidean_division_equations.

(* ================================================================= *)
(** ** Time values and local time (ECMA-262, "Date objects") *)

Module JSDate.
Open Scope Z_scope.

Definition msPerDay : Z := 86400000.
Definition msPerHour : Z := 3600000.
Definition msPerWeek : Z := 604800000.

(** [Day(t)] and [TimeWithinDay(t)]: floor division of a time value. *)
Definition Day (t : Z) : Z := t / msPerDay.
Definition TimeWithinDay (t : Z) : Z := t mod msPerDay.

Definition InLeapYear (y : Z) : bool :=
  (y mod 4 =? 0) && (negb (y mod 100 =? 0) || (y mod 400 =? 0)).

(** Day number of the first day of year [y]. *)
Definition DayFromYear (y : Z) : Z :=
  365 * (y - 1970) + (y - 1969) / 4 - (y - 1901) / 100 + (y - 1601) / 400.

(** The year a day falls in: the largest [y] with [DayFromYear y <= d].
    The mean year length 146097/400 gives an estimate that is off by at most
    one, which the two comparisons repair. *)
Definition YearFromDay (d : Z) : Z :=
  let y := 1970 + (d * 400) / 146097 in
  if d <? DayFromYear y then y - 1
  else if DayFromYear (y + 1) <=? d then y + 1
  else y.

Definition YearFromTime (t : Z) : Z := YearFromDay (Day t).

Definition DayWithinYear (t : Z) : Z := Day t - DayFromYear (YearFromTime t).

(** Number of days of the year before month [m] (0 = January). *)
Definition DaysBeforeMonth (leap : bool) (m : Z) : Z :=
  let l := if leap then 1 else 0 in
  if m <=? 0 then 0
  else if m =? 1 then 31
  else if m =? 2 then 59 + l
  else if m =? 3 then 90 + l
  else if m =? 4 then 120 + l
  else if m =? 5 then 151 + l
  else if m =? 6 then 181 + l
  else if m =? 7 then 212 + l
  else if m =? 8 then 243 + l
  else if m =? 9 then 273 + l
  else if m =? 10 then 304 + l
  else 334 + l.

Definition MonthFromTime (t : Z) : Z :=
  let leap := InLeapYear (YearFromTime t) in
  let d := DayWithinYear t in
  if d <? DaysBeforeMonth leap 1 then 0
  else if d <? DaysBeforeMonth leap 2 then 1
  else if d <? DaysBeforeMonth leap 3 then 2
  else if d <? DaysBeforeMonth leap 4 then 3
  else if d <? DaysBeforeMonth leap 5 then 4
  else if d <? DaysBeforeMonth leap 6 then 5
  else if d <? DaysBeforeMonth leap 7 then 6
  else if d <? DaysBeforeMonth leap 8 then 7
  else if d <? DaysBeforeMonth leap 9 then 8
  else if d <? DaysBeforeMonth leap 10 then 9
  else if d <? DaysBeforeMonth leap 11 then 10
  else 11.

Definition DateFromTime (t : Z) : Z :=
  DayWithinYear t
  - DaysBeforeMonth (InLeapYear (YearFromTime t)) (MonthFromTime t) + 1.

(** 1970-01-01 was a Thursday: 0 = Sunday ... 6 = Saturday. *)
Definition WeekDay (t : Z) : Z := (Day t + 4) mod 7.

(** [MakeDay(year, month, date)]: months outside 0..11 carry into the year,
    dates outside the month carry into the neighbouring months. *)
Definition MakeDay (year month date : Z) : Z :=
  let ym := year + month / 12 in
  let mn := month mod 12 in
  DayFromYear ym + DaysBeforeMonth (InLeapYear ym) mn + date - 1.

Definition MakeDate (day time : Z) : Z := day * msPerDay + time.

(** The host's time zone: [LocalTZA(t, true)] is the offset of local time
    at the instant [t], [LocalTZA(t, false)] the offset that applies to the
    local time [t]. *)
Record TimeZone : Type := {
  tza_utc : Z -> Z;
  tza_local : Z -> Z
}.

Definition LocalTime (tz : TimeZone) (t : Z) : Z := t + tza_utc tz t.
Definition UTC (tz : TimeZone) (t : Z) : Z := t - tza_local tz t.

(** A [Date] object is its time value.  The date handled by the script is
    [new Date()], which is never the invalid date, and stays within the
    range of time values. *)
Definition Date : Type := Z.

Definition valueOf (d : Date) : Z := d.
Definition getDay (tz : TimeZone) (d : Date) : Z := WeekDay (LocalTime tz d).
Definition getDate (tz : TimeZone) (d : Date) : Z := DateFromTime (LocalTime tz d).

Definition setDate (tz : TimeZone) (d : Date) (date : Z) : Date :=
  let t := LocalTime tz d in
  UTC tz (MakeDate (MakeDay (YearFromTime t) (MonthFromTime t) date)
                   (TimeWithinDay t)).

Definition setMonth (tz : TimeZone) (d : Date) (month date : Z) : Date :=
  let t := LocalTime tz d in
  UTC tz (MakeDate (MakeDay (YearFromTime t) month date) (TimeWithinDay t)).

(** [Math.ceil(a / b)] for integers [a] and a positive integer [b]. *)
Definition ceil_div (a b : Z) : Z := - ((- a) / b).

(** The Thursday of the week of [date], at the time of day of [date]:
    the value the script stores in [firstThursday]. *)
Definition weekThursday (tz : TimeZone) (date : Date) : Date :=
  let target := valueOf date in
  let dayNumber := Z.rem (getDay tz date + 6) 7 in
  setDate tz target (getDate tz target - dayNumber + 3).

(** The first Thursday of the year of [target], at the time of day of
    [target]: the final value of the script's [target]. *)
Definition yearFirstThursday (tz : TimeZone) (target : Date) : Date :=
  let target := setMonth tz target 0 1 in
  if negb (getDay tz target =? 4)
  then setMonth tz target 0 (1 + Z.rem (4 - getDay tz target + 7) 7)
  else target.

Definition getWeekNumber (tz : TimeZone) (date : Date) : Z :=
  let target := weekThursday tz date in
  let firstThursday := valueOf target in
  let target := yearFirstThursday tz target in
  1 + ceil_div (firstThursday - valueOf target) 604800000.

(** Zones. *)
Definition fixedZone (offset : Z) : TimeZone :=
  {| tza_utc := fun _ => offset; tza_local := fun _ => offset |}.

Definition utcZone : TimeZone := fixedZone 0.

(** [new Date(year, month, date, hours)]: the instant of a local calendar
    date and hour. *)
Definition newDate (tz : TimeZone) (year month date hours : Z) : Date :=
  UTC tz (MakeDate (MakeDay year month date) (hours * msPerHour)).

(** The instant of a calendar date and hour in UTC. *)
Definition utcTime (year month date hour : Z) : Z :=
  MakeDate (MakeDay year month date) (hour * msPerHour).

(** Central European time with the summer time period of 2024 (from
    2024-03-31 01:00 UTC to 2024-10-27 01:00 UTC), the zone of the canteen
    the script serves.  A local time that is skipped or repeated at a
    transition takes the offset in force before the transition. *)
Definition cet2024 : TimeZone :=
  let s := utcTime 2024 2 31 1 in
  let e := utcTime 2024 9 27 1 in
  {| tza_utc := fun t =>
       if (s <=? t) && (t <? e) then 2 * msPerHour else msPerHour;
     tza_local := fun l =>
       if (s + 2 * msPerHour <=? l) && (l <? e + 2 * msPerHour)
       then 2 * msPerHour else msPerHour |}.

(** Eastern Australian time around 2024, where summer time covers the turn
    of the year (until 2024-04-06 16:00 UTC and from 2024-10-05 16:00 UTC). *)
Definition aet2024 : TimeZone :=
  let e := utcTime 2024 3 6 16 in
  let s := utcTime 2024 9 5 16 in
  {| tza_utc := fun t =>
       if (e <=? t) && (t <? s) then 10 * msPerHour else 11 * msPerHour;
     tza_local := fun l =>
       if (e + 11 * msPerHour <=? l) && (l <? s + 11 * msPerHour)
       then 10 * msPerHour else 11 * msPerHour |}.

End JSDate.

(* ================================================================= *)
(** ** Strings *)

Module JSString.

Definition jsstring : Type := list ascii.

(** A literal of the script. *)
Definition js (s : string) : jsstring := list_ascii_of_string s.

Definition code (c : ascii) : N := N_of_ascii c.

Open Scope N_scope.

(** [\d] *)
Definition isDigit (c : ascii) : bool :=
  (48 <=? code c) && (code c <=? 57).

(** White space and line terminators among the code units 0..255: tab, line
    feed, vertical tab, form feed, carriage return, space and no-break
    space.  This is both the class [\s] and what [trim] and [parseInt]
    strip. *)
Definition isWhiteSpace (c : ascii) : bool :=
  let n := code c in
  (n =? 9) || (n =? 10) || (n =? 11) || (n =? 12) || (n =? 13)
  || (n =? 32) || (n =? 160).

(** Lower case of a code unit: A-Z and the Latin-1 capitals (all of
    0xC0..0xDE but the multiplication sign) move up by 32. *)
Definition toLowerChar (c : ascii) : ascii :=
  let n := code c in
  if ((65 <=? n) && (n <=? 90))
     || ((192 <=? n) && (n <=? 222) && negb (n =? 215))
  then ascii_of_N (n + 32) else c.

(** The single code unit of the upper case of a code unit, when the upper
    case is a single code unit (that of the sharp s is "SS"); the upper
    cases of the micro sign and of y with diaeresis lie outside 0..255. *)
Definition toUpperCode (c : ascii) : option N :=
  let n := code c in
  if (97 <=? n) && (n <=? 122) then Some (n - 32)
  else if n =? 181 then Some 924
  else if n =? 223 then None
  else if (224 <=? n) && (n <=? 254) && negb (n =? 247) then Some (n - 32)
  else if n =? 255 then Some 376
  else Some n.

(** [Canonicalize(ch)] of a pattern without the unicode flag and with the
    ignore-case flag. *)
Definition canonicalize (c : ascii) : N :=
  match toUpperCode c with
  | None => code c
  | Some cu => if (128 <=? code c) && (cu <? 128) then code c else cu
  end.

Close Scope N_scope.

Definition toLowerCase (s : jsstring) : jsstring := map toLowerChar s.

Fixpoint eqb (a b : jsstring) : bool :=
  match a, b with
  | [], [] => true
  | x :: a', y :: b' => Ascii.eqb x y && eqb a' b'
  | _, _ => false
  end.

Fixpoint startsWith (s prefix : jsstring) : bool :=
  match prefix, s with
  | [], _ => true
  | p :: prefix', c :: s' => Ascii.eqb c p && startsWith s' prefix'
  | _ :: _, [] => false
  end.

Definition endsWith (s suffix : jsstring) : bool :=
  startsWith (rev s) (rev suffix).

(** [s.indexOf(search)]: the first position at which [search] occurs, or -1. *)
Fixpoint indexOfFrom (pos : Z) (s search : jsstring) : Z :=
  if startsWith s search then pos
  else match s with
       | [] => (-1)%Z
       | _ :: s' => indexOfFrom (pos + 1) s' search
       end.

Definition indexOf (s search : jsstring) : Z := indexOfFrom 0 s search.

Definition includes (s search : jsstring) : bool :=
  negb (indexOf s search =? -1)%Z.

(** [s.substring(0, n)] for [n >= 0]. *)
Definition substring0 (s : jsstring) (n : Z) : jsstring :=
  firstn (Z.to_nat n) s.

Fixpoint takeWhile (p : ascii -> bool) (s : jsstring) : jsstring :=
  match s with
  | c :: s' => if p c then c :: takeWhile p s' else []
  | [] => []
  end.

Fixpoint dropWhile (p : ascii -> bool) (s : jsstring) : jsstring :=
  match s with
  | c :: s' => if p c then dropWhile p s' else s
  | [] => []
  end.

Definition trimStart (s : jsstring) : jsstring := dropWhile isWhiteSpace s.
Definition trimEnd (s : jsstring) : jsstring := rev (trimStart (rev s)).
Definition trim (s : jsstring) : jsstring := trimEnd (trimStart s).

(** The value of a run of decimal digits. *)
Definition digitValue (c : ascii) : Z := Z.of_N (code c) - 48.

Definition digitsValue (ds : jsstring) : Z :=
  fold_left (fun acc c => 10 * acc + digitValue c)%Z ds 0%Z.

(** [parseInt(s, 10)]: leading white space is skipped, a sign is read, and
    the longest run of digits that follows is the value; [None] is NaN. *)
Definition parseInt (s : jsstring) : option Z :=
  let s1 := trimStart s in
  let '(sign, s2) :=
    match s1 with
    | c :: t =>
        if Ascii.eqb c "-" then ((-1)%Z, t)
        else if Ascii.eqb c "+" then (1%Z, t)
        else (1%Z, s1)
    | [] => (1%Z, s1)
    end in
  match takeWhile isDigit s2 with
  | [] => None
  | ds => Some (sign * digitsValue ds)%Z
  end.

(** [String(n)] for an integer. *)
Definition ofZ (n : Z) : jsstring :=
  js (NilEmpty.string_of_int (Z.to_int n)).

(** A string is truthy when it is not empty. *)
Definition truthy (s : jsstring) : bool :=
  match s with [] => false | _ => true end.

End JSString.

(* ================================================================= *)
(** ** Regular expressions (ECMA-262, "Pattern semantics")

    A matcher takes the rest of the input, the captures made so far and a
    continuation; alternatives are tried in order and a quantifier is
    greedy, giving back code units as long as the continuation fails.  The
    patterns of the script quantify single code units only. *)

Module JSRegExp.
Import JSString.

Inductive regex : Type :=
| Empty : regex
| Char (p : ascii -> bool) : regex
| Seq (r1 r2 : regex) : regex
| Alt (r1 r2 : regex) : regex
| Star (p : ascii -> bool) : regex
| Group (n : nat) (r : regex) : regex.

(** [x+] is [xx*] and [x?] tries [x] before the empty string. *)
Definition Plus (p : ascii -> bool) : regex := Seq (Char p) (Star p).
Definition Opt (p : ascii -> bool) : regex := Alt (Char p) Empty.

(** A literal code unit, and one under the ignore-case flag. *)
Definition Lit (c : ascii) : regex := Char (Ascii.eqb c).
Definition LitI (c : ascii) : regex :=
  Char (fun x => N.eqb (canonicalize x) (canonicalize c)).

Fixpoint Word (lit : ascii -> regex) (w : jsstring) : regex :=
  match w with
  | [] => Empty
  | c :: w' => Seq (lit c) (Word lit w')
  end.

(** Captures: the group number with the code units it matched, the most
    recent first; a group that took no part in the match is absent. *)
Definition captures : Type := list (nat * jsstring).

Fixpoint capture (n : nat) (caps : captures) : option jsstring :=
  match caps with
  | [] => None
  | (i, v) :: caps' => if Nat.eqb i n then Some v else capture n caps'
  end.

(** What was consumed between the input [s] and its suffix [s']. *)
Definition consumed (s s' : jsstring) : jsstring :=
  firstn (List.length s - List.length s') s.

Section Matcher.
Context {A : Type}.

Fixpoint star (p : ascii -> bool) (k : jsstring -> option A) (s : jsstring)
  : option A :=
  match s with
  | c :: s' =>
      if p c
      then match star p k s' with
           | Some x => Some x
           | None => k s
           end
      else k s
  | [] => k []
  end.

Fixpoint run (r : regex) (s : jsstring) (caps : captures)
    (k : jsstring -> captures -> option A) : option A :=
  match r with
  | Empty => k s caps
  | Char p =>
      match s with
      | c :: s' => if p c then k s' caps else None
      | [] => None
      end
  | Seq r1 r2 => run r1 s caps (fun s1 caps1 => run r2 s1 caps1 k)
  | Alt r1 r2 =>
      match run r1 s caps k with
      | Some x => Some x
      | None => run r2 s caps k
      end
  | Star p => star p (fun s' => k s' caps) s
  | Group n r =>
      run r s caps (fun s' caps' => k s' ((n, consumed s s') :: caps'))
  end.

End Matcher.

(** A match of the pattern at the start of [s]: its length and captures. *)
Definition matchAt (r : regex) (s : jsstring) : option (nat * captures) :=
  run r s [] (fun s' caps => Some (List.length s - List.length s', caps)%nat).

Record MatchResult : Type := {
  index : nat;
  matched : jsstring;
  groups : captures
}.

(** [RegExp.prototype.exec] from the position [pos], whose rest of input is
    [s]: the first position at which the pattern matches. *)
Fixpoint execFrom (r : regex) (pos : nat) (s : jsstring) : option MatchResult :=
  match matchAt r s with
  | Some (len, caps) =>
      Some {| index := pos; matched := firstn len s; groups := caps |}
  | None =>
      match s with
      | [] => None
      | _ :: s' => execFrom r (S pos) s'
      end
  end.

(** [s.match(r)] for a pattern without the global flag. *)
Definition jsmatch (s : jsstring) (r : regex) : option MatchResult :=
  execFrom r 0 s.

(** The scan of a global pattern: [skip] code units of the previous match
    remain to be passed; after a match the scan resumes at its end, and one
    code unit further when the match is empty. *)
Fixpoint scanFrom (r : regex) (skip pos : nat) (s : jsstring)
  : list MatchResult :=
  match skip with
  | S skip' =>
      match s with
      | [] => []
      | _ :: s' => scanFrom r skip' (S pos) s'
      end
  | O =>
      match matchAt r s with
      | Some (len, caps) =>
          {| index := pos; matched := firstn len s; groups := caps |}
          :: match s with
             | [] => []
             | _ :: s' => scanFrom r (pred len) (S pos) s'
             end
      | None =>
          match s with
          | [] => []
          | _ :: s' => scanFrom r 0 (S pos) s'
          end
      end
  end.

(** [[...s.matchAll(r)]] for a global pattern. *)
Definition matchAll (s : jsstring) (r : regex) : list MatchResult :=
  scanFrom r 0 0 s.

(** [s.replace(r, replacement)] for a global pattern and a replacement
    without [$] patterns. *)
Fixpoint replaceFrom (r : regex) (replacement : jsstring) (skip : nat)
    (s : jsstring) : jsstring :=
  match skip with
  | S skip' =>
      match s with
      | [] => []
      | _ :: s' => replaceFrom r replacement skip' s'
      end
  | O =>
      match matchAt r s with
      | Some (len, _) =>
          replacement
          ++ match s with
             | [] => []
             | c :: s' =>
                 (if Nat.eqb len 0 then [c] else [])
                 ++ replaceFrom r replacement (pred len) s'
             end
      | None =>
          match s with
          | [] => []
          | c :: s' => c :: replaceFrom r replacement 0 s'
          end
      end
  end.

Definition replaceAll (s : jsstring) (r : regex) (replacement : jsstring)
  : jsstring :=
  replaceFrom r replacement 0 s.

End JSRegExp.

(* ================================================================= *)
(** ** The document as the script sees it through cheerio

    [cheerio.load] is an external parser.  The script observes its result
    through these calls only: the serialized content of the body, the
    elements a selector picks in document order, and of an element an
    attribute, the text and the serialized markup. *)

Module Cheerio.
Import JSString.

Record Element : Type := {
  tagName : jsstring;
  attribs : list (jsstring * jsstring);
  text : jsstring;          (* [$(element).text()] *)
  outerHtml : jsstring      (* [$.html(element)] *)
}.

Record Document : Type := {
  bodyHtml : option jsstring;   (* [$('body').html()], [None] without a body *)
  elements : list Element       (* every element, in document order *)
}.

(** [$(element).attr(name)] *)
Fixpoint lookupAttr (name : jsstring) (l : list (jsstring * jsstring))
  : option jsstring :=
  match l with
  | [] => None
  | (n, v) :: l' => if eqb n name then Some v else lookupAttr name l'
  end.

Definition attr (e : Element) (name : jsstring) : option jsstring :=
  lookupAttr name (attribs e).

(** The selector [a[href$=".pdf"]]: anchors with an [href] attribute whose
    value ends in [.pdf]. *)
Definition isPdfAnchor (e : Element) : bool :=
  eqb (tagName e) (js "a")
  && match attr e (js "href") with
     | Some v => endsWith v (js ".pdf")
     | None => false
     end.

Definition selectPdfAnchors (d : Document) : list Element :=
  filter isPdfAnchor (elements d).

End Cheerio.

(* ================================================================= *)
(** ** The script *)

Module LunchMenu.
Import JSString JSRegExp JSDate.

(** A number of the script: an integer or NaN. *)
Inductive number : Type :=
| NaN : number
| Num (z : Z) : number.

(** [parseInt(s, 10)] of a string or of [undefined]. *)
Definition parseInt10 (s : option jsstring) : number :=
  match s with
  | None => NaN
  | Some s => match parseInt s with
              | Some z => Num z
              | None => NaN
              end
  end.

(** What a step of [main] comes to: a value, a thrown [Error] with its
    message, or the end of the process with a status. *)
Inductive outcome (A : Type) : Type :=
| Return (a : A) : outcome A
| Throw (message : jsstring) : outcome A
| Exit (status : Z) : outcome A.
Arguments Return {A} a.
Arguments Throw {A} message.
Arguments Exit {A} status.

Inductive DayOfWeek : Type := monday | tuesday | wednesday | thursday | friday.

(** The string a [DayOfWeek] is at run time. *)
Definition DayOfWeek_string (d : DayOfWeek) : jsstring :=
  match d with
  | monday => js "monday"
  | tuesday => js "tuesday"
  | wednesday => js "wednesday"
  | thursday => js "thursday"
  | friday => js "friday"
  end.

Record WeekdayEntry : Type := {
  danish : jsstring;
  english : DayOfWeek
}.

Definition WEEKDAYS : list WeekdayEntry :=
  [ {| danish := js "mandag"; english := monday |};
    {| danish := js "tirsdag"; english := tuesday |};
    {| danish := js "onsdag"; english := wednesday |};
    {| danish := js "torsdag"; english := thursday |};
    {| danish := js "fredag"; english := friday |} ].

(** [getCurrentDay()], with [today = new Date()].  An index outside the
    table would give [undefined], which [main] dereferences at once. *)
Definition getCurrentDay (tz : TimeZone) (today : Date) : outcome WeekdayEntry :=
  let dayIndex := getDay tz today in
  if (dayIndex =? 0)%Z || (dayIndex =? 6)%Z
  then Throw (js "No menu available on weekends")
  else match nth_error WEEKDAYS (Z.to_nat (dayIndex - 1)) with
       | Some day => Return day
       | None => Throw (js "Cannot read properties of undefined")
       end.

Definition getDayByName (name : jsstring) : option WeekdayEntry :=
  let lowerName := toLowerCase name in
  find (fun day => eqb (danish day) lowerName
                   || eqb (DayOfWeek_string (english day)) lowerName)
       WEEKDAYS.

(** [/\s*\([0-9,TKMN\s]+\)/g] *)
Definition allergyClass (c : ascii) : bool :=
  isDigit c || Ascii.eqb c "," || Ascii.eqb c "T" || Ascii.eqb c "K"
  || Ascii.eqb c "M" || Ascii.eqb c "N" || isWhiteSpace c.

Definition allergyPattern : regex :=
  Seq (Star isWhiteSpace)
      (Seq (Lit "(") (Seq (Plus allergyClass) (Lit ")"))).

Definition removeAllergyInfo (text : jsstring) : jsstring :=
  replaceAll text allergyPattern [].

(** [/--\s*\d+\s+of\s+\d+\s*--/g] *)
Definition pageNumberPattern : regex :=
  Seq (Word Lit (js "--"))
   (Seq (Star isWhiteSpace)
    (Seq (Plus isDigit)
     (Seq (Plus isWhiteSpace)
      (Seq (Word Lit (js "of"))
       (Seq (Plus isWhiteSpace)
        (Seq (Plus isDigit)
         (Seq (Star isWhiteSpace) (Word Lit (js "--"))))))))).

Definition removePageNumbers (text : jsstring) : jsstring :=
  trim (replaceAll text pageNumberPattern []).

(** [/(uge|week|w)[_\-\s]?(\d+)/i].  Case folding leaves the class of
    separators and the digits as they are: no other code unit folds onto an
    underscore, a hyphen, a white space or a digit. *)
Definition isWeekSeparator (c : ascii) : bool :=
  Ascii.eqb c "_" || Ascii.eqb c "-" || isWhiteSpace c.

Definition urlWeekPattern : regex :=
  Seq (Group 1 (Alt (Word LitI (js "uge"))
                    (Alt (Word LitI (js "week")) (Word LitI (js "w")))))
      (Seq (Opt isWeekSeparator) (Group 2 (Plus isDigit))).

(** [/uge\s+(\d+)|week\s+(\d+)/gi] *)
Definition headingWeekPattern : regex :=
  Alt (Seq (Word LitI (js "uge"))
           (Seq (Plus isWhiteSpace) (Group 1 (Plus isDigit))))
      (Seq (Word LitI (js "week"))
           (Seq (Plus isWhiteSpace) (Group 2 (Plus isDigit)))).

Record Candidate : Type := {
  href : jsstring;
  weekNum : option number     (* [number | null] *)
}.

(** [a || b] on two captures: the first when it is a non-empty string. *)
Definition orElse (a b : option jsstring) : option jsstring :=
  match a with
  | Some v => if truthy v then a else b
  | None => b
  end.

(** The body of the [each] callback: what it pushes for [element], if
    anything. *)
Definition candidateOf (bodyHtml dayName : jsstring)
    (element : Cheerio.Element) : option Candidate :=
  match Cheerio.attr element (js "href") with
  | None => None
  | Some href =>
      let text := toLowerCase (Cheerio.text element) in
      if negb (truthy href) then None
      else if negb (includes text (toLowerCase dayName))
              && negb (includes (toLowerCase href) (toLowerCase dayName))
      then None
      else
        match jsmatch href urlWeekPattern with
        | Some urlWeekMatch =>
            Some {| href := href;
                    weekNum :=
                      Some (parseInt10 (capture 2 (groups urlWeekMatch))) |}
        | None =>
            let outerHtml := Cheerio.outerHtml element in
            let elementPos := indexOf bodyHtml outerHtml in
            if (elementPos =? -1)%Z
            then Some {| href := href; weekNum := None |}
            else
              let htmlBeforeElement := substring0 bodyHtml elementPos in
              let weekMatches := matchAll htmlBeforeElement headingWeekPattern in
              let weekNum :=
                match weekMatches with
                | first :: others =>
                    let lastMatch := last others first in
                    Some (parseInt10 (orElse (capture 1 (groups lastMatch))
                                             (capture 2 (groups lastMatch))))
                | [] => None
                end in
              Some {| href := href; weekNum := weekNum |}
        end
  end.

(** [c.weekNum === weekNumber] *)
Definition weekNumIs (weekNumber : Z) (c : Candidate) : bool :=
  match weekNum c with
  | Some (Num n) => (n =? weekNumber)%Z
  | _ => false
  end.

Fixpoint filterMap {A B : Type} (f : A -> option B) (l : list A) : list B :=
  match l with
  | [] => []
  | a :: l' => match f a with
               | Some b => b :: filterMap f l'
               | None => filterMap f l'
               end
  end.

(** The candidates pushed by the [each] loop. *)
Definition candidatesOf (doc : Cheerio.Document) (html dayName : jsstring)
  : list Candidate :=
  let bodyHtml :=
    match Cheerio.bodyHtml doc with
    | Some b => if truthy b then b else html
    | None => html
    end in
  filterMap (candidateOf bodyHtml dayName) (Cheerio.selectPdfAnchors doc).

Section FindMenuPdfUrl.
(** [cheerio.load] *)
Variable load : jsstring -> Cheerio.Document.

Definition findMenuPdfUrl (html : jsstring) (weekNumber : Z)
    (dayName : jsstring) : option jsstring :=
  let candidates := candidatesOf (load html) html dayName in
  match find (weekNumIs weekNumber) candidates with
  | Some match_ => Some (href match_)
  | None =>
      match candidates with
      | [c] => match weekNum c with
               | None => Some (href c)
               | Some _ => None
               end
      | _ => None
      end
  end.

End FindMenuPdfUrl.

(** [args.indexOf(flag)] and [args.includes(flag)] *)
Fixpoint argIndexFrom (pos : Z) (args : list jsstring) (flag : jsstring) : Z :=
  match args with
  | [] => (-1)%Z
  | a :: args' => if eqb a flag then pos else argIndexFrom (pos + 1) args' flag
  end.

Definition argIndex (args : list jsstring) (flag : jsstring) : Z :=
  argIndexFrom 0 args flag.

Definition argsInclude (args : list jsstring) (flag : jsstring) : bool :=
  existsb (fun a => eqb a flag) args.

Fixpoint getArgValue (args : list jsstring) (flags : list jsstring)
  : option jsstring :=
  match flags with
  | [] => None
  | flag :: flags' =>
      let index := argIndex args flag in
      if negb (index =? -1)%Z && (index + 1 <? Z.of_nat (List.length args))%Z
      then nth_error args (Z.to_nat (index + 1))
      else getArgValue args flags'
  end.

Record Target : Type := {
  weekNumber : Z;
  selectedDay : WeekdayEntry
}.

(** [main], the [--week] argument: [current] is [getWeekNumber(today)]. *)
Definition main_weekNumber (current : Z) (weekArg : option jsstring)
  : outcome Z :=
  match weekArg with
  | Some weekArg =>
      if truthy weekArg then
        match parseInt10 (Some weekArg) with
        | NaN =>
            Throw (js "Invalid week number: " ++ weekArg
                   ++ js ". Must be between 1 and 53.")
        | Num parsedWeek =>
            if (parsedWeek <? 1)%Z || (parsedWeek >? 53)%Z
            then Throw (js "Invalid week number: " ++ weekArg
                        ++ js ". Must be between 1 and 53.")
            else Return parsedWeek
        end
      else Return current
  | None => Return current
  end.

(** [WEEKDAYS.map((d) => `${d.danish}/${d.english}`).join(', ')] *)
Fixpoint join (sep : jsstring) (l : list jsstring) : jsstring :=
  match l with
  | [] => []
  | [x] => x
  | x :: l' => x ++ sep ++ join sep l'
  end.

Definition validDays : jsstring :=
  join (js ", ")
       (map (fun d => danish d ++ js "/" ++ DayOfWeek_string (english d))
            WEEKDAYS).

(** [main], the [--day] argument: [now] is the date [getCurrentDay]
    takes. *)
Definition main_selectedDay (tz : TimeZone) (now : Date)
    (dayArg : option jsstring) : outcome WeekdayEntry :=
  match dayArg with
  | Some dayArg =>
      if truthy dayArg then
        match getDayByName dayArg with
        | None =>
            Throw (js "Invalid day: " ++ dayArg ++ js ". Valid days: "
                   ++ validDays)
        | Some day => Return day
        end
      else getCurrentDay tz now
  | None => getCurrentDay tz now
  end.

(** [main] up to the target of the run: [today] is the date [main] takes,
    [now] the one [getCurrentDay] takes a moment later. *)
Definition main_target (tz : TimeZone) (today now : Date)
    (args : list jsstring) : outcome Target :=
  if argsInclude args (js "--help") || argsInclude args (js "-h")
  then Exit 0
  else
    match main_weekNumber (getWeekNumber tz today)
                          (getArgValue args [js "--week"; js "-w"]) with
    | Throw m => Throw m
    | Exit n => Exit n
    | Return weekNumber =>
        match main_selectedDay tz now
                               (getArgValue args [js "--day"; js "-d"]) with
        | Throw m => Throw m
        | Exit n => Exit n
        | Return selectedDay =>
            Return {| weekNumber := weekNumber; selectedDay := selectedDay |}
        end
    end.

(** [main], the resolution of the link on the fetched page. *)
Definition main_pdfUrl (load : jsstring -> Cheerio.Document) (html : jsstring)
    (target : Target) : outcome jsstring :=
  match findMenuPdfUrl load html (weekNumber target)
                       (danish (selectedDay target)) with
  | Some pdfUrl =>
      if truthy pdfUrl then Return pdfUrl
      else Throw (js "Could not find PDF for " ++ danish (selectedDay target)
                  ++ js " in week " ++ ofZ (weekNumber target))
  | None =>
      Throw (js "Could not find PDF for " ++ danish (selectedDay target)
             ++ js " in week " ++ ofZ (weekNumber target))
  end.

(** [main], the clean-up of the extracted text. *)
Definition main_noAllergies (args : list jsstring) : bool :=
  argsInclude args (js "--no-allergies") || argsInclude args (js "-na").

Definition main_menuText (noAllergies : bool) (menuText : jsstring) : jsstring :=
  let menuText := removePageNumbers menuText in
  if noAllergies then removeAllergyInfo menuText else menuText.

(** [fetchUrl] and [downloadFile] choose the client by the start of the
    URL: [url.startsWith('https') ? https : http]. *)
Inductive Client : Type := https | http.

Definition clientFor (url : jsstring) : Client :=
  if startsWith url (js "https") then https else http.

Definition menuPageUrl : jsstring := js "https://www.nooncph.dk/ugens-menuer".

(** [main], the URL the PDF is downloaded from. *)
Definition main_absolutePdfUrl (pdfUrl : jsstring) : jsstring :=
  if startsWith pdfUrl (js "http") then pdfUrl
  else js "https://www.nooncph.dk" ++ pdfUrl.

End LunchMenu.

(* ================================================================= *)
(** ** The earlier revision of the script

    The earlier revision has the same [getWeekNumber], [getCurrentDay]
    (over a table of its own with the same five entries) and
    [findMenuPdfUrl]; its [main] knows no [--week] and no [--day]. *)

Module LunchMenuEarlier.
Import JSString JSDate LunchMenu.

Definition days : list WeekdayEntry :=
  [ {| danish := js "mandag"; english := monday |};
    {| danish := js "tirsdag"; english := tuesday |};
    {| danish := js "onsdag"; english := wednesday |};
    {| danish := js "torsdag"; english := thursday |};
    {| danish := js "fredag"; english := friday |} ].

Definition getCurrentDay (tz : TimeZone) (today : Date) : outcome WeekdayEntry :=
  let dayIndex := getDay tz today in
  if (dayIndex =? 0)%Z || (dayIndex =? 6)%Z
  then Throw (js "No menu available on weekends")
  else match nth_error days (Z.to_nat (dayIndex - 1)) with
       | Some day => Return day
       | None => Throw (js "Cannot read properties of undefined")
       end.

(** [main] up to the target of the run. *)
Definition main_target (tz : TimeZone) (today now : Date)
    (args : list jsstring) : outcome Target :=
  if argsInclude args (js "--help") || argsInclude args (js "-h")
  then Exit 0
  else
    let weekNumber := getWeekNumber tz today in
    match getCurrentDay tz now with
    | Throw m => Throw m
    | Exit n => Exit n
    | Return currentDay =>
        Return {| weekNumber := weekNumber; selectedDay := currentDay |}
    end.

End LunchMenuEarlier.

(* ================================================================= *)
(** ** The vocabulary of the specification

    The properties below are stated with these notions, which describe
    strings, dates and arguments without running the script. *)

Module Spec.
Import JSString JSRegExp JSDate LunchMenu.

(** *** Strings *)

(** Every code unit of [s] is in the class [p]. *)
Definition All (p : ascii -> bool) (s : jsstring) : Prop :=
  Forall (fun c => p c = true) s.

(** One or more code units of a class. *)
Definition Some1 (p : ascii -> bool) (s : jsstring) : Prop :=
  s <> [] /\ All p s.

(** The input [s] does not begin with a code unit of the class. *)
Definition stops (p : ascii -> bool) (s : jsstring) : Prop :=
  match s with
  | [] => True
  | c :: _ => p c = false
  end.

(** [sub] occurs in [s]. *)
Definition Contains (s sub : jsstring) : Prop :=
  exists x y, s = x ++ sub ++ y.

(** [sub] occurs in [s] after [before], and nowhere before that. *)
Definition FirstAt (before sub s : jsstring) : Prop :=
  (exists after, s = before ++ sub ++ after)
  /\ forall b a, s = b ++ sub ++ a -> (List.length before <= List.length b)%nat.

(** [t] is [s] without the white space at its two ends. *)
Definition Trimmed (s t : jsstring) : Prop :=
  exists l r,
    s = l ++ t ++ r /\ All isWhiteSpace l /\ All isWhiteSpace r
    /\ stops isWhiteSpace t /\ stops isWhiteSpace (rev t).

(** The lower-case word [w], in whatever case. *)
Definition Token (w tok : jsstring) : Prop := toLowerCase tok = w.

(** Equal but for the case of the letters. *)
Definition EqualIgnoringCase (a b : jsstring) : Prop :=
  toLowerCase a = toLowerCase b.

(** *** Patterns *)

(** The language of a pattern, with the captures a match leaves. *)
Inductive Matches : regex -> jsstring -> captures -> captures -> Prop :=
| M_Empty caps : Matches Empty [] caps caps
| M_Char p c caps : p c = true -> Matches (Char p) [c] caps caps
| M_Seq r1 r2 m1 m2 c0 c1 c2 :
    Matches r1 m1 c0 c1 -> Matches r2 m2 c1 c2 ->
    Matches (Seq r1 r2) (m1 ++ m2) c0 c2
| M_AltL r1 r2 m c0 c1 : Matches r1 m c0 c1 -> Matches (Alt r1 r2) m c0 c1
| M_AltR r1 r2 m c0 c1 : Matches r2 m c0 c1 -> Matches (Alt r1 r2) m c0 c1
| M_Star p m caps : All p m -> Matches (Star p) m caps caps
| M_Group n r m c0 c1 :
    Matches r m c0 c1 -> Matches (Group n r) m c0 ((n, m) :: c1).

(** The pattern fails at the start of [s], whatever follows it. *)
Definition Fails (r : regex) (s : jsstring) : Prop :=
  forall (A : Type) caps (k : jsstring -> captures -> option A),
    run r s caps k = None.

(** The parse the matcher tries first: quantifiers take all they can and
    an alternative is taken only when those before it fail. *)
Inductive Greedy : regex -> jsstring -> jsstring -> captures -> captures -> Prop :=
| G_Empty rest caps : Greedy Empty [] rest caps caps
| G_Char p c rest caps : p c = true -> Greedy (Char p) [c] rest caps caps
| G_Seq r1 r2 m1 m2 rest c0 c1 c2 :
    Greedy r1 m1 (m2 ++ rest) c0 c1 -> Greedy r2 m2 rest c1 c2 ->
    Greedy (Seq r1 r2) (m1 ++ m2) rest c0 c2
| G_AltL r1 r2 m rest c0 c1 :
    Greedy r1 m rest c0 c1 -> Greedy (Alt r1 r2) m rest c0 c1
| G_AltR r1 r2 m rest c0 c1 :
    Fails r1 (m ++ rest) -> Greedy r2 m rest c0 c1 ->
    Greedy (Alt r1 r2) m rest c0 c1
| G_Star p m rest caps :
    All p m -> stops p rest -> Greedy (Star p) m rest caps caps
| G_Group n r m rest c0 c1 :
    Greedy r m rest c0 c1 -> Greedy (Group n r) m rest c0 ((n, m) :: c1).

(** Equal under the ignore-case flag, code unit by code unit. *)
Definition Folded (m w : jsstring) : Prop :=
  Forall2 (fun x ch => canonicalize x = canonicalize ch) m w.

(** No match begins inside a match. *)
Definition NoInner (r : regex) : Prop :=
  forall s len caps j,
    matchAt r s = Some (len, caps) -> (0 < j < len)%nat ->
    matchAt r (skipn j s) = None.

(** The pattern matches at no position of [pre] in [pre ++ suf]. *)
Fixpoint unmatched (r : regex) (pre suf : jsstring) : bool :=
  match pre with
  | [] => true
  | _ :: pre' =>
      match matchAt r (pre ++ suf) with
      | Some _ => false
      | None => unmatched r pre' suf
      end
  end.

(** An instance of [P] begins the input. *)
Definition Begins (P : jsstring -> Prop) (s : jsstring) : Prop :=
  exists m rest, s = m ++ rest /\ P m.

(** No instance of [P] begins at a position of [pre] in [pre ++ rest]. *)
Definition Clear (P : jsstring -> Prop) (pre rest : jsstring) : Prop :=
  forall p1 p2, pre = p1 ++ p2 -> p2 <> [] -> ~ Begins P (p2 ++ rest).

(** [out] is [s] without the instances of [P] met on a scan from the left,
    each scan resuming where the instance before ended. *)
Inductive Stripped (P : jsstring -> Prop) : jsstring -> jsstring -> Prop :=
| Stripped_end s : Clear P s [] -> Stripped P s s
| Stripped_cut pre m rest out :
    Clear P pre (m ++ rest) -> P m -> m <> [] -> Stripped P rest out ->
    Stripped P (pre ++ m ++ rest) (pre ++ out).

(** At most one instance of [P] begins a given input. *)
Definition PrefixFree (P : jsstring -> Prop) : Prop :=
  forall m1 m2 r1 r2, P m1 -> P m2 -> m1 ++ r1 = m2 ++ r2 -> m1 = m2.

(** *** What the patterns of the script describe *)

(** Two hyphens, optional white space, digits, white space, the word
    [of], white space, digits, optional white space, two hyphens. *)
Definition PageMark (m : jsstring) : Prop :=
  exists w1 d1 w2 w3 d2 w4,
    m = js "--" ++ w1 ++ d1 ++ w2 ++ js "of" ++ w3 ++ d2 ++ w4 ++ js "--"
    /\ All isWhiteSpace w1 /\ Some1 isDigit d1 /\ Some1 isWhiteSpace w2
    /\ Some1 isWhiteSpace w3 /\ Some1 isDigit d2 /\ All isWhiteSpace w4.

(** Optional white space, an open parenthesis, one or more code units among
    the digits, the comma, T, K, M, N and white space, a close
    parenthesis. *)
Definition AllergenMark (m : jsstring) : Prop :=
  exists w cs,
    m = w ++ js "(" ++ cs ++ js ")"
    /\ All isWhiteSpace w /\ Some1 allergyClass cs.

(** A week marker of a URL: one of the tokens [uge], [week] and [w], an
    optional separator, digits [ds]. *)
Definition UrlWeekMark (m ds : jsstring) : Prop :=
  exists tok sep,
    m = tok ++ sep ++ ds
    /\ (Token (js "uge") tok \/ Token (js "week") tok \/ Token (js "w") tok)
    /\ (sep = [] \/ exists c, sep = [c] /\ isWeekSeparator c = true)
    /\ Some1 isDigit ds.

(** A week marker of a heading: [uge] or [week], white space, digits
    [ds]. *)
Definition HeadingWeekMark (m ds : jsstring) : Prop :=
  exists tok ws,
    m = tok ++ ws ++ ds
    /\ (Token (js "uge") tok \/ Token (js "week") tok)
    /\ Some1 isWhiteSpace ws
    /\ Some1 isDigit ds.

(** A week marker of a URL begins the input. *)
Definition UrlMarked (s : jsstring) : Prop :=
  exists m ds rest, s = m ++ rest /\ UrlWeekMark m ds.

(** A week marker of a heading begins the input. *)
Definition HeadingMarked (s : jsstring) : Prop :=
  exists m ds rest, s = m ++ rest /\ HeadingWeekMark m ds.

(** The anchor is for the day: its text or its [href] contains the name of
    the day, whatever the case. *)
Definition ForDay (dayName : jsstring) (element : Cheerio.Element)
    (link : jsstring) : Prop :=
  Contains (toLowerCase (Cheerio.text element)) (toLowerCase dayName)
  \/ Contains (toLowerCase link) (toLowerCase dayName).

(** The code unit [x] is the letter [ch] under the ignore-case flag. *)
Definition foldsTo (ch x : ascii) : bool :=
  N.eqb (canonicalize x) (canonicalize ch).

(** A code unit that can begin a heading marker: [u] or [w] in either case. *)
Definition beginsToken (x : ascii) : bool := foldsTo "u" x || foldsTo "w" x.

(** *** Dates *)

Open Scope Z_scope.

(** Weekday of a day number, counted from Monday: 0 = Monday ... 6 = Sunday. *)
Definition isoWeekday (d : Z) : Z := (d + 3) mod 7.

(** The first Thursday of year [y]: the Thursday among its first seven days. *)
Definition firstThursdayOfYear (y : Z) : Z :=
  DayFromYear y + (3 - isoWeekday (DayFromYear y)) mod 7.

(** The Monday that begins week 1 of year [y], the week of the first
    Thursday. *)
Definition week1Monday (y : Z) : Z := firstThursdayOfYear y - 3.

(** ISO 8601: day [d] lies in week [w] of the week-numbering year [y]. *)
Definition IsoWeek (d y w : Z) : Prop :=
  week1Monday y <= d < week1Monday (y + 1) /\ w = 1 + (d - week1Monday y) / 7.

(** The Thursday of the week of day [d]. *)
Definition thursdayOfWeek (d : Z) : Z := d - isoWeekday d + 3.

(** The local calendar day of an instant. *)
Definition localDay (tz : TimeZone) (date : Date) : Z := Day (LocalTime tz date).

(** A local time survives the conversion to a time value and back. *)
Definition roundTrips (tz : TimeZone) (l : Z) : Prop :=
  LocalTime tz (UTC tz l) = l.

(** The zone is steady for [date]: the two local times the script sets and
    reads back (the Thursday of the week and 1 January of that Thursday's
    year, at the time of day of [date]) are not skipped by a transition, and
    the offset at the Thursday is the offset at the first Thursday of the
    year or ahead of it by less than a week. *)
Definition steadyFor (tz : TimeZone) (date : Date) : Prop :=
  let l := LocalTime tz date in
  let tod := TimeWithinDay l in
  let thu := MakeDate (thursdayOfWeek (Day l)) tod in
  let y := YearFromTime thu in
  let jan1 := MakeDate (DayFromYear y) tod in
  let fst := MakeDate (firstThursdayOfYear y) tod in
  roundTrips tz thu /\ roundTrips tz jan1 /\
  0 <= tza_local tz thu - tza_local tz fst < msPerWeek.

(** The week number with the quotient rounded down instead of up. *)
Definition floorFormula (tz : TimeZone) (date : Date) : Z :=
  let targetThursday := weekThursday tz date in
  1 + (valueOf targetThursday
       - valueOf (yearFirstThursday tz targetThursday)) / msPerWeek.

(** The local calendar day of [now] is a Saturday or a Sunday. *)
Definition IsWeekend (tz : TimeZone) (now : Date) : Prop :=
  isoWeekday (localDay tz now) = 5 \/ isoWeekday (localDay tz now) = 6.

Close Scope Z_scope.

(** *** Overrides *)

(** What [parseInt] reads: white space, an optional sign, and digits up to
    the first code unit that is not a digit; the rest is ignored. *)
Definition LeadingInteger (s : jsstring) (n : Z) : Prop :=
  exists ws ds rest,
    All isWhiteSpace ws /\ Some1 isDigit ds /\ stops isDigit rest
    /\ (s = ws ++ ds ++ rest /\ n = digitsValue ds
        \/ s = ws ++ "+"%char :: ds ++ rest /\ n = digitsValue ds
        \/ s = ws ++ "-"%char :: ds ++ rest /\ n = (- digitsValue ds)%Z).

(** A decimal numeral: digits, with an optional sign before them. *)
Definition IntegerLiteral (s : jsstring) (n : Z) : Prop :=
  exists ds,
    Some1 isDigit ds
    /\ (s = ds /\ n = digitsValue ds
        \/ s = "+"%char :: ds /\ n = digitsValue ds
        \/ s = "-"%char :: ds /\ n = (- digitsValue ds)%Z).

Definition invalidWeekMessage (weekArg : jsstring) : jsstring :=
  js "Invalid week number: " ++ weekArg ++ js ". Must be between 1 and 53.".

Definition invalidDayMessage (dayArg : jsstring) : jsstring :=
  js "Invalid day: " ++ dayArg
  ++ js ". Valid days: mandag/monday, tirsdag/tuesday, onsdag/wednesday, torsdag/thursday, fredag/friday".

Definition couldNotFindMessage (day : jsstring) (week : Z) : jsstring :=
  js "Could not find PDF for " ++ day ++ js " in week " ++ ofZ week.

(** *** Documents of the examples *)

Definition quote : jsstring := ["034"%char].
Definition newline : jsstring := ["010"%char].

(** An anchor [<a href="link">text</a>] as cheerio gives it back. *)
Definition anchor (link text : string) : Cheerio.Element :=
  {| Cheerio.tagName := js "a";
     Cheerio.attribs := [(js "href", js link)];
     Cheerio.text := js text;
     Cheerio.outerHtml :=
       js "<a href=" ++ quote ++ js link ++ quote ++ js ">" ++ js text
       ++ js "</a>" |}.

(** A heading [<h2>text</h2>]. *)
Definition heading (text : string) : Cheerio.Element :=
  {| Cheerio.tagName := js "h2";
     Cheerio.attribs := [];
     Cheerio.text := js text;
     Cheerio.outerHtml := js "<h2>" ++ js text ++ js "</h2>" |}.

(** The document of a body made of the given elements, one after the
    other. *)
Definition page (elements : list Cheerio.Element) : Cheerio.Document :=
  {| Cheerio.bodyHtml := Some (List.concat (map Cheerio.outerHtml elements));
     Cheerio.elements := elements |}.

(** [<h2>Uge 2</h2><a href="mon.pdf">Mandag</a><h2>Uge 3</h2>
    <a href="mon2.pdf">Mandag</a>] *)
Definition twoWeeks : list Cheerio.Element :=
  [ heading "Uge 2"; anchor "mon.pdf" "Mandag";
    heading "Uge 3"; anchor "mon2.pdf" "Mandag" ].

Definition twoWeeksHtml : jsstring :=
  List.concat (map Cheerio.outerHtml twoWeeks).

(** The markup the resolver searches for an anchor: the serialized content
    of the body of the document, or the HTML the resolver was given when
    the document has no body or the content of its body is empty. *)
Definition searchedMarkup (doc : Cheerio.Document) (html : jsstring)
  : jsstring :=
  match Cheerio.bodyHtml doc with
  | Some (c :: body) => c :: body
  | _ => html
  end.

(** An element [<tag>...</tag>] without attributes, with its text and its
    content. *)
Definition container (tag text : string) (content : jsstring)
  : Cheerio.Element :=
  {| Cheerio.tagName := js tag;
     Cheerio.attribs := [];
     Cheerio.text := js text;
     Cheerio.outerHtml :=
       js "<" ++ js tag ++ js ">" ++ content ++ js "</" ++ js tag ++ js ">" |}.

(** [<html><head><title>Uge 9</title></head><body><a href="menu.pdf">Mandag</a>
    </body></html>], a page whose only week marker is in its head, and the
    document made of it: the content of the body is the anchor alone. *)
Definition titledTitle : Cheerio.Element := container "title" "Uge 9" (js "Uge 9").
Definition titledHead : Cheerio.Element :=
  container "head" "Uge 9" (Cheerio.outerHtml titledTitle).
Definition titledBody : Cheerio.Element :=
  container "body" "Mandag" (Cheerio.outerHtml (anchor "menu.pdf" "Mandag")).
Definition titledRoot : Cheerio.Element :=
  container "html" "Uge 9Mandag"
          (Cheerio.outerHtml titledHead ++ Cheerio.outerHtml titledBody).

Definition titledHtml : jsstring := Cheerio.outerHtml titledRoot.

Definition titledPage : Cheerio.Document :=
  {| Cheerio.bodyHtml := Some (Cheerio.outerHtml (anchor "menu.pdf" "Mandag"));
     Cheerio.elements :=
       [ titledRoot; titledHead; titledTitle; titledBody;
         anchor "menu.pdf" "Mandag" ] |}.

(** *** Further notions *)

(** The ISO 8601 week of a day number, by its Thursday: one more than the
    number of weeks from the first Thursday of the Thursday's year. *)
Definition isoWeekOfDay (d : Z) : Z :=
  let th := thursdayOfWeek d in
  (1 + (th - firstThursdayOfYear (YearFromDay th)) / 7)%Z.

(** [v] is the argument that follows the first occurrence of [flag]. *)
Definition ValueAfterFirst (args : list jsstring) (flag v : jsstring) : Prop :=
  exists pre post, args = pre ++ flag :: v :: post /\ ~ In flag pre.

(** [flag] does not occur among the arguments, or occurs first as the last
    of them. *)
Definition NoValue (args : list jsstring) (flag : jsstring) : Prop :=
  ~ In flag args \/ exists pre, args = pre ++ [flag] /\ ~ In flag pre.

(** The code units an allergen mark is made of. *)
Definition inAllergenMark (c : ascii) : bool :=
  isWhiteSpace c || Ascii.eqb c "(" || Ascii.eqb c ")" || allergyClass c.

(** The code units a page mark is made of. *)
Definition inPageMark (c : ascii) : bool :=
  Ascii.eqb c "-" || isWhiteSpace c || isDigit c || Ascii.eqb c "o"
  || Ascii.eqb c "f".

(** The code units of [s] that are not in the class [p], in order. *)
Definition without (p : ascii -> bool) (s : jsstring) : jsstring :=
  filter (fun c => negb (p c)) s.

(** The code units the clean-up of [main] can remove: those of a page mark,
    and those of an allergen mark when allergens are to be removed. *)
Definition inCleanupMark (noAllergies : bool) (c : ascii) : bool :=
  inPageMark c || (noAllergies && inAllergenMark c).

(** [t] is [s] with some code units left out. *)
Inductive Subsequence : jsstring -> jsstring -> Prop :=
| Sub_nil : Subsequence [] []
| Sub_keep c t s : Subsequence t s -> Subsequence (c :: t) (c :: s)
| Sub_drop c t s : Subsequence t s -> Subsequence t (c :: s).

(** The Monday that begins the week of day [d]. *)
Definition mondayOfWeek (d : Z) : Z := (d - isoWeekday d)%Z.

End Spec.

(* ================================================================= *)
(** * Properties *)

(* ================================================================= *)
(** ** The week number *)

Module DateFacts.
Import JSDate Spec.
Open Scope Z_scope.

Lemma DayFromYear_step y :
  DayFromYear (y + 1) - DayFromYear y = if InLeapYear y then 366 else 365.
Proof.
  unfold DayFromYear, InLeapYear.
  replace (y + 1 - 1969) with (y - 1968) by lia.
  replace (y + 1 - 1901) with (y - 1900) by lia.
  replace (y + 1 - 1601) with (y - 1600) by lia.
  assert (H4 : (y - 1968) / 4 - (y - 1969) / 4 = if y mod 4 =? 0 then 1 else 0)
    by (destruct (Z.eqb_spec (y mod 4) 0); lia).
  assert (H100 : (y - 1900) / 100 - (y - 1901) / 100
                 = if y mod 100 =? 0 then 1 else 0)
    by (destruct (Z.eqb_spec (y mod 100) 0); lia).
  assert (H400 : (y - 1600) / 400 - (y - 1601) / 400
                 = if y mod 400 =? 0 then 1 else 0)
    by (destruct (Z.eqb_spec (y mod 400) 0); lia).
  assert (I1 : y mod 400 = 0 -> y mod 100 = 0) by lia.
  assert (I2 : y mod 100 = 0 -> y mod 4 = 0) by lia.
  destruct (Z.eqb_spec (y mod 4) 0), (Z.eqb_spec (y mod 100) 0),
    (Z.eqb_spec (y mod 400) 0); cbn [andb orb negb]; lia.
Qed.

Lemma DayFromYear_le y1 y2 : y1 <= y2 -> DayFromYear y1 <= DayFromYear y2.
Proof. unfold DayFromYear. lia. Qed.

Lemma DayFromYear_lt y1 y2 : y1 < y2 -> DayFromYear y1 < DayFromYear y2.
Proof. unfold DayFromYear. lia. Qed.

Lemma YearFromDay_spec d :
  DayFromYear (YearFromDay d) <= d < DayFromYear (YearFromDay d + 1).
Proof.
  unfold YearFromDay.
  set (y := 1970 + d * 400 / 146097).
  assert (DayFromYear (y - 1) <= d < DayFromYear (y + 2))
    by (subst y; unfold DayFromYear; lia).
  destruct (d <? DayFromYear y) eqn:E1.
  - replace (y - 1 + 1) with y by lia. lia.
  - destruct (DayFromYear (y + 1) <=? d) eqn:E2.
    + replace (y + 1 + 1) with (y + 2) by lia. lia.
    + lia.
Qed.

Lemma YearFromDay_unique d y :
  DayFromYear y <= d < DayFromYear (y + 1) -> YearFromDay d = y.
Proof.
  intros H. pose proof (YearFromDay_spec d) as S.
  destruct (Z.lt_trichotomy (YearFromDay d) y) as [L | [E | G]]; [ | exact E | ].
  - assert (DayFromYear (YearFromDay d + 1) <= DayFromYear y)
      by (apply DayFromYear_le; lia). lia.
  - assert (DayFromYear (y + 1) <= DayFromYear (YearFromDay d))
      by (apply DayFromYear_le; lia). lia.
Qed.

Lemma MakeDay_of_time t x :
  MakeDay (YearFromTime t) (MonthFromTime t) x = Day t - DateFromTime t + x.
Proof.
  unfold DateFromTime, DayWithinYear, MakeDay.
  assert (Hm : 0 <= MonthFromTime t <= 11).
  { unfold MonthFromTime.
    repeat match goal with |- context [if ?b then _ else _] => destruct b end;
      lia. }
  replace (MonthFromTime t / 12) with 0 by lia.
  replace (MonthFromTime t mod 12) with (MonthFromTime t) by lia.
  replace (YearFromTime t + 0) with (YearFromTime t) by lia. lia.
Qed.

Lemma MakeDay_january y x : MakeDay y 0 x = DayFromYear y + x - 1.
Proof.
  unfold MakeDay. change (0 / 12) with 0. change (0 mod 12) with 0.
  replace (y + 0) with y by lia.
  change (DaysBeforeMonth (InLeapYear y) 0) with 0. lia.
Qed.

Lemma Day_MakeDate d tod :
  0 <= tod < msPerDay -> Day (MakeDate d tod) = d.
Proof. unfold Day, MakeDate, msPerDay. lia. Qed.

Lemma TimeWithinDay_MakeDate d tod :
  0 <= tod < msPerDay -> TimeWithinDay (MakeDate d tod) = tod.
Proof. unfold TimeWithinDay, MakeDate, msPerDay. lia. Qed.

Lemma TimeWithinDay_range t : 0 <= TimeWithinDay t < msPerDay.
Proof. unfold TimeWithinDay, msPerDay. lia. Qed.

Section WeekNumber.
Variable tz : TimeZone.
Variable date : Date.

Let l0 := LocalTime tz date.
Let tod := TimeWithinDay l0.
Let thuDay := thursdayOfWeek (Day l0).
Let lThu := MakeDate thuDay tod.
Let yr := YearFromDay thuDay.
Let lJan := MakeDate (DayFromYear yr) tod.
Let lFst := MakeDate (firstThursdayOfYear yr) tod.

Lemma weekThursday_local : weekThursday tz date = UTC tz lThu.
Proof.
  unfold weekThursday, valueOf, setDate, getDay, getDate.
  fold l0. rewrite MakeDay_of_time. fold tod.
  unfold lThu, thuDay, thursdayOfWeek, isoWeekday, WeekDay.
  do 2 f_equal.
  rewrite Z.rem_mod_nonneg by lia. lia.
Qed.

Hypothesis Hthu : roundTrips tz lThu.
Hypothesis Hjan : roundTrips tz lJan.

Lemma tod_range : 0 <= tod < msPerDay.
Proof. apply TimeWithinDay_range. Qed.

Lemma yearFirstThursday_local :
  yearFirstThursday tz (UTC tz lThu) = UTC tz lFst.
Proof.
  pose proof tod_range as Htod.
  unfold yearFirstThursday.
  assert (E1 : setMonth tz (UTC tz lThu) 0 1 = UTC tz lJan).
  { unfold setMonth. rewrite Hthu. rewrite MakeDay_january.
    unfold YearFromTime, lThu.
    rewrite Day_MakeDate, TimeWithinDay_MakeDate by exact Htod.
    fold yr. unfold lJan. do 2 f_equal. lia. }
  rewrite E1. unfold getDay. rewrite Hjan.
  assert (EW : WeekDay lJan = (DayFromYear yr + 4) mod 7).
  { unfold WeekDay, lJan. rewrite Day_MakeDate by exact Htod. reflexivity. }
  rewrite EW.
  assert (EY : YearFromTime lJan = yr).
  { unfold YearFromTime, lJan. rewrite Day_MakeDate by exact Htod.
    apply YearFromDay_unique. pose proof (DayFromYear_lt yr (yr + 1)). lia. }
  destruct (Z.eqb_spec ((DayFromYear yr + 4) mod 7) 4) as [E | N];
    cbn [negb].
  - unfold lFst, lJan, firstThursdayOfYear, isoWeekday. do 2 f_equal. lia.
  - assert (ET : TimeWithinDay lJan = tod)
      by (unfold lJan; apply TimeWithinDay_MakeDate; exact Htod).
    unfold setMonth. rewrite Hjan, EY, MakeDay_january, ET.
    unfold lFst, firstThursdayOfYear, isoWeekday. do 2 f_equal.
    rewrite Z.rem_mod_nonneg by lia. lia.
Qed.

Lemma thuDay_year : DayFromYear yr <= thuDay < DayFromYear (yr + 1).
Proof. apply YearFromDay_spec. Qed.

(** The two Thursdays are a whole number [k] of weeks apart on the calendar,
    [1 + k] is the ISO week of the date, and the time values differ from
    [k] weeks by the change of offset between them. *)
Lemma thursdays_apart :
  exists k,
    0 <= k
    /\ valueOf (weekThursday tz date)
       - valueOf (yearFirstThursday tz (weekThursday tz date))
       = k * msPerWeek - (tza_local tz lThu - tza_local tz lFst)
    /\ IsoWeek (Day l0) yr (1 + k).
Proof.
  pose proof tod_range as Htod. pose proof thuDay_year as Hy.
  unfold valueOf.
  rewrite weekThursday_local, yearFirstThursday_local.
  assert (Hk : exists k, thuDay = firstThursdayOfYear yr + 7 * k /\ 0 <= k).
  { exists ((thuDay - firstThursdayOfYear yr) / 7).
    revert Hy. unfold thuDay, thursdayOfWeek, firstThursdayOfYear, isoWeekday.
    generalize (DayFromYear yr) (DayFromYear (yr + 1)). intros a b Hy. lia. }
  destruct Hk as [k [Ek Hk]].
  assert (Hn : thuDay + 7 <= firstThursdayOfYear (yr + 1)).
  { revert Hy. unfold thuDay, thursdayOfWeek, firstThursdayOfYear, isoWeekday.
    generalize (DayFromYear yr) (DayFromYear (yr + 1)). intros a b Hy. lia. }
  assert (Hd : thuDay - 3 <= Day l0 <= thuDay + 3).
  { unfold thuDay, thursdayOfWeek, isoWeekday. lia. }
  exists k. split; [exact Hk |]. split.
  - unfold UTC.
    generalize (tza_local tz lThu) (tza_local tz lFst). intros o1 o2.
    unfold lThu, lFst, MakeDate. rewrite Ek.
    unfold msPerDay, msPerWeek. lia.
  - unfold IsoWeek, week1Monday. split; lia.
Qed.

Lemma getWeekNumber_steady :
  0 <= tza_local tz lThu - tza_local tz lFst < msPerWeek ->
  IsoWeek (Day l0) yr (getWeekNumber tz date).
Proof.
  intros Hoff. destruct thursdays_apart as (k & Hk & Ed & Hw).
  unfold getWeekNumber. rewrite Ed.
  replace (ceil_div _ 604800000) with k; [exact Hw |].
  unfold ceil_div. revert Hoff.
  generalize (tza_local tz lThu - tza_local tz lFst). intros o Ho.
  unfold msPerWeek in *. lia.
Qed.

Lemma floorFormula_level :
  tza_local tz lThu = tza_local tz lFst ->
  floorFormula tz date = getWeekNumber tz date.
Proof.
  intros Hoff. destruct thursdays_apart as (k & Hk & Ed & Hw).
  unfold floorFormula, getWeekNumber. rewrite Ed, Hoff.
  unfold ceil_div, msPerWeek. lia.
Qed.

End WeekNumber.

Lemma getWeekNumber_IsoWeek tz date :
  steadyFor tz date ->
  exists y, IsoWeek (localDay tz date) y (getWeekNumber tz date).
Proof.
  unfold steadyFor, YearFromTime. intros (H1 & H2 & H3).
  rewrite Day_MakeDate in * by apply TimeWithinDay_range.
  eexists. apply (getWeekNumber_steady tz date H1 H2 H3).
Qed.

Lemma fixedZone_steady offset date : steadyFor (fixedZone offset) date.
Proof.
  unfold steadyFor, roundTrips, LocalTime, UTC, fixedZone, msPerWeek. cbn.
  repeat split; lia.
Qed.

Lemma fixedZone_floorFormula offset date :
  getWeekNumber (fixedZone offset) date = floorFormula (fixedZone offset) date.
Proof.
  destruct (fixedZone_steady offset date) as (H1 & H2 & _).
  unfold YearFromTime in *.
  rewrite Day_MakeDate in * by apply TimeWithinDay_range.
  symmetry. apply (floorFormula_level _ date H1 H2). reflexivity.
Qed.

(** C4, as the specification words it, fails: in the zone of the canteen the
    time values of a summer Thursday and of the first Thursday of the year
    are an hour short of a whole number of weeks apart, so that rounding
    the quotient down gives week 26 for Monday 1 July 2024 where the script
    rounds up and gives week 27. *)
Lemma getWeekNumber_floor_formula_fails :
  getWeekNumber cet2024 (newDate cet2024 2024 6 1 12) = 27
  /\ floorFormula cet2024 (newDate cet2024 2024 6 1 12) = 26.
Proof. split; vm_compute; reflexivity. Qed.

(** Where summer time covers the turn of the year the offsets differ the
    other way, the zone is not steady for a winter date, and the script is
    a week ahead of ISO 8601: it gives 28 for Monday 1 July 2024, which lies
    in week 27. *)
Remark getWeekNumber_southern_zone :
  getWeekNumber aet2024 (newDate aet2024 2024 6 1 12) = 28
  /\ IsoWeek (localDay aet2024 (newDate aet2024 2024 6 1 12)) 2024 27.
Proof.
  split; [vm_compute; reflexivity |].
  unfold IsoWeek. vm_compute. repeat split; congruence.
Qed.

(** C4 (amended).  [getWeekNumber] returns 1 plus the quotient, rounded up,
    of the difference of the time values of the Thursday of the date's week
    and of the first Thursday of that Thursday's year by the length of a
    week.  This is the ISO 8601 week of the local calendar day whenever the
    zone is steady for the date, that is, the offset at the Thursday is the
    offset at the first Thursday or ahead of it.  In a zone of constant
    offset every date is steady and rounding down gives the same number.
    The week is 1 for 2024-01-01 and for 2024-12-30, which lies in week 1 of
    2025. *)
Theorem getWeekNumber_iso :
  (forall tz date,
     getWeekNumber tz date
     = 1 + ceil_div (valueOf (weekThursday tz date)
                     - valueOf (yearFirstThursday tz (weekThursday tz date)))
                    msPerWeek)
  /\ (forall tz date,
        steadyFor tz date ->
        exists y, IsoWeek (localDay tz date) y (getWeekNumber tz date))
  /\ (forall offset date,
        steadyFor (fixedZone offset) date
        /\ getWeekNumber (fixedZone offset) date
           = floorFormula (fixedZone offset) date)
  /\ getWeekNumber utcZone (newDate utcZone 2024 0 1 0) = 1
  /\ getWeekNumber utcZone (newDate utcZone 2024 11 30 0) = 1
  /\ getWeekNumber cet2024 (newDate cet2024 2024 0 1 0) = 1
  /\ getWeekNumber cet2024 (newDate cet2024 2024 11 30 0) = 1
  /\ IsoWeek (localDay cet2024 (newDate cet2024 2024 11 30 0)) 2025 1.
Proof.
  split; [reflexivity |].
  split; [exact getWeekNumber_IsoWeek |].
  split; [intros offset date; split;
          [apply fixedZone_steady | apply fixedZone_floorFormula] |].
  repeat split; try (vm_compute; reflexivity); vm_compute; congruence.
Qed.

Lemma getWeekNumber_iso_witness :
  steadyFor cet2024 (newDate cet2024 2024 6 1 12)
  /\ exists y,
       IsoWeek (localDay cet2024 (newDate cet2024 2024 6 1 12)) y
               (getWeekNumber cet2024 (newDate cet2024 2024 6 1 12)).
Proof.
  assert (H : steadyFor cet2024 (newDate cet2024 2024 6 1 12)).
  { unfold steadyFor, roundTrips. vm_compute. repeat split; congruence. }
  split; [exact H |].
  exact (proj1 (proj2 getWeekNumber_iso) _ _ H).
Defined.

End DateFacts.

(* ================================================================= *)
(** ** The matcher *)

Module RegExpFacts.
Import JSString JSRegExp Spec.

Lemma consumed_app (m rest : jsstring) : consumed (m ++ rest) rest = m.
Proof.
  unfold consumed. rewrite length_app.
  replace (List.length m + List.length rest - List.length rest)%nat
    with (List.length m) by lia.
  rewrite firstn_app, firstn_all, Nat.sub_diag. cbn. apply app_nil_r.
Qed.

Section Engine.
Context {A : Type}.

Lemma star_sound p (k : jsstring -> option A) s x :
  star p k s = Some x ->
  exists m rest, s = m ++ rest /\ Forall (fun c => p c = true) m
                 /\ k rest = Some x.
Proof.
  induction s as [| c s IH]; cbn.
  - intros H. exists [], []. auto.
  - destruct (p c) eqn:E.
    + destruct (star p k s) as [y |] eqn:Es.
      * intros Hx. inversion Hx; subst y. destruct (IH eq_refl) as (m & rest & -> & Hm & Hk).
        exists (c :: m), rest. auto.
      * intros Hk. exists [], (c :: s). auto.
    + intros Hk. exists [], (c :: s). auto.
Qed.

Lemma run_sound r : forall s caps (k : jsstring -> captures -> option A) x,
  run r s caps k = Some x ->
  exists m rest caps', s = m ++ rest /\ Matches r m caps caps'
                       /\ k rest caps' = Some x.
Proof.
  induction r as [| p | r1 IH1 r2 IH2 | r1 IH1 r2 IH2 | p | n r IH];
    intros s caps k x; cbn.
  - intros H. exists [], s, caps. repeat split; auto. constructor.
  - destruct s as [| c s]; [discriminate |].
    destruct (p c) eqn:E; [| discriminate].
    intros H. exists [c], s, caps. repeat split; auto. constructor; exact E.
  - intros H. apply IH1 in H. destruct H as (m1 & rest1 & c1 & -> & M1 & H).
    apply IH2 in H. destruct H as (m2 & rest & c2 & -> & M2 & H).
    exists (m1 ++ m2), rest, c2. rewrite <- app_assoc.
    repeat split; auto. econstructor; eauto.
  - destruct (run r1 s caps k) as [y |] eqn:E1.
    + intros Hx. inversion Hx; subst y. apply IH1 in E1.
      destruct E1 as (m & rest & c' & -> & M & H).
      exists m, rest, c'. repeat split; auto. now apply M_AltL.
    + intros H. apply IH2 in H. destruct H as (m & rest & c' & -> & M & H).
      exists m, rest, c'. repeat split; auto. now apply M_AltR.
  - intros H. apply star_sound in H. destruct H as (m & rest & -> & Hm & H).
    exists m, rest, caps. repeat split; auto. now constructor.
  - intros H. apply IH in H. destruct H as (m & rest & c' & -> & M & H).
    rewrite consumed_app in H.
    exists m, rest, ((n, m) :: c'). repeat split; auto. now constructor.
Qed.

Lemma star_greedy p (k : jsstring -> option A) m rest x :
  Forall (fun c => p c = true) m -> stops p rest -> k rest = Some x ->
  star p k (m ++ rest) = Some x.
Proof.
  intros Hm Hs Hk. induction Hm as [| c m Hc Hm IH]; cbn.
  - destruct rest as [| c rest]; cbn in *; [exact Hk |].
    rewrite Hs. exact Hk.
  - rewrite Hc, IH. reflexivity.
Qed.

Lemma run_greedy r m rest caps caps' :
  Greedy r m rest caps caps' ->
  forall (k : jsstring -> captures -> option A) x,
    k rest caps' = Some x -> run r (m ++ rest) caps k = Some x.
Proof.
  induction 1 as [rest caps | p c rest caps Hc
                 | r1 r2 m1 m2 rest c0 c1 c2 _ IH1 _ IH2
                 | r1 r2 m rest c0 c1 _ IH
                 | r1 r2 m rest c0 c1 F _ IH
                 | p m rest caps Hm Hs
                 | n r m rest c0 c1 _ IH]; intros k x Hk; cbn.
  - exact Hk.
  - rewrite Hc. exact Hk.
  - rewrite <- app_assoc. apply IH1. apply IH2. exact Hk.
  - rewrite (IH k x Hk). reflexivity.
  - rewrite (F A c0 k). apply IH. exact Hk.
  - now apply star_greedy.
  - apply IH. rewrite consumed_app. exact Hk.
Qed.

End Engine.

(** A match at the start of the input. *)
Lemma matchAt_sound r s len caps :
  matchAt r s = Some (len, caps) ->
  exists m rest, s = m ++ rest /\ len = List.length m /\ Matches r m [] caps.
Proof.
  unfold matchAt. intros H. apply run_sound in H.
  destruct H as (m & rest & c' & -> & M & H). inversion H; subst.
  exists m, rest. repeat split; auto. rewrite length_app. lia.
Qed.

Lemma matchAt_greedy r m rest caps :
  Greedy r m rest [] caps ->
  matchAt r (m ++ rest) = Some (List.length m, caps).
Proof.
  intros G. unfold matchAt. eapply run_greedy; [exact G |].
  f_equal. f_equal. rewrite length_app. lia.
Qed.

(** *** Inversion and construction for the derived forms *)

Lemma Matches_Char_inv p m c0 c1 :
  Matches (Char p) m c0 c1 -> c1 = c0 /\ exists x, m = [x] /\ p x = true.
Proof. intros H. inversion H; subst. eauto. Qed.

Lemma Matches_Star_inv p m c0 c1 :
  Matches (Star p) m c0 c1 -> c1 = c0 /\ All p m.
Proof. intros H. inversion H; subst. auto. Qed.

Lemma Matches_Plus_inv p m c0 c1 :
  Matches (Plus p) m c0 c1 -> c1 = c0 /\ Some1 p m.
Proof.
  unfold Plus. intros H. inversion H as [| | r1 r2 m1 m2 a b c H1 H2 | | | |]; subst.
  apply Matches_Char_inv in H1. destruct H1 as [-> (x & -> & Hx)].
  apply Matches_Star_inv in H2. destruct H2 as [-> Hm].
  split; [reflexivity |]. split; [discriminate |]. now constructor.
Qed.

Lemma Matches_Opt_inv p m c0 c1 :
  Matches (Opt p) m c0 c1 ->
  c1 = c0 /\ (m = [] \/ exists x, m = [x] /\ p x = true).
Proof.
  unfold Opt. intros H. inversion H as [| | | r1 r2 m' a b H1 | r1 r2 m' a b H1 | |]; subst.
  - apply Matches_Char_inv in H1. destruct H1 as [-> Hx]. auto.
  - inversion H1; subst. auto.
Qed.

Lemma Matches_Seq_inv r1 r2 m c0 c2 :
  Matches (Seq r1 r2) m c0 c2 ->
  exists m1 m2 c1, m = m1 ++ m2 /\ Matches r1 m1 c0 c1 /\ Matches r2 m2 c1 c2.
Proof. intros H. inversion H; subst. eauto 6. Qed.

Lemma Matches_Alt_inv r1 r2 m c0 c1 :
  Matches (Alt r1 r2) m c0 c1 -> Matches r1 m c0 c1 \/ Matches r2 m c0 c1.
Proof. intros H. inversion H; subst; auto. Qed.

Lemma Matches_Group_inv n r m c0 c1 :
  Matches (Group n r) m c0 c1 ->
  exists c, c1 = (n, m) :: c /\ Matches r m c0 c.
Proof. intros H. inversion H; subst. eauto. Qed.

Lemma Matches_Word_inv (lit : ascii -> regex) (R : ascii -> ascii -> Prop) :
  (forall ch m c0 c1, Matches (lit ch) m c0 c1 ->
                      c1 = c0 /\ exists x, m = [x] /\ R x ch) ->
  forall w m c0 c1,
    Matches (Word lit w) m c0 c1 -> c1 = c0 /\ Forall2 R m w.
Proof.
  intros Hlit. induction w as [| ch w IH]; intros m c0 c1 H; cbn in H.
  - inversion H; subst. auto.
  - apply Matches_Seq_inv in H. destruct H as (m1 & m2 & c & -> & H1 & H2).
    apply Hlit in H1. destruct H1 as [-> (x & -> & Hx)].
    apply IH in H2. destruct H2 as [-> Hw]. split; [reflexivity |].
    now constructor.
Qed.

Lemma Matches_Lit_inv ch m c0 c1 :
  Matches (Lit ch) m c0 c1 -> c1 = c0 /\ exists x, m = [x] /\ x = ch.
Proof.
  intros H. apply Matches_Char_inv in H. destruct H as [-> (x & -> & Hx)].
  apply Ascii.eqb_eq in Hx. eauto.
Qed.

Lemma Forall2_eq_same (m w : jsstring) : Forall2 (fun x ch => x = ch) m w -> m = w.
Proof. induction 1; subst; reflexivity. Qed.

Lemma Matches_WordLit_inv w m c0 c1 :
  Matches (Word Lit w) m c0 c1 -> c1 = c0 /\ m = w.
Proof.
  intros H. apply (Matches_Word_inv Lit (fun x ch => x = ch)) in H.
  - destruct H as [-> H]. split; [reflexivity |]. now apply Forall2_eq_same.
  - apply Matches_Lit_inv.
Qed.

Lemma Matches_WordLitI_inv w m c0 c1 :
  Matches (Word LitI w) m c0 c1 -> c1 = c0 /\ Folded m w.
Proof.
  apply Matches_Word_inv. intros ch m' a b H.
  apply Matches_Char_inv in H. destruct H as [-> (x & -> & Hx)].
  apply N.eqb_eq in Hx. eauto.
Qed.

Lemma Greedy_Lit ch rest caps : Greedy (Lit ch) [ch] rest caps caps.
Proof. constructor. apply Ascii.eqb_refl. Qed.

Lemma Greedy_WordLit w rest caps : Greedy (Word Lit w) w rest caps caps.
Proof.
  revert rest. induction w as [| ch w IH]; intros rest; cbn.
  - constructor.
  - apply (G_Seq (Lit ch) (Word Lit w) [ch] w rest caps caps caps).
    + apply Greedy_Lit.
    + apply IH.
Qed.

Lemma Greedy_WordLitI w m rest caps :
  Folded m w -> Greedy (Word LitI w) m rest caps caps.
Proof.
  intros H. revert rest. induction H as [| x ch m w Hx Hm IH]; intros rest; cbn.
  - constructor.
  - apply (G_Seq (LitI ch) (Word LitI w) [x] m rest caps caps caps).
    + constructor. now apply N.eqb_eq.
    + apply IH.
Qed.

Lemma Greedy_Plus p m rest caps :
  Some1 p m -> stops p rest -> Greedy (Plus p) m rest caps caps.
Proof.
  intros [Hn Hm] Hs. destruct Hm as [| c m Hc Hm]; [contradiction |].
  apply (G_Seq (Char p) (Star p) [c] m rest caps caps caps).
  - now constructor.
  - now constructor.
Qed.

Lemma Fails_Char p s : stops p s -> Fails (Char p) s.
Proof.
  intros H A caps k. cbn. destruct s as [| c s]; [reflexivity |].
  cbn in H. now rewrite H.
Qed.

Lemma Fails_Seq_l r1 r2 s : Fails r1 s -> Fails (Seq r1 r2) s.
Proof. intros H A caps k. cbn. apply H. Qed.

Lemma Fails_Seq_r p r2 c s : p c = true -> Fails r2 s -> Fails (Seq (Char p) r2) (c :: s).
Proof. intros Hc H A caps k. cbn. rewrite Hc. apply H. Qed.

Lemma Fails_Alt r1 r2 s : Fails r1 s -> Fails r2 s -> Fails (Alt r1 r2) s.
Proof. intros H1 H2 A caps k. cbn. rewrite H1. apply H2. Qed.

Lemma Fails_Group n r s : Fails r s -> Fails (Group n r) s.
Proof. intros H A caps k. cbn. apply H. Qed.

Lemma stops_app p m rest : m <> [] -> stops p m -> stops p (m ++ rest).
Proof. destruct m; [contradiction | auto]. Qed.

(** *** Searching and replacing *)

Lemma Clear_nil P rest : Clear P [] rest.
Proof.
  intros p1 p2 E N. apply eq_sym, app_eq_nil in E. destruct E. contradiction.
Qed.

Lemma Clear_cons P c pre rest :
  ~ Begins P (c :: pre ++ rest) -> Clear P pre rest -> Clear P (c :: pre) rest.
Proof.
  intros Hc Hp p1 p2 E N. destruct p1 as [| x p1]; cbn in E.
  - subst p2. exact Hc.
  - inversion E; subst. now apply (Hp p1 p2).
Qed.

Lemma Stripped_cons P c s out :
  ~ Begins P (c :: s) -> Stripped P s out -> Stripped P (c :: s) (c :: out).
Proof.
  intros Hc H. destruct H as [s Hs | pre m rest out Hp Hm Hn Hr].
  - apply Stripped_end. apply Clear_cons; [now rewrite app_nil_r | exact Hs].
  - apply (Stripped_cut P (c :: pre) m rest out); auto.
    apply Clear_cons; auto.
Qed.

Section Scan.
Variable r : regex.

Lemma replaceFrom_skip rep skip : forall s,
  replaceFrom r rep skip s = replaceFrom r rep 0 (skipn skip s)
  \/ (List.length s < skip)%nat.
Proof.
  induction skip as [| skip IH]; intros s.
  - left. reflexivity.
  - destruct s as [| c s]; [right; cbn; lia |].
    cbn [replaceFrom skipn]. destruct (IH s) as [E | L].
    + left. exact E.
    + right. cbn. lia.
Qed.

Lemma scan_none skip : forall pos s,
  (forall x y, s = x ++ y -> matchAt r y = None) ->
  scanFrom r skip pos s = [].
Proof.
  intros pos s. revert skip pos.
  induction s as [| c s IH]; intros skip pos H.
  - destruct skip; cbn; [| reflexivity].
    rewrite (H [] [] eq_refl). reflexivity.
  - assert (Hs : forall x y, s = x ++ y -> matchAt r y = None).
    { intros x y E. apply (H (c :: x) y). now subst. }
    destruct skip; cbn.
    + rewrite (H [] (c :: s) eq_refl). now apply IH.
    + now apply IH.
Qed.

Lemma scan_last :
  NoInner r ->
  forall pre suf len caps skip pos,
    (skip <= List.length pre)%nat ->
    matchAt r suf = Some (len, caps) ->
    (forall x y, suf = x ++ y -> x <> [] -> matchAt r y = None) ->
    exists l,
      scanFrom r skip pos (pre ++ suf)
      = l ++ [ {| index := pos + List.length pre;
                  matched := firstn len suf; groups := caps |} ].
Proof.
  intros NI pre suf len caps.
  induction pre as [| c pre IH]; intros skip pos Hskip Hm Hlast.
  - cbn in Hskip. assert (skip = 0)%nat by lia. subst skip.
    exists []. cbn [app List.length]. rewrite Nat.add_0_r.
    destruct suf as [| c suf]; cbn [scanFrom]; rewrite Hm.
    + reflexivity.
    + f_equal. apply scan_none. intros x y E.
      apply (Hlast (c :: x) y); [now subst | discriminate].
  - cbn [app List.length]. replace (pos + S (List.length pre))%nat
      with (S pos + List.length pre)%nat by lia.
    destruct skip as [| skip]; cbn [scanFrom].
    + destruct (matchAt r (c :: pre ++ suf)) as [[len' caps'] |] eqn:E.
      * assert (Hl : (pred len' <= List.length pre)%nat).
        { destruct (Nat.le_gt_cases len' (S (List.length pre))) as [L | G];
            [lia |].
          pose proof (NI _ _ _ (S (List.length pre)) E) as Hn.
          cbn [skipn] in Hn. rewrite skipn_app, skipn_all, Nat.sub_diag in Hn.
          cbn in Hn. rewrite Hn in Hm by lia. discriminate. }
        destruct (IH (pred len') (S pos) Hl Hm Hlast) as [l El].
        rewrite El. eexists (_ :: l). reflexivity.
      * apply IH; auto. lia.
    + apply IH; auto. cbn in Hskip. lia.
Qed.

End Scan.

Lemma last_snoc {A : Type} (l : list A) (x first : A) (others : list A) :
  l ++ [x] = first :: others -> last others first = x.
Proof.
  destruct l as [| a l]; cbn; intros E; inversion E; subst.
  - reflexivity.
  - apply last_last.
Qed.

Section Strip.
Variable r : regex.
Variable P : jsstring -> Prop.

Hypothesis P_sound : forall s len caps,
  matchAt r s = Some (len, caps) ->
  P (firstn len s) /\ (0 < len <= List.length s)%nat.
Hypothesis P_complete : forall s, Begins P s -> matchAt r s <> None.

Lemma replaceAll_Stripped s : Stripped P s (replaceAll s r []).
Proof.
  unfold replaceAll.
  remember (List.length s) as n eqn:En.
  assert (Hn : (List.length s <= n)%nat) by lia. clear En.
  revert s Hn. induction n as [| n IH]; intros s Hn.
  - destruct s; [| cbn in Hn; lia]. cbn.
    destruct (matchAt r []) as [[len caps] |] eqn:E.
    + apply P_sound in E. cbn in E. lia.
    + apply Stripped_end. apply Clear_nil.
  - destruct s as [| c s].
    + cbn. destruct (matchAt r []) as [[len caps] |] eqn:E.
      * apply P_sound in E. cbn in E. lia.
      * apply Stripped_end. apply Clear_nil.
    + cbn [replaceFrom]. cbn in Hn.
      destruct (matchAt r (c :: s)) as [[len caps] |] eqn:E.
      * destruct (P_sound _ _ _ E) as [Pm Hl]. cbn [List.length] in Hl.
        destruct len as [| len]; [lia |]. cbn [Nat.eqb pred app].
        destruct (replaceFrom_skip r [] len s) as [Es | L]; [| lia].
        rewrite Es.
        pose proof (firstn_skipn (S len) (c :: s)) as Split.
        rewrite <- Split at 1.
        apply (Stripped_cut P [] (firstn (S len) (c :: s))
                 (skipn (S len) (c :: s))).
        -- apply Clear_nil.
        -- exact Pm.
        -- cbn. discriminate.
        -- cbn [skipn]. apply IH. rewrite length_skipn. lia.
      * apply Stripped_cons.
        -- intros B. now apply P_complete in B.
        -- apply IH. lia.
Qed.

End Strip.

Lemma Clear_instance P pre m rest :
  Clear P (pre ++ m ++ rest) [] -> P m -> m <> [] -> False.
Proof.
  intros H Pm Hn. apply (H pre (m ++ rest) eq_refl).
  - intros E. apply app_eq_nil in E. destruct E. contradiction.
  - exists m, rest. split; [now rewrite app_nil_r | exact Pm].
Qed.

Lemma first_cut P pre m rest pre' m' rest' :
  Clear P pre (m ++ rest) -> Clear P pre' (m' ++ rest') ->
  P m -> P m' -> 
  pre ++ m ++ rest = pre' ++ m' ++ rest' ->
  pre = pre' /\ m ++ rest = m' ++ rest'.
Proof.
  intros C C' Pm Pm' E.
  apply app_eq_app in E. destruct E as [x [[E1 E2] | [E1 E2]]].
  - destruct x as [| c x].
    + rewrite app_nil_r in E1. cbn in E2. subst. auto.
    + exfalso. apply (C pre' (c :: x) E1); [discriminate |].
      rewrite <- E2. exists m', rest'. auto.
  - destruct x as [| c x].
    + rewrite app_nil_r in E1. cbn in E2. subst. auto.
    + exfalso. apply (C' pre (c :: x) E1); [discriminate |].
      rewrite <- E2. exists m, rest. auto.
Qed.

(** The scan is determined when at most one instance begins an input. *)
Lemma Stripped_unique P :
  PrefixFree P ->
  forall s o1, Stripped P s o1 -> forall o2, Stripped P s o2 -> o1 = o2.
Proof.
  intros PF s o1 H1.
  induction H1 as [s C | pre m rest out C Pm Hn H1 IH]; intros o2 H2.
  - inversion H2 as [s' C' | pre' m' rest' out' C' Pm' Hn' H']; subst.
    + reflexivity.
    + exfalso. eapply Clear_instance; eauto.
  - inversion H2 as [s' C' | pre' m' rest' out' C' Pm' Hn' H' E]; subst.
    + exfalso. eapply Clear_instance; eauto.
    + destruct (first_cut P _ _ _ _ _ _ C C' Pm Pm' (eq_sym E)) as [-> E2].
      pose proof (PF _ _ _ _ Pm Pm' E2). subst m'.
      apply app_inv_head in E2. subst rest'.
      f_equal. now apply IH.
Qed.

End RegExpFacts.

(* ================================================================= *)
(** ** The text transforms *)

Module TextFacts.
Import JSString JSRegExp LunchMenu Spec RegExpFacts.

Lemma eqb_eq (a b : jsstring) : eqb a b = true <-> a = b.
Proof.
  revert b. induction a as [| x a IH]; intros [| y b]; cbn;
    try (split; [discriminate | discriminate]); [tauto |].
  rewrite andb_true_iff, Ascii.eqb_eq, IH. split.
  - intros [-> ->]. reflexivity.
  - intros E. injection E as -> ->. auto.
Qed.

Lemma eqb_refl (a : jsstring) : eqb a a = true.
Proof. now apply eqb_eq. Qed.

Lemma eqb_neq (a b : jsstring) : eqb a b = false <-> a <> b.
Proof.
  split.
  - intros E H. apply eqb_eq in H. congruence.
  - intros H. destruct (eqb a b) eqn:E; [| reflexivity].
    apply eqb_eq in E. contradiction.
Qed.

Ltac ascii_cases c :=
  destruct c as [[] [] [] [] [] [] [] []]; vm_compute; try reflexivity;
  try discriminate; auto.

Lemma digit_not_space c : isDigit c = true -> isWhiteSpace c = false.
Proof. ascii_cases c. Qed.

Lemma space_not_digit c : isWhiteSpace c = true -> isDigit c = false.
Proof. ascii_cases c. Qed.

Lemma stops_class (p q : ascii -> bool) m rest :
  (forall c, p c = true -> q c = false) -> Some1 p m -> stops q (m ++ rest).
Proof.
  intros H [Hn Hm]. destruct Hm as [| c m Hc _]; [contradiction |].
  cbn. now apply H.
Qed.

Lemma stops_class_opt (p q : ascii -> bool) m rest :
  (forall c, p c = true -> q c = false) -> All p m -> stops q rest ->
  stops q (m ++ rest).
Proof.
  intros H Hm Hr. destruct Hm as [| c m Hc _]; [exact Hr |].
  cbn. now apply H.
Qed.

Lemma sound_of_Matches r (P : jsstring -> Prop) :
  (forall m caps, Matches r m [] caps -> P m /\ m <> []) ->
  forall s len caps,
    matchAt r s = Some (len, caps) ->
    P (firstn len s) /\ (0 < len <= List.length s)%nat.
Proof.
  intros H s len caps E. apply matchAt_sound in E.
  destruct E as (m & rest & -> & -> & M). apply H in M. destruct M as [Pm Hn].
  rewrite firstn_app, firstn_all, Nat.sub_diag. cbn [firstn].
  rewrite app_nil_r, length_app. split; [exact Pm |].
  destruct m; [contradiction | cbn; lia].
Qed.

Lemma complete_of_Greedy r (P : jsstring -> Prop) :
  (forall m rest, P m -> exists caps, Greedy r m rest [] caps) ->
  forall s, Begins P s -> matchAt r s <> None.
Proof.
  intros H s (m & rest & -> & Pm). destruct (H m rest Pm) as [caps G].
  rewrite (matchAt_greedy _ _ _ _ G). discriminate.
Qed.

Ltac invert_matches :=
  repeat match goal with
  | H : Matches (Plus _) _ _ _ |- _ =>
      apply Matches_Plus_inv in H; destruct H as [-> H]
  | H : Matches (Opt _) _ _ _ |- _ =>
      apply Matches_Opt_inv in H; destruct H as [-> H]
  | H : Matches (Lit _) _ _ _ |- _ =>
      apply Matches_Lit_inv in H; destruct H as [-> (? & -> & ->)]
  | H : Matches (Word Lit _) _ _ _ |- _ =>
      apply Matches_WordLit_inv in H; destruct H as [-> ->]
  | H : Matches (Word LitI _) _ _ _ |- _ =>
      apply Matches_WordLitI_inv in H; destruct H as [-> H]
  | H : Matches (Star _) _ _ _ |- _ =>
      apply Matches_Star_inv in H; destruct H as [-> H]
  | H : Matches (Group _ _) _ _ _ |- _ =>
      apply Matches_Group_inv in H; destruct H as (? & -> & H)
  | H : Matches (Seq _ _) _ _ _ |- _ =>
      apply Matches_Seq_inv in H; destruct H as (? & ? & ? & -> & ? & H)
  end.

(** *** Page numbers *)

Lemma pageNumberPattern_sound m caps :
  Matches pageNumberPattern m [] caps -> PageMark m /\ m <> [].
Proof.
  unfold pageNumberPattern. intros H. invert_matches.
  split; [| discriminate].
  unfold PageMark. eauto 15.
Qed.

Lemma pageNumberPattern_greedy m rest :
  PageMark m -> exists caps, Greedy pageNumberPattern m rest [] caps.
Proof.
  intros (w1 & d1 & w2 & w3 & d2 & w4 & -> & H1 & H2 & H3 & H4 & H5 & H6).
  exists []. unfold pageNumberPattern.
  repeat rewrite <- app_assoc.
  eapply G_Seq; [apply Greedy_WordLit |].
  eapply G_Seq.
  { constructor; [exact H1 |]. rewrite <- app_assoc.
    eapply stops_class; [apply digit_not_space | exact H2]. }
  eapply G_Seq.
  { apply Greedy_Plus; [exact H2 |]. rewrite <- app_assoc.
    eapply stops_class; [apply space_not_digit | exact H3]. }
  eapply G_Seq.
  { apply Greedy_Plus; [exact H3 |]. reflexivity. }
  eapply G_Seq; [apply Greedy_WordLit |].
  eapply G_Seq.
  { apply Greedy_Plus; [exact H4 |]. rewrite <- app_assoc.
    eapply stops_class; [apply digit_not_space | exact H5]. }
  eapply G_Seq.
  { apply Greedy_Plus; [exact H5 |]. rewrite <- app_assoc.
    eapply stops_class_opt; [apply space_not_digit | exact H6 |]. reflexivity. }
  eapply G_Seq.
  { constructor; [exact H6 |]. reflexivity. }
  apply Greedy_WordLit.
Qed.

Lemma removePageNumbers_stripped text :
  Stripped PageMark text (replaceAll text pageNumberPattern []).
Proof.
  apply replaceAll_Stripped.
  - apply sound_of_Matches. apply pageNumberPattern_sound.
  - apply complete_of_Greedy. apply pageNumberPattern_greedy.
Qed.

(** *** Allergen codes *)

Lemma allergyPattern_sound m caps :
  Matches allergyPattern m [] caps -> AllergenMark m /\ m <> [].
Proof.
  unfold allergyPattern. intros H. invert_matches.
  split.
  - unfold AllergenMark. eauto 8.
  - intros E. apply app_eq_nil in E. destruct E as [_ E]. discriminate.
Qed.

Lemma allergyClass_not_close c : allergyClass c = true -> Ascii.eqb ")" c = false.
Proof. ascii_cases c. Qed.

Lemma allergyPattern_greedy m rest :
  AllergenMark m -> exists caps, Greedy allergyPattern m rest [] caps.
Proof.
  intros (w & cs & -> & H1 & H2).
  exists []. unfold allergyPattern.
  repeat rewrite <- app_assoc.
  eapply G_Seq.
  { constructor; [exact H1 |]. reflexivity. }
  eapply (G_Seq _ _ (js "(")); [apply Greedy_Lit |].
  eapply G_Seq.
  { apply Greedy_Plus; [exact H2 |]. reflexivity. }
  apply Greedy_Lit.
Qed.

Lemma removeAllergyInfo_stripped text :
  Stripped AllergenMark text (removeAllergyInfo text).
Proof.
  apply replaceAll_Stripped.
  - apply sound_of_Matches. apply allergyPattern_sound.
  - apply complete_of_Greedy. apply allergyPattern_greedy.
Qed.

(** *** Trimming *)

Lemma takeWhile_dropWhile p s : takeWhile p s ++ dropWhile p s = s.
Proof.
  induction s as [| c s IH]; cbn; [reflexivity |].
  destruct (p c); cbn; [now rewrite IH | reflexivity].
Qed.

Lemma takeWhile_All p s : All p (takeWhile p s).
Proof.
  induction s as [| c s IH]; cbn; [constructor |].
  destruct (p c) eqn:E; now constructor.
Qed.

Lemma dropWhile_stops p s : stops p (dropWhile p s).
Proof.
  induction s as [| c s IH]; cbn; [exact I |].
  destruct (p c) eqn:E; [exact IH | exact E].
Qed.

Lemma All_rev p s : All p s -> All p (rev s).
Proof. apply Forall_rev. Qed.

Lemma stops_trimEnd s : stops isWhiteSpace s -> stops isWhiteSpace (trimEnd s).
Proof.
  unfold trimEnd, trimStart. intros H.
  pose proof (takeWhile_dropWhile isWhiteSpace (rev s)) as E.
  apply (f_equal (@rev ascii)) in E. rewrite rev_app_distr, rev_involutive in E.
  destruct (rev (dropWhile isWhiteSpace (rev s))) as [| c t] eqn:Ed;
    [exact I |].
  rewrite <- E in H. exact H.
Qed.

Lemma trim_Trimmed s : Trimmed s (trim s).
Proof.
  unfold trim.
  set (l := takeWhile isWhiteSpace s).
  set (u := trimStart s).
  set (r := rev (takeWhile isWhiteSpace (rev u))).
  exists l, r. repeat split.
  - unfold l, r, trimEnd, trimStart.
    rewrite <- rev_app_distr, takeWhile_dropWhile, rev_involutive.
    unfold u, trimStart. now rewrite takeWhile_dropWhile.
  - apply takeWhile_All.
  - apply All_rev, takeWhile_All.
  - apply stops_trimEnd. apply dropWhile_stops.
  - unfold trimEnd. rewrite rev_involutive. apply dropWhile_stops.
Qed.

Lemma prefix_free_of_Greedy r (P : jsstring -> Prop) :
  (forall m rest, P m -> exists caps, Greedy r m rest [] caps) ->
  PrefixFree P.
Proof.
  intros H m1 m2 r1 r2 P1 P2 E.
  destruct (H m1 r1 P1) as [c1 G1]. destruct (H m2 r2 P2) as [c2 G2].
  apply matchAt_greedy in G1. apply matchAt_greedy in G2.
  rewrite E in G1. rewrite G1 in G2. injection G2 as L _.
  apply (f_equal (fun n => firstn n (m1 ++ r1))) in L.
  rewrite firstn_app, firstn_all, Nat.sub_diag in L. cbn in L.
  rewrite app_nil_r in L. rewrite L, E.
  rewrite firstn_app, firstn_all, Nat.sub_diag. cbn. apply app_nil_r.
Qed.

Lemma PageMark_PrefixFree : PrefixFree PageMark.
Proof.
  apply (prefix_free_of_Greedy pageNumberPattern).
  apply pageNumberPattern_greedy.
Qed.

Lemma AllergenMark_PrefixFree : PrefixFree AllergenMark.
Proof.
  apply (prefix_free_of_Greedy allergyPattern).
  apply allergyPattern_greedy.
Qed.

Lemma argsInclude_In args flag : argsInclude args flag = true <-> In flag args.
Proof.
  unfold argsInclude. rewrite existsb_exists. split.
  - intros (a & Hin & E). apply eqb_eq in E. now subst.
  - intros Hin. exists flag. split; [exact Hin | apply eqb_refl].
Qed.

(** C8.  [removePageNumbers] removes the page marks (two hyphens, optional
    white space, digits, white space, [of], white space, digits, optional
    white space, two hyphens) met on a scan of the text from the left, and
    trims the white space at both ends of what is left; every text has
    exactly one such scan.  [Soup\n-- 2 of 2 --\nSalad] becomes
    [Soup\n\nSalad]. *)
Theorem removePageNumbers_strips :
  (forall text out,
     Stripped PageMark text out -> Trimmed out (removePageNumbers text))
  /\ (forall text, exists out, Stripped PageMark text out)
  /\ removePageNumbers (js "Soup" ++ newline ++ js "-- 2 of 2 --" ++ newline
                        ++ js "Salad")
     = js "Soup" ++ newline ++ newline ++ js "Salad".
Proof.
  split; [| split].
  - intros text out H.
    rewrite (Stripped_unique _ PageMark_PrefixFree _ _ H _
               (removePageNumbers_stripped text)).
    apply trim_Trimmed.
  - intros text. eexists. apply removePageNumbers_stripped.
  - vm_compute. reflexivity.
Qed.

Lemma removePageNumbers_strips_witness :
  Stripped PageMark
    (js "Soup" ++ newline ++ js "-- 2 of 2 --" ++ newline ++ js "Salad")
    (js "Soup" ++ newline ++ newline ++ js "Salad")
  /\ Trimmed (js "Soup" ++ newline ++ newline ++ js "Salad")
             (removePageNumbers
                (js "Soup" ++ newline ++ js "-- 2 of 2 --" ++ newline
                 ++ js "Salad")).
Proof.
  assert (H : Stripped PageMark
                (js "Soup" ++ newline ++ js "-- 2 of 2 --" ++ newline
                 ++ js "Salad")
                (js "Soup" ++ newline ++ newline ++ js "Salad"))
    by exact (removePageNumbers_stripped
                (js "Soup" ++ newline ++ js "-- 2 of 2 --" ++ newline
                 ++ js "Salad")).
  split; [exact H |].
  exact (proj1 removePageNumbers_strips _ _ H).
Defined.

(** C9.  [removeAllergyInfo] removes the allergen marks (optional white
    space, an open parenthesis, one or more of the digits, the comma, T, K,
    M, N and white space, a close parenthesis) met on a scan of the text
    from the left; every text has exactly one such scan.  [main] applies it,
    after the page numbers are removed, exactly when [--no-allergies] or
    [-na] is among the arguments.  [Chicken (3,7,12,T) with rice] becomes
    [Chicken with rice]. *)
Theorem removeAllergyInfo_strips :
  (forall text out,
     Stripped AllergenMark text out -> removeAllergyInfo text = out)
  /\ (forall text, exists out, Stripped AllergenMark text out)
  /\ (forall text,
        main_menuText true text = removeAllergyInfo (removePageNumbers text)
        /\ main_menuText false text = removePageNumbers text)
  /\ (forall args,
        main_noAllergies args = true
        <-> In (js "--no-allergies") args \/ In (js "-na") args)
  /\ removeAllergyInfo (js "Chicken (3,7,12,T) with rice")
     = js "Chicken with rice".
Proof.
  split; [| split; [| split; [| split]]].
  - intros text out H. symmetry.
    apply (Stripped_unique _ AllergenMark_PrefixFree _ _ H _
             (removeAllergyInfo_stripped text)).
  - intros text. eexists. apply removeAllergyInfo_stripped.
  - intros text. split; reflexivity.
  - intros args. unfold main_noAllergies.
    rewrite orb_true_iff, !argsInclude_In. reflexivity.
  - vm_compute. reflexivity.
Qed.

Lemma removeAllergyInfo_strips_witness :
  Stripped AllergenMark (js "Chicken (3,7,12,T) with rice")
                        (js "Chicken with rice")
  /\ removeAllergyInfo (js "Chicken (3,7,12,T) with rice")
     = js "Chicken with rice".
Proof.
  assert (H : Stripped AllergenMark (js "Chicken (3,7,12,T) with rice")
                                    (js "Chicken with rice"))
    by exact (removeAllergyInfo_stripped (js "Chicken (3,7,12,T) with rice")).
  split; [exact H |].
  exact (proj1 removeAllergyInfo_strips _ _ H).
Defined.

End TextFacts.

(* ================================================================= *)
(** ** Week markers *)

Module WeekMarkFacts.
Import JSString JSRegExp LunchMenu Spec RegExpFacts TextFacts.

Lemma fold_u x : foldsTo "u" x = Ascii.eqb (toLowerChar x) "u".
Proof. ascii_cases x. Qed.
Lemma fold_g x : foldsTo "g" x = Ascii.eqb (toLowerChar x) "g".
Proof. ascii_cases x. Qed.
Lemma fold_e x : foldsTo "e" x = Ascii.eqb (toLowerChar x) "e".
Proof. ascii_cases x. Qed.
Lemma fold_w x : foldsTo "w" x = Ascii.eqb (toLowerChar x) "w".
Proof. ascii_cases x. Qed.
Lemma fold_k x : foldsTo "k" x = Ascii.eqb (toLowerChar x) "k".
Proof. ascii_cases x. Qed.

Lemma fold_iff ch x :
  (forall y, foldsTo ch y = Ascii.eqb (toLowerChar y) ch) ->
  canonicalize x = canonicalize ch <-> toLowerChar x = ch.
Proof.
  intros H. rewrite <- N.eqb_eq, <- Ascii.eqb_eq. fold (foldsTo ch x).
  now rewrite H.
Qed.

Lemma Folded_uge m : Folded m (js "uge") <-> Token (js "uge") m.
Proof.
  unfold Token, Folded. split.
  - intros H. inversion H as [| a ? ? ? Ha H1]; subst.
    inversion H1 as [| b ? ? ? Hb H2]; subst.
    inversion H2 as [| c ? ? ? Hc H3]; subst. inversion H3; subst.
    apply (fold_iff _ _ fold_u) in Ha. apply (fold_iff _ _ fold_g) in Hb.
    apply (fold_iff _ _ fold_e) in Hc. cbn. now rewrite Ha, Hb, Hc.
  - intros H. destruct m as [| a [| b [| c [| d m]]]]; try discriminate.
    cbn in H. injection H as Ha Hb Hc.
    repeat constructor.
    + now apply (fold_iff _ _ fold_u).
    + now apply (fold_iff _ _ fold_g).
    + now apply (fold_iff _ _ fold_e).
Qed.

Lemma Folded_week m : Folded m (js "week") <-> Token (js "week") m.
Proof.
  unfold Token, Folded. split.
  - intros H. inversion H as [| a ? ? ? Ha H1]; subst.
    inversion H1 as [| b ? ? ? Hb H2]; subst.
    inversion H2 as [| c ? ? ? Hc H3]; subst.
    inversion H3 as [| d ? ? ? Hd H4]; subst. inversion H4; subst.
    apply (fold_iff _ _ fold_w) in Ha. apply (fold_iff _ _ fold_e) in Hb.
    apply (fold_iff _ _ fold_e) in Hc. apply (fold_iff _ _ fold_k) in Hd.
    cbn. now rewrite Ha, Hb, Hc, Hd.
  - intros H. destruct m as [| a [| b [| c [| d [| e m]]]]]; try discriminate.
    cbn in H. injection H as Ha Hb Hc Hd.
    repeat constructor.
    + now apply (fold_iff _ _ fold_w).
    + now apply (fold_iff _ _ fold_e).
    + now apply (fold_iff _ _ fold_e).
    + now apply (fold_iff _ _ fold_k).
Qed.

Lemma Folded_w m : Folded m (js "w") <-> Token (js "w") m.
Proof.
  unfold Token, Folded. split.
  - intros H. inversion H as [| a ? ? ? Ha H1]; subst. inversion H1; subst.
    apply (fold_iff _ _ fold_w) in Ha. cbn. now rewrite Ha.
  - intros H. destruct m as [| a [| b m]]; try discriminate.
    cbn in H. injection H as Ha.
    repeat constructor. now apply (fold_iff _ _ fold_w).
Qed.

(** **** The pattern of URLs *)

Lemma urlWeekPattern_sound m caps :
  Matches urlWeekPattern m [] caps ->
  exists tok ds, UrlWeekMark m ds /\ caps = [(2, ds); (1, tok)]%nat.
Proof.
  unfold urlWeekPattern. intros H.
  apply Matches_Seq_inv in H. destruct H as (tok & m2 & c1 & -> & H1 & H2).
  apply Matches_Group_inv in H1. destruct H1 as (c & -> & H1).
  apply Matches_Seq_inv in H2. destruct H2 as (sep & ds & c2 & -> & H2 & H3).
  apply Matches_Opt_inv in H2. destruct H2 as [-> Hsep].
  apply Matches_Group_inv in H3. destruct H3 as (c3 & -> & H3).
  apply Matches_Plus_inv in H3. destruct H3 as [-> Hds].
  assert (Htok : c = [] /\ (Token (js "uge") tok \/ Token (js "week") tok
                            \/ Token (js "w") tok)).
  { apply Matches_Alt_inv in H1. destruct H1 as [H1 | H1].
    - apply Matches_WordLitI_inv in H1. destruct H1 as [-> H1].
      apply Folded_uge in H1. auto.
    - apply Matches_Alt_inv in H1. destruct H1 as [H1 | H1];
        apply Matches_WordLitI_inv in H1; destruct H1 as [-> H1].
      + apply Folded_week in H1. auto.
      + apply Folded_w in H1. auto. }
  destruct Htok as [-> Htok].
  exists tok, ds. split; [| reflexivity].
  exists tok, sep. auto.
Qed.

Lemma not_u_of_w x : foldsTo "w" x = true -> foldsTo "u" x = false.
Proof. ascii_cases x. Qed.
Lemma sep_not_e x : isWeekSeparator x = true -> foldsTo "e" x = false.
Proof. ascii_cases x. Qed.
Lemma digit_not_e x : isDigit x = true -> foldsTo "e" x = false.
Proof. ascii_cases x. Qed.
Lemma digit_not_sep x : isDigit x = true -> isWeekSeparator x = false.
Proof. ascii_cases x. Qed.

Lemma Token_head_w w' tok a t :
  Token ("w"%char :: w') tok -> tok = a :: t -> foldsTo "w" a = true.
Proof.
  unfold Token. intros H ->. cbn in H. injection H as Ha Ht.
  rewrite fold_w, Ha. reflexivity.
Qed.

Lemma Fails_uge_of_w a s : foldsTo "w" a = true -> Fails (Word LitI (js "uge")) (a :: s).
Proof.
  intros H. cbn. apply Fails_Seq_l. apply Fails_Char. cbn.
  now apply not_u_of_w.
Qed.

Lemma urlWeekPattern_greedy m ds rest :
  UrlWeekMark m ds -> stops isDigit rest ->
  exists tok, Greedy urlWeekPattern m rest [] [(2, ds); (1, tok)]%nat.
Proof.
  intros (tok & sep & -> & Htok & Hsep & Hds) Hrest.
  exists tok. unfold urlWeekPattern.
  assert (Hd : exists d ds', ds = d :: ds' /\ isDigit d = true).
  { destruct Hds as [Hn Ha]. destruct Ha as [| d ds' Hd _]; [contradiction |].
    eauto. }
  destruct Hd as (d & ds' & Eds & Hd).
  apply (G_Seq _ _ tok (sep ++ ds) rest [] [(1, tok)]%nat).
  - apply G_Group. destruct Htok as [H | [H | H]].
    + apply G_AltL. apply Greedy_WordLitI. now apply Folded_uge.
    + assert (Hw : exists a t, tok = a :: t /\ foldsTo "w" a = true).
      { destruct tok as [| a t]; [discriminate |]. exists a, t.
        split; [reflexivity |]. eapply Token_head_w; [exact H | reflexivity]. }
      destruct Hw as (a & t & Et & Ha).
      apply G_AltR.
      { rewrite Et. cbn [app]. now apply Fails_uge_of_w. }
      apply G_AltL. apply Greedy_WordLitI. now apply Folded_week.
    + assert (Hw : exists a, tok = [a] /\ foldsTo "w" a = true).
      { destruct tok as [| a [| b t]]; try discriminate. exists a.
        split; [reflexivity |]. eapply Token_head_w; [exact H | reflexivity]. }
      destruct Hw as (a & Et & Ha).
      apply G_AltR.
      { rewrite Et. cbn [app]. now apply Fails_uge_of_w. }
      apply G_AltR.
      { rewrite Et. cbn [app]. change (Word LitI (js "week"))
          with (Seq (LitI "w") (Word LitI (js "eek"))).
        apply Fails_Seq_r; [exact Ha |].
        cbn. apply Fails_Seq_l. apply Fails_Char.
        rewrite Eds. destruct Hsep as [-> | (c & -> & Hc)]; cbn.
        - now apply digit_not_e.
        - now apply sep_not_e. }
      apply Greedy_WordLitI. now apply Folded_w.
  - apply (G_Seq _ _ sep ds rest [(1, tok)]%nat [(1, tok)]%nat).
    + destruct Hsep as [-> | (c & -> & Hc)].
      * apply G_AltR; [| constructor]. apply Fails_Char.
        rewrite Eds. cbn. now apply digit_not_sep.
      * apply G_AltL. now constructor.
    + apply G_Group. now apply Greedy_Plus.
Qed.

(** **** The pattern of headings *)

Lemma headingWeekPattern_sound m caps :
  Matches headingWeekPattern m [] caps ->
  exists ds, HeadingWeekMark m ds
             /\ (caps = [(1, ds)] \/ caps = [(2, ds)])%nat.
Proof.
  unfold headingWeekPattern. intros H.
  apply Matches_Alt_inv in H. destruct H as [H | H];
    apply Matches_Seq_inv in H; destruct H as (tok & m2 & c1 & -> & H1 & H2);
    apply Matches_WordLitI_inv in H1; destruct H1 as [-> H1];
    apply Matches_Seq_inv in H2; destruct H2 as (ws & ds & c2 & -> & H2 & H3);
    apply Matches_Plus_inv in H2; destruct H2 as [-> Hws];
    apply Matches_Group_inv in H3; destruct H3 as (c3 & -> & H3);
    apply Matches_Plus_inv in H3; destruct H3 as [-> Hds];
    exists ds; (split; [exists tok, ws | auto]).
  - apply Folded_uge in H1. auto.
  - apply Folded_week in H1. auto.
Qed.

Lemma headingWeekPattern_greedy m ds rest :
  HeadingWeekMark m ds -> stops isDigit rest ->
  exists caps, Greedy headingWeekPattern m rest [] caps
               /\ (caps = [(1, ds)] \/ caps = [(2, ds)])%nat.
Proof.
  intros (tok & ws & -> & Htok & Hws & Hds) Hrest.
  unfold headingWeekPattern.
  assert (Hs : stops isWhiteSpace (ds ++ rest))
    by (eapply stops_class; [apply digit_not_space | exact Hds]).
  destruct Htok as [H | H].
  - exists [(1, ds)]%nat. split; [| auto]. apply G_AltL.
    apply (G_Seq _ _ tok (ws ++ ds) rest [] []).
    + apply Greedy_WordLitI. now apply Folded_uge.
    + apply (G_Seq _ _ ws ds rest [] []).
      * now apply Greedy_Plus.
      * apply G_Group. now apply Greedy_Plus.
  - exists [(2, ds)]%nat. split; [| auto].
    assert (Hw : exists a t, tok = a :: t /\ foldsTo "w" a = true).
    { destruct tok as [| a t]; [discriminate |]. exists a, t.
      split; [reflexivity |]. eapply Token_head_w; [exact H | reflexivity]. }
    destruct Hw as (a & t & Et & Ha).
    apply G_AltR.
    { rewrite Et. cbn [app]. apply Fails_Seq_l. now apply Fails_uge_of_w. }
    apply (G_Seq _ _ tok (ws ++ ds) rest [] []).
    + apply Greedy_WordLitI. now apply Folded_week.
    + apply (G_Seq _ _ ws ds rest [] []).
      * now apply Greedy_Plus.
      * apply G_Group. now apply Greedy_Plus.
Qed.

Lemma lower_g_inner x : toLowerChar x = "g"%char -> beginsToken x = false.
Proof. ascii_cases x. Qed.
Lemma lower_e_inner x : toLowerChar x = "e"%char -> beginsToken x = false.
Proof. ascii_cases x. Qed.
Lemma lower_k_inner x : toLowerChar x = "k"%char -> beginsToken x = false.
Proof. ascii_cases x. Qed.
Lemma space_inner x : isWhiteSpace x = true -> beginsToken x = false.
Proof. ascii_cases x. Qed.
Lemma digit_inner x : isDigit x = true -> beginsToken x = false.
Proof. ascii_cases x. Qed.
Lemma lower_u_begins x : toLowerChar x = "u"%char -> beginsToken x = true.
Proof. ascii_cases x. Qed.
Lemma lower_w_begins x : toLowerChar x = "w"%char -> beginsToken x = true.
Proof. ascii_cases x. Qed.

Lemma HeadingWeekMark_split m ds :
  HeadingWeekMark m ds ->
  exists a inner, m = a :: inner /\ beginsToken a = true
                  /\ Forall (fun x => beginsToken x = false) inner.
Proof.
  intros (tok & ws & -> & Htok & [_ Hws] & [_ Hds]).
  assert (Hin : Forall (fun x => beginsToken x = false) (ws ++ ds)).
  { apply Forall_app. split.
    - eapply Forall_impl; [| exact Hws]. apply space_inner.
    - eapply Forall_impl; [| exact Hds]. apply digit_inner. }
  unfold Token in Htok. destruct Htok as [H | H].
  - destruct tok as [| a [| b [| c [| d t]]]]; try discriminate.
    cbn in H. injection H as Ha Hb Hc.
    exists a, (b :: c :: ws ++ ds). repeat split.
    + now apply lower_u_begins.
    + repeat constructor; auto using lower_g_inner, lower_e_inner.
  - destruct tok as [| a [| b [| c [| d [| e t]]]]]; try discriminate.
    cbn in H. injection H as Ha Hb Hc Hd.
    exists a, (b :: c :: d :: ws ++ ds). repeat split.
    + now apply lower_w_begins.
    + repeat constructor; auto using lower_e_inner, lower_k_inner.
Qed.

Lemma matchAt_heading_head s len caps :
  matchAt headingWeekPattern s = Some (len, caps) ->
  exists a t, s = a :: t /\ beginsToken a = true.
Proof.
  intros H. apply matchAt_sound in H. destruct H as (m & rest & -> & _ & M).
  apply headingWeekPattern_sound in M. destruct M as (ds & M & _).
  apply HeadingWeekMark_split in M. destruct M as (a & inner & -> & Ha & _).
  exists a, (inner ++ rest). auto.
Qed.

Lemma skipn_inner (Q : ascii -> Prop) inner rest k :
  Forall Q inner -> (k < List.length inner)%nat ->
  exists x t, skipn k (inner ++ rest) = x :: t /\ Q x.
Proof.
  intros H. revert k. induction H as [| y inner Hy H IH]; intros k Hk.
  - cbn in Hk. lia.
  - destruct k as [| k]; cbn.
    + eauto.
    + apply IH. cbn in Hk. lia.
Qed.

Lemma headingWeekPattern_NoInner : NoInner headingWeekPattern.
Proof.
  intros s len caps j H Hj.
  destruct (matchAt headingWeekPattern (skipn j s)) as [[len' caps'] |] eqn:E;
    [| reflexivity].
  exfalso. apply matchAt_heading_head in E. destruct E as (a' & t' & E & Ha').
  apply matchAt_sound in H. destruct H as (m & rest & -> & -> & M).
  apply headingWeekPattern_sound in M. destruct M as (ds & M & _).
  apply HeadingWeekMark_split in M. destruct M as (a & inner & -> & _ & Hin).
  destruct j as [| j]; [lia |]. cbn in Hj. cbn [app skipn] in E.
  destruct (skipn_inner _ inner rest j Hin) as (x & t & Ex & Hx); [lia |].
  rewrite Ex in E. injection E as -> _. congruence.
Qed.

End WeekMarkFacts.

(* ================================================================= *)
(** ** The link resolver *)

Module ResolverFacts.
Import JSString JSRegExp LunchMenu Spec RegExpFacts TextFacts WeekMarkFacts.

(** *** [exec] finds the first position that matches *)

Lemma exec_none r : forall s pos,
  (forall x y, s = x ++ y -> matchAt r y = None) -> execFrom r pos s = None.
Proof.
  induction s as [| c s IH]; intros pos H; cbn.
  - now rewrite (H [] [] eq_refl).
  - rewrite (H [] (c :: s) eq_refl). apply IH.
    intros x y E. apply (H (c :: x) y). now subst.
Qed.

Lemma exec_first r suf len caps : forall pre pos,
  (forall p1 p2, pre = p1 ++ p2 -> p2 <> [] -> matchAt r (p2 ++ suf) = None) ->
  matchAt r suf = Some (len, caps) ->
  execFrom r pos (pre ++ suf)
  = Some {| index := pos + List.length pre;
            matched := firstn len suf; groups := caps |}.
Proof.
  induction pre as [| c pre IH]; intros pos Hpre Hm.
  - cbn [app List.length]. rewrite Nat.add_0_r.
    destruct suf; cbn; now rewrite Hm.
  - pose proof (Hpre [] (c :: pre) eq_refl) as H0.
    cbn [app] in H0. cbn [app execFrom].
    rewrite H0 by discriminate.
    rewrite IH; auto.
    + cbn [List.length]. do 2 f_equal. lia.
    + intros p1 p2 E N. apply (Hpre (c :: p1) p2); [now subst | exact N].
Qed.

Lemma exec_some r : forall s pos res,
  execFrom r pos s = Some res ->
  exists pre suf len,
    s = pre ++ suf /\ matchAt r suf = Some (len, groups res)
    /\ (forall p1 p2, pre = p1 ++ p2 -> p2 <> [] ->
                      matchAt r (p2 ++ suf) = None).
Proof.
  induction s as [| c s IH]; intros pos res; cbn.
  - destruct (matchAt r []) as [[len caps] |] eqn:E; [| discriminate].
    intros H. injection H as <-. exists [], [], len. cbn.
    split; [reflexivity | split; [exact E |]].
    intros p1 p2 E' N. apply eq_sym, app_eq_nil in E'. destruct E'. contradiction.
  - destruct (matchAt r (c :: s)) as [[len caps] |] eqn:E.
    + intros H. injection H as <-. exists [], (c :: s), len. cbn.
      split; [reflexivity | split; [exact E |]].
      intros p1 p2 E' N. apply eq_sym, app_eq_nil in E'. destruct E'. contradiction.
    + intros H. apply IH in H. destruct H as (pre & suf & len & -> & Hm & Hp).
      exists (c :: pre), suf, len.
      split; [reflexivity | split; [exact Hm |]].
      intros p1 p2 E' N. destruct p1 as [| x p1]; cbn in E'.
      * subst p2. exact E.
      * injection E' as -> ->. exact (Hp p1 p2 eq_refl N).
Qed.

(** *** [indexOf] *)

Lemma startsWith_iff s p : startsWith s p = true <-> exists rest, s = p ++ rest.
Proof.
  revert s. induction p as [| c p IH]; intros s; cbn.
  - split; [intros _; exists s; reflexivity | destruct s; reflexivity].
  - destruct s as [| x s].
    + cbn. split; [discriminate | intros [rest E]; discriminate].
    + cbn. rewrite andb_true_iff, Ascii.eqb_eq, IH. split.
      * intros [-> [rest ->]]. eauto.
      * intros [rest E]. injection E as -> ->. eauto.
Qed.

Lemma indexOfFrom_absent sub : forall s pos,
  (0 <= pos)%Z ->
  (forall x y, s <> x ++ sub ++ y) -> indexOfFrom pos s sub = (-1)%Z.
Proof.
  induction s as [| c s IH]; intros pos Hpos H; cbn [indexOfFrom].
  - destruct (startsWith [] sub) eqn:E; [| reflexivity].
    apply startsWith_iff in E. destruct E as [rest E].
    exfalso. apply (H [] rest). exact E.
  - destruct (startsWith (c :: s) sub) eqn:E.
    + apply startsWith_iff in E. destruct E as [rest E].
      exfalso. apply (H [] rest). exact E.
    + apply IH; [lia |]. intros x y E'. apply (H (c :: x) y). now subst.
Qed.

Lemma indexOfFrom_range sub : forall s pos,
  (0 <= pos)%Z -> indexOfFrom pos s sub = (-1)%Z \/ (pos <= indexOfFrom pos s sub)%Z.
Proof.
  induction s as [| c s IH]; intros pos Hpos; cbn [indexOfFrom].
  - destruct (startsWith [] sub); [right; lia | left; reflexivity].
  - destruct (startsWith (c :: s) sub); [right; lia |].
    destruct (IH (pos + 1)%Z) as [E | L]; [lia | auto | right; lia].
Qed.

Lemma indexOfFrom_first sub after : forall before pos,
  (0 <= pos)%Z ->
  FirstAt before sub (before ++ sub ++ after) ->
  indexOfFrom pos (before ++ sub ++ after) sub
  = (pos + Z.of_nat (List.length before))%Z.
Proof.
  induction before as [| c before IH]; intros pos Hpos [_ Hfirst].
  - cbn [app List.length]. 
    assert (E : startsWith (sub ++ after) sub = true)
      by (apply startsWith_iff; eauto).
    destruct (sub ++ after) eqn:Es; cbn [indexOfFrom]; rewrite E; cbn; lia.
  - cbn [app indexOfFrom].
    destruct (startsWith (c :: before ++ sub ++ after) sub) eqn:E.
    + apply startsWith_iff in E. destruct E as [rest E].
      specialize (Hfirst [] rest E). cbn in Hfirst. lia.
    + rewrite IH.
      * cbn [List.length]. lia.
      * lia.
      * split; [eauto |]. intros b a E'.
        specialize (Hfirst (c :: b) a). cbn in Hfirst.
        rewrite E' in Hfirst. specialize (Hfirst eq_refl). lia.
Qed.

Lemma indexOf_absent s sub :
  (forall x y, s <> x ++ sub ++ y) -> indexOf s sub = (-1)%Z.
Proof. apply indexOfFrom_absent. lia. Qed.

Lemma indexOf_first before sub s :
  FirstAt before sub s -> indexOf s sub = Z.of_nat (List.length before).
Proof.
  intros H. destruct H as [[after ->] H'].
  unfold indexOf. rewrite indexOfFrom_first; [lia | lia |].
  split; eauto.
Qed.

Lemma substring0_first before sub s :
  FirstAt before sub s -> substring0 s (indexOf s sub) = before.
Proof.
  intros H. rewrite (indexOf_first _ _ _ H). destruct H as [[after ->] _].
  unfold substring0. rewrite Nat2Z.id.
  rewrite firstn_app, firstn_all, Nat.sub_diag. cbn. apply app_nil_r.
Qed.

(** *** [parseInt] of a run of digits *)

Lemma digit_not_sign c :
  isDigit c = true -> Ascii.eqb c "-" = false /\ Ascii.eqb c "+" = false.
Proof. ascii_cases c. Qed.

Lemma takeWhile_all p s : All p s -> takeWhile p s = s.
Proof. induction 1 as [| c s Hc _ IH]; cbn; [| rewrite Hc, IH]; reflexivity. Qed.

Lemma parseInt_digits ds :
  Some1 isDigit ds -> parseInt ds = Some (digitsValue ds).
Proof.
  intros [Hn Ha]. destruct Ha as [| c ds Hc Ha]; [contradiction |].
  unfold parseInt, trimStart. cbn [dropWhile].
  rewrite (digit_not_space _ Hc).
  destruct (digit_not_sign _ Hc) as [-> ->].
  rewrite takeWhile_all by now constructor.
  f_equal. lia.
Qed.

(** *** [includes] *)

Lemma indexOfFrom_present sub y : forall x pos,
  (0 <= pos)%Z -> indexOfFrom pos (x ++ sub ++ y) sub <> (-1)%Z.
Proof.
  induction x as [| c x IH]; intros pos Hpos.
  - cbn [app].
    assert (E : startsWith (sub ++ y) sub = true)
      by (apply startsWith_iff; eauto).
    destruct (sub ++ y); cbn [indexOfFrom]; rewrite E; lia.
  - cbn [app indexOfFrom].
    destruct (startsWith (c :: x ++ sub ++ y) sub); [lia |].
    apply IH. lia.
Qed.

Lemma includes_Contains s sub : Contains s sub -> includes s sub = true.
Proof.
  intros (x & y & ->). unfold includes, indexOf.
  apply negb_true_iff, Z.eqb_neq. apply indexOfFrom_present. lia.
Qed.

(** *** The candidate of an anchor *)

Lemma ForDay_check dayName element href :
  ForDay dayName element href ->
  negb (includes (toLowerCase (Cheerio.text element)) (toLowerCase dayName))
  && negb (includes (toLowerCase href) (toLowerCase dayName)) = false.
Proof.
  intros [H | H]; apply includes_Contains in H; rewrite H; cbn;
    [reflexivity | apply andb_false_r].
Qed.

Lemma matchAt_url_marked s len caps :
  matchAt urlWeekPattern s = Some (len, caps) -> UrlMarked s.
Proof.
  intros H. apply matchAt_sound in H. destruct H as (m & rest & -> & _ & M).
  apply urlWeekPattern_sound in M. destruct M as (tok & ds & M & _).
  exists m, ds, rest. auto.
Qed.

Lemma matchAt_url_unmarked s : ~ UrlMarked s -> matchAt urlWeekPattern s = None.
Proof.
  intros H. destruct (matchAt urlWeekPattern s) as [[len caps] |] eqn:E;
    [| reflexivity].
  exfalso. apply H. eapply matchAt_url_marked. exact E.
Qed.

Lemma matchAt_heading_marked s len caps :
  matchAt headingWeekPattern s = Some (len, caps) -> HeadingMarked s.
Proof.
  intros H. apply matchAt_sound in H. destruct H as (m & rest & -> & _ & M).
  apply headingWeekPattern_sound in M. destruct M as (ds & M & _).
  exists m, ds, rest. auto.
Qed.

Lemma matchAt_heading_unmarked s :
  ~ HeadingMarked s -> matchAt headingWeekPattern s = None.
Proof.
  intros H. destruct (matchAt headingWeekPattern s) as [[len caps] |] eqn:E;
    [| reflexivity].
  exfalso. apply H. eapply matchAt_heading_marked. exact E.
Qed.

Lemma Some1_truthy p ds : Some1 p ds -> truthy ds = true.
Proof. intros [Hn _]. destruct ds; [contradiction | reflexivity]. Qed.

Lemma UrlWeekMark_nonempty m ds : UrlWeekMark m ds -> m <> [].
Proof.
  intros (tok & sep & -> & _ & _ & [Hn _]) E.
  apply app_eq_nil in E. destruct E as [_ E].
  apply app_eq_nil in E. destruct E as [_ E]. contradiction.
Qed.

(** The first marker of the [href] gives the week. *)
Lemma candidateOf_url bodyHtml dayName element href pre m ds post :
  Cheerio.attr element (js "href") = Some href ->
  ForDay dayName element href ->
  href = pre ++ m ++ post ->
  UrlWeekMark m ds -> stops isDigit post ->
  (forall p1 p2, pre = p1 ++ p2 -> p2 <> [] -> ~ UrlMarked (p2 ++ m ++ post)) ->
  candidateOf bodyHtml dayName element
  = Some {| href := href; weekNum := Some (Num (digitsValue ds)) |}.
Proof.
  intros Hattr Hday Ehref Hm Hpost Hfirst.
  unfold candidateOf. rewrite Hattr.
  assert (Ht : truthy href = true).
  { subst href. pose proof (UrlWeekMark_nonempty _ _ Hm).
    destruct pre; [destruct m; [contradiction | reflexivity] | reflexivity]. }
  rewrite Ht. cbn [negb]. rewrite (ForDay_check _ _ _ Hday).
  destruct (urlWeekPattern_greedy m ds post Hm Hpost) as [tok G].
  apply matchAt_greedy in G.
  unfold jsmatch. rewrite Ehref.
  rewrite (exec_first urlWeekPattern (m ++ post) _ _ pre 0%nat
             ltac:(intros p1 p2 E N; apply matchAt_url_unmarked;
                   now apply (Hfirst p1 p2)) G).
  cbn [groups capture Nat.eqb]. unfold parseInt10.
  rewrite (parseInt_digits ds)
    by (destruct Hm as (? & ? & _ & _ & _ & H); exact H).
  reflexivity.
Qed.

Lemma exec_complete r y : forall x pos,
  matchAt r y <> None -> execFrom r pos (x ++ y) <> None.
Proof.
  induction x as [| c x IH]; intros pos H.
  - cbn [app]. destruct y; cbn; destruct (matchAt r _) as [[len caps] |];
      congruence.
  - cbn [app execFrom].
    destruct (matchAt r (c :: x ++ y)) as [[len caps] |]; [discriminate |].
    now apply IH.
Qed.

Lemma UrlMarked_matchAt y : UrlMarked y -> matchAt urlWeekPattern y <> None.
Proof.
  intros (m & ds & rest & -> & (tok & sep & -> & Htok & Hsep & [Hn Hds])).
  set (ds1 := ds ++ takeWhile isDigit rest).
  assert (M : UrlWeekMark (tok ++ sep ++ ds1) ds1).
  { exists tok, sep. repeat split; auto.
    - unfold ds1. intros E. apply app_eq_nil in E. destruct E. contradiction.
    - unfold ds1. apply Forall_app. split; [exact Hds | apply takeWhile_All]. }
  destruct (urlWeekPattern_greedy _ _ (dropWhile isDigit rest) M
              (dropWhile_stops _ _)) as [tok' G].
  apply matchAt_greedy in G.
  replace ((tok ++ sep ++ ds) ++ rest)
    with ((tok ++ sep ++ ds1) ++ dropWhile isDigit rest).
  - rewrite G. discriminate.
  - unfold ds1. repeat rewrite <- app_assoc.
    now rewrite takeWhile_dropWhile.
Qed.

Lemma jsmatch_url_groups href res :
  jsmatch href urlWeekPattern = Some res ->
  exists tok ds,
    groups res = [(2, ds); (1, tok)]%nat /\ Some1 isDigit ds
    /\ truthy href = true.
Proof.
  unfold jsmatch. intros E. apply exec_some in E.
  destruct E as (pre & suf & len & -> & Hm & _).
  apply matchAt_sound in Hm. destruct Hm as (m & rest & -> & _ & M).
  apply urlWeekPattern_sound in M. destruct M as (tok & ds & M & Ec).
  exists tok, ds. split; [exact Ec |].
  split; [destruct M as (? & ? & _ & _ & _ & H); exact H |].
  pose proof (UrlWeekMark_nonempty _ _ M).
  destruct pre; [destruct m; [contradiction | reflexivity] | reflexivity].
Qed.

(** A marker anywhere in the [href] gives a week, which depends on the
    [href] alone. *)
Lemma candidateOf_url_any link :
  (exists x y, link = x ++ y /\ UrlMarked y) ->
  exists ds,
    Some1 isDigit ds /\
    forall bodyHtml dayName element,
      Cheerio.attr element (js "href") = Some link ->
      ForDay dayName element link ->
      candidateOf bodyHtml dayName element
      = Some {| href := link; weekNum := Some (Num (digitsValue ds)) |}.
Proof.
  intros (x & y & -> & My).
  destruct (jsmatch (x ++ y) urlWeekPattern) as [res |] eqn:E.
  - destruct (jsmatch_url_groups _ _ E) as (tok & ds & Eg & Hds & Ht).
    exists ds. split; [exact Hds |]. intros bodyHtml dayName element Hattr Hday.
    unfold candidateOf. rewrite Hattr, Ht. cbn [negb].
    rewrite (ForDay_check _ _ _ Hday), E, Eg.
    cbn [capture Nat.eqb]. unfold parseInt10.
    now rewrite (parseInt_digits ds Hds).
  - exfalso. revert E. unfold jsmatch. apply exec_complete.
    now apply UrlMarked_matchAt.
Qed.

Lemma HeadingMarked_matchAt y :
  HeadingMarked y -> matchAt headingWeekPattern y <> None.
Proof.
  intros (m & ds & rest & -> & (tok & ws & -> & Htok & Hws & [Hn Hds])).
  set (ds1 := ds ++ takeWhile isDigit rest).
  assert (M : HeadingWeekMark (tok ++ ws ++ ds1) ds1).
  { exists tok, ws. repeat split; auto; try apply Hws.
    - unfold ds1. intros E. apply app_eq_nil in E. destruct E. contradiction.
    - unfold ds1. apply Forall_app. split; [exact Hds | apply takeWhile_All]. }
  destruct (headingWeekPattern_greedy _ _ (dropWhile isDigit rest) M
              (dropWhile_stops _ _)) as (caps & G & _).
  apply matchAt_greedy in G.
  replace ((tok ++ ws ++ ds) ++ rest)
    with ((tok ++ ws ++ ds1) ++ dropWhile isDigit rest).
  - rewrite G. discriminate.
  - unfold ds1. repeat rewrite <- app_assoc.
    now rewrite takeWhile_dropWhile.
Qed.

(** Deciding the absence of markers by running the matcher. *)

Lemma exec_none_inv r : forall s pos,
  execFrom r pos s = None -> forall x y, s = x ++ y -> matchAt r y = None.
Proof.
  induction s as [| c s IH]; intros pos H x y E; cbn in H.
  - apply eq_sym, app_eq_nil in E. destruct E as [-> ->].
    destruct (matchAt r []) as [[len caps] |]; [discriminate | reflexivity].
  - destruct (matchAt r (c :: s)) as [[len caps] |] eqn:Em; [discriminate |].
    destruct x as [| c' x]; cbn in E.
    + now subst y.
    + injection E as -> ->. eapply IH; [exact H | reflexivity].
Qed.

Lemma unmatched_sound r suf : forall pre,
  unmatched r pre suf = true ->
  forall p1 p2, pre = p1 ++ p2 -> p2 <> [] -> matchAt r (p2 ++ suf) = None.
Proof.
  induction pre as [| c pre IH]; intros H p1 p2 E N.
  - apply eq_sym, app_eq_nil in E. destruct E. contradiction.
  - cbn [unmatched] in H.
    destruct (matchAt r ((c :: pre) ++ suf)) as [[len caps] |] eqn:Em;
      [discriminate |].
    destruct p1 as [| c' p1]; cbn in E.
    + now subst p2.
    + injection E as -> ->. now apply (IH H p1 p2).
Qed.

Lemma url_unmarked_by_exec link :
  jsmatch link urlWeekPattern = None ->
  forall x y, link = x ++ y -> ~ UrlMarked y.
Proof.
  intros H x y E M. apply UrlMarked_matchAt in M. apply M.
  eapply exec_none_inv; [exact H | exact E].
Qed.

Lemma url_unmarked_prefix pre suf :
  unmatched urlWeekPattern pre suf = true ->
  forall p1 p2, pre = p1 ++ p2 -> p2 <> [] -> ~ UrlMarked (p2 ++ suf).
Proof.
  intros H p1 p2 E N M. apply UrlMarked_matchAt in M. apply M.
  now apply (unmatched_sound _ _ _ H p1 p2).
Qed.

Lemma heading_unmarked_by_exec s :
  execFrom headingWeekPattern 0 s = None ->
  forall x y, s = x ++ y -> ~ HeadingMarked y.
Proof.
  intros H x y E M. apply HeadingMarked_matchAt in M. apply M.
  eapply exec_none_inv; [exact H | exact E].
Qed.

Lemma heading_unmarked_after c s :
  execFrom headingWeekPattern 0 s = None ->
  forall x y, c :: s = x ++ y -> x <> [] -> ~ HeadingMarked y.
Proof.
  intros H x y E N. destruct x as [| c' x]; [contradiction |].
  cbn in E. injection E as _ E.
  now apply (heading_unmarked_by_exec s H x y).
Qed.

Lemma FirstAt_by_indexOf s sub n :
  indexOf s sub = Z.of_nat n ->
  FirstAt (firstn n s) sub s.
Proof.
  unfold indexOf. intros H.
  assert (G : forall s pos n,
             (0 <= pos)%Z ->
             indexOfFrom pos s sub = (pos + Z.of_nat n)%Z ->
             FirstAt (firstn n s) sub s).
  { clear. induction s as [| c s IH]; intros pos n Hpos H; cbn [indexOfFrom] in H.
    - destruct (startsWith [] sub) eqn:E; [| lia].
      assert (n = 0)%nat by lia. subst n. cbn.
      apply startsWith_iff in E. destruct E as [rest E].
      split; [exists rest; exact E | intros; cbn; lia].
    - destruct (startsWith (c :: s) sub) eqn:E.
      + assert (n = 0)%nat by lia. subst n. cbn.
        apply startsWith_iff in E. destruct E as [rest E].
        split; [exists rest; exact E | intros; cbn; lia].
      + destruct n as [| n].
        * pose proof (indexOfFrom_range sub s (pos + 1)). lia.
        * destruct (IH (pos + 1)%Z n) as [[after Ea] Hf]; [lia | lia |].
          cbn [firstn]. split.
          -- exists after. cbn. now rewrite <- Ea.
          -- intros b a Eb. destruct b as [| c' b].
             ++ cbn in Eb. exfalso.
                assert (X : startsWith (c :: s) sub = true)
                  by (apply startsWith_iff; eauto).
                congruence.
             ++ cbn in Eb. injection Eb as -> Eb.
                specialize (Hf b a Eb). cbn. lia. }
  apply (G s 0%Z n); [lia | lia].
Qed.

Lemma Contains_by_includes s sub : includes s sub = true -> Contains s sub.
Proof.
  unfold includes. intros H. apply negb_true_iff, Z.eqb_neq in H.
  destruct (indexOfFrom_range sub s 0%Z) as [E | L]; [lia | | ].
  - unfold indexOf in H. contradiction.
  - destruct (FirstAt_by_indexOf s sub (Z.to_nat (indexOf s sub)))
      as [[after E] _].
    + unfold indexOf. rewrite Z2Nat.id; [reflexivity | exact L].
    + eexists _, after. exact E.
Qed.

Lemma Contains_app_l a s sub : Contains s sub -> Contains (a ++ s) sub.
Proof.
  intros (x & y & ->). exists (a ++ x), y. now rewrite <- app_assoc.
Qed.

(** *** Positional inference *)

Lemma endsWith_truthy v suffix :
  suffix <> [] -> endsWith v suffix = true -> truthy v = true.
Proof.
  intros Hn H. destruct v as [| c v]; [| reflexivity].
  unfold endsWith in H. cbn [rev] in H.
  destruct (rev suffix) eqn:E.
  - apply (f_equal (@rev ascii)) in E. rewrite rev_involutive in E.
    contradiction.
  - discriminate.
Qed.

Lemma isPdfAnchor_href element :
  Cheerio.isPdfAnchor element = true ->
  exists href, Cheerio.attr element (js "href") = Some href
               /\ truthy href = true.
Proof.
  unfold Cheerio.isPdfAnchor. intros H. apply andb_true_iff in H.
  destruct H as [_ H].
  destruct (Cheerio.attr element (js "href")) as [v |]; [| discriminate].
  exists v. split; [reflexivity |].
  eapply endsWith_truthy; [| exact H]. discriminate.
Qed.

Section Positional.
Variables (bodyHtml dayName : jsstring) (element : Cheerio.Element).
Variable link : jsstring.
Hypothesis Hattr : Cheerio.attr element (js "href") = Some link.
Hypothesis Htruthy : truthy link = true.
Hypothesis Hday : ForDay dayName element link.
Hypothesis Hplain : forall x y, link = x ++ y -> ~ UrlMarked y.

Lemma candidateOf_positional :
  candidateOf bodyHtml dayName element =
  let elementPos := indexOf bodyHtml (Cheerio.outerHtml element) in
  if (elementPos =? -1)%Z
  then Some {| href := link; weekNum := None |}
  else Some {| href := link;
               weekNum :=
                 match matchAll (substring0 bodyHtml elementPos)
                                headingWeekPattern with
                 | first :: others =>
                     let lastMatch := last others first in
                     Some (parseInt10 (orElse (capture 1 (groups lastMatch))
                                              (capture 2 (groups lastMatch))))
                 | [] => None
                 end |}.
Proof.
  unfold candidateOf. rewrite Hattr, Htruthy. cbn [negb].
  rewrite (ForDay_check _ _ _ Hday).
  unfold jsmatch. rewrite exec_none; [reflexivity |].
  intros x y E. apply matchAt_url_unmarked. now apply (Hplain x y).
Qed.

Lemma candidateOf_not_found :
  (forall x y, bodyHtml <> x ++ Cheerio.outerHtml element ++ y) ->
  candidateOf bodyHtml dayName element
  = Some {| href := link; weekNum := None |}.
Proof.
  intros H. rewrite candidateOf_positional. cbn zeta.
  rewrite (indexOf_absent _ _ H). reflexivity.
Qed.

Variable before : jsstring.
Hypothesis Hfound : FirstAt before (Cheerio.outerHtml element) bodyHtml.

Lemma candidateOf_found :
  candidateOf bodyHtml dayName element =
  Some {| href := link;
          weekNum :=
            match matchAll before headingWeekPattern with
            | first :: others =>
                let lastMatch := last others first in
                Some (parseInt10 (orElse (capture 1 (groups lastMatch))
                                         (capture 2 (groups lastMatch))))
            | [] => None
            end |}.
Proof.
  rewrite candidateOf_positional. cbn zeta.
  rewrite (substring0_first _ _ _ Hfound), (indexOf_first _ _ _ Hfound).
  destruct (Z.eqb_spec (Z.of_nat (List.length before)) (-1)); [lia |].
  reflexivity.
Qed.

Lemma candidateOf_last_heading pre m ds post :
  before = pre ++ m ++ post ->
  HeadingWeekMark m ds -> stops isDigit post ->
  (forall x y, m ++ post = x ++ y -> x <> [] -> ~ HeadingMarked y) ->
  candidateOf bodyHtml dayName element
  = Some {| href := link; weekNum := Some (Num (digitsValue ds)) |}.
Proof.
  intros Eb Hm Hpost Hlast. rewrite candidateOf_found.
  destruct (headingWeekPattern_greedy m ds post Hm Hpost) as (caps & G & Hc).
  apply matchAt_greedy in G.
  destruct (scan_last headingWeekPattern headingWeekPattern_NoInner
              pre (m ++ post) _ _ 0%nat 0%nat (Nat.le_0_l _) G) as [l El].
  { intros x y E N. apply matchAt_heading_unmarked. now apply (Hlast x y). }
  unfold matchAll. rewrite Eb, El.
  destruct (l ++ [_]) as [| first others] eqn:E.
  - destruct l; discriminate.
  - cbn zeta. rewrite (last_snoc _ _ _ _ E). cbn [groups].
    assert (Hds : Some1 isDigit ds)
      by (destruct Hm as (? & ? & _ & _ & _ & H); exact H).
    assert (Ev : orElse (capture 1 caps) (capture 2 caps) = Some ds).
    { destruct Hc as [-> | ->]; cbn; [| reflexivity].
      now rewrite (Some1_truthy _ _ Hds). }
    rewrite Ev. unfold parseInt10. now rewrite (parseInt_digits ds Hds).
Qed.

Lemma candidateOf_no_heading :
  (forall x y, before = x ++ y -> ~ HeadingMarked y) ->
  candidateOf bodyHtml dayName element
  = Some {| href := link; weekNum := None |}.
Proof.
  intros H. rewrite candidateOf_found.
  unfold matchAll. rewrite scan_none; [reflexivity |].
  intros x y E. apply matchAt_heading_unmarked. now apply (H x y).
Qed.

End Positional.

(** *** Selection *)

Lemma candidateOf_truthy bodyHtml dayName element c :
  candidateOf bodyHtml dayName element = Some c -> truthy (href c) = true.
Proof.
  unfold candidateOf.
  destruct (Cheerio.attr element (js "href")) as [v |]; [| discriminate].
  destruct (truthy v) eqn:Ev; cbn [negb]; [| discriminate].
  destruct (_ && _); [discriminate |].
  destruct (jsmatch v urlWeekPattern).
  - intros H. injection H as <-. exact Ev.
  - destruct (_ =? _)%Z; intros H; injection H as <-; exact Ev.
Qed.

Lemma filterMap_complete {A B : Type} (f : A -> option B) l a b :
  In a l -> f a = Some b -> In b (filterMap f l).
Proof.
  induction l as [| x l IH]; intros Hin E; [destruct Hin |].
  cbn. destruct Hin as [-> | Hin].
  - rewrite E. now left.
  - destruct (f x); [right |]; apply IH; assumption.
Qed.

Lemma filterMap_In {A B : Type} (f : A -> option B) l b :
  In b (filterMap f l) -> exists a, In a l /\ f a = Some b.
Proof.
  induction l as [| a l IH]; cbn; [contradiction |].
  destruct (f a) as [b' |] eqn:E.
  - intros [-> | H]; [eauto |]. destruct (IH H) as (a' & Ha & Hf). eauto.
  - intros H. destruct (IH H) as (a' & Ha & Hf). eauto.
Qed.

Lemma candidatesOf_truthy doc html dayName c :
  In c (candidatesOf doc html dayName) -> truthy (href c) = true.
Proof.
  unfold candidatesOf. intros H. apply filterMap_In in H.
  destruct H as (a & _ & H). eapply candidateOf_truthy. exact H.
Qed.

Lemma find_none_iff weekNumber cs :
  (forall c, In c cs -> weekNum c <> Some (Num weekNumber)) ->
  find (weekNumIs weekNumber) cs = None.
Proof.
  intros H. destruct (find (weekNumIs weekNumber) cs) as [c |] eqn:E;
    [| reflexivity].
  apply find_some in E. destruct E as [Hin Hc]. exfalso.
  apply (H c Hin). unfold weekNumIs in Hc.
  destruct (weekNum c) as [[| n] |]; try discriminate.
  apply Z.eqb_eq in Hc. now subst.
Qed.

Lemma find_first weekNumber before c after :
  (forall b, In b before -> weekNum b <> Some (Num weekNumber)) ->
  weekNum c = Some (Num weekNumber) ->
  find (weekNumIs weekNumber) (before ++ c :: after) = Some c.
Proof.
  intros Hb Hc. induction before as [| b before IH]; cbn.
  - unfold weekNumIs at 1. rewrite Hc, Z.eqb_refl. reflexivity.
  - destruct (weekNumIs weekNumber b) eqn:E.
    + exfalso. apply (Hb b); [now left |]. unfold weekNumIs in E.
      destruct (weekNum b) as [[| n] |]; try discriminate.
      apply Z.eqb_eq in E. now subst.
    + apply IH. intros b' Hin. apply Hb. now right.
Qed.

Lemma scan_In r : forall s skip pos res,
  In res (scanFrom r skip pos s) ->
  exists suf len, matchAt r suf = Some (len, groups res).
Proof.
  induction s as [| c s IH]; intros skip pos res; destruct skip; cbn [scanFrom].
  - destruct (matchAt r []) as [[len caps] |] eqn:E; [| contradiction].
    intros [<- | []]. eauto.
  - contradiction.
  - destruct (matchAt r (c :: s)) as [[len caps] |] eqn:E.
    + intros [<- | H]; [eauto | eapply IH; exact H].
    + apply IH.
  - apply IH.
Qed.

Lemma last_In {A : Type} (first : A) others :
  In (last others first) (first :: others).
Proof.
  induction others as [| a others IH]; [now left |].
  destruct others as [| b others]; [right; now left |].
  change (last (a :: b :: others) first) with (last (b :: others) first).
  destruct IH as [E | H]; [left; exact E | right; right; exact H].
Qed.

(** The week of a candidate is unknown or a number, never NaN. *)
Lemma candidateOf_known bodyHtml dayName element c :
  candidateOf bodyHtml dayName element = Some c ->
  weekNum c = None \/ exists n, weekNum c = Some (Num n).
Proof.
  unfold candidateOf.
  destruct (Cheerio.attr element (js "href")) as [v |]; [| discriminate].
  destruct (truthy v) eqn:Ev; cbn [negb]; [| discriminate].
  destruct (_ && _); [discriminate |].
  destruct (jsmatch v urlWeekPattern) as [res |] eqn:E.
  - intros H. injection H as <-. right. cbn [weekNum].
    destruct (jsmatch_url_groups _ _ E) as (tok & ds & -> & Hds & _).
    cbn [capture Nat.eqb]. unfold parseInt10.
    rewrite (parseInt_digits ds Hds). eauto.
  - destruct (_ =? _)%Z; intros H; injection H as <-; [now left |].
    cbn [weekNum].
    destruct (matchAll _ headingWeekPattern) as [| first others] eqn:El;
      [now left |].
    right. cbn zeta.
    assert (Hin : In (last others first)
                     (matchAll (substring0 bodyHtml
                                  (indexOf bodyHtml (Cheerio.outerHtml element)))
                               headingWeekPattern))
      by (rewrite El; apply last_In).
    apply scan_In in Hin. destruct Hin as (suf & len & Hm).
    apply matchAt_sound in Hm. destruct Hm as (m & rest & _ & _ & M).
    apply headingWeekPattern_sound in M. destruct M as (ds & M & Hc).
    assert (Hds : Some1 isDigit ds)
      by (destruct M as (? & ? & _ & _ & _ & H); exact H).
    assert (Ev' : orElse (capture 1 (groups (last others first)))
                         (capture 2 (groups (last others first))) = Some ds).
    { destruct Hc as [-> | ->]; cbn; [| reflexivity].
      now rewrite (Some1_truthy _ _ Hds). }
    rewrite Ev'. unfold parseInt10. rewrite (parseInt_digits ds Hds). eauto.
Qed.

(** The week of a candidate without a week marker in its [href], by the
    place of the markup of its anchor in the markup that is searched. *)
Lemma candidateOf_by_position bodyHtml dayName element link :
  Cheerio.isPdfAnchor element = true ->
  Cheerio.attr element (js "href") = Some link ->
  ForDay dayName element link ->
  (forall x y, link = x ++ y -> ~ UrlMarked y) ->
  ((forall x y, bodyHtml <> x ++ Cheerio.outerHtml element ++ y) ->
   candidateOf bodyHtml dayName element
   = Some {| href := link; weekNum := None |})
  /\ (forall before,
        FirstAt before (Cheerio.outerHtml element) bodyHtml ->
        (forall pre m ds post,
           before = pre ++ m ++ post ->
           HeadingWeekMark m ds -> stops isDigit post ->
           (forall x y, m ++ post = x ++ y -> x <> [] -> ~ HeadingMarked y) ->
           candidateOf bodyHtml dayName element
           = Some {| href := link;
                     weekNum := Some (Num (digitsValue ds)) |})
        /\ ((forall x y, before = x ++ y -> ~ HeadingMarked y) ->
            candidateOf bodyHtml dayName element
            = Some {| href := link; weekNum := None |})).
Proof.
  intros Hpdf Hattr Hday Hplain.
  assert (Ht : truthy link = true).
  { destruct (isPdfAnchor_href _ Hpdf) as (v & Hv & Ht). congruence. }
  split; [| intros before Hfirst; split].
  - now apply candidateOf_not_found.
  - intros pre m ds post. now apply candidateOf_last_heading.
  - now apply candidateOf_no_heading.
Qed.

(** The resolver makes its candidates of the anchors the selector picks,
    each against the markup that is searched. *)
Lemma candidatesOf_searched doc html dayName :
  candidatesOf doc html dayName
  = filterMap (candidateOf (searchedMarkup doc html) dayName)
              (Cheerio.selectPdfAnchors doc).
Proof.
  unfold candidatesOf, searchedMarkup.
  destruct (Cheerio.bodyHtml doc) as [[| c body] |]; reflexivity.
Qed.

(** C1.  For an anchor that is kept for the day and whose [href] holds no
    week marker: when its markup does not occur in the markup of the body,
    the week of the candidate is unknown; otherwise, with [before] the
    markup that precedes its first occurrence, the week is the value of the
    digits of the last heading marker ([uge] or [week], white space, digits,
    in any case) of [before], and is unknown when [before] holds none.  On
    the page with the headings [Uge 2] and [Uge 3] the resolver returns
    [mon2.pdf] for week 3 and [mon.pdf] for week 2.

    The markup the resolver searches is the serialized content of the body
    of the document it loads, and the HTML it was given only when there is
    no body or the body is empty: its candidates are those of the anchors
    the selector picks, each placed in that markup, and the candidate of
    such an anchor of the loaded page is among them with the week so
    inferred.  A week marker in the head of the page is therefore not seen:
    the page whose title is [Uge 9] and whose body is the one anchor
    [menu.pdf] has a single candidate, of unknown week, which is returned
    for week 7. *)
Theorem positional_week_inference :
  (forall bodyHtml dayName element link,
     Cheerio.isPdfAnchor element = true ->
     Cheerio.attr element (js "href") = Some link ->
     ForDay dayName element link ->
     (forall x y, link = x ++ y -> ~ UrlMarked y) ->
     ((forall x y, bodyHtml <> x ++ Cheerio.outerHtml element ++ y) ->
      candidateOf bodyHtml dayName element
      = Some {| href := link; weekNum := None |})
     /\ (forall before,
           FirstAt before (Cheerio.outerHtml element) bodyHtml ->
           (forall pre m ds post,
              before = pre ++ m ++ post ->
              HeadingWeekMark m ds -> stops isDigit post ->
              (forall x y, m ++ post = x ++ y -> x <> [] -> ~ HeadingMarked y) ->
              candidateOf bodyHtml dayName element
              = Some {| href := link;
                        weekNum := Some (Num (digitsValue ds)) |})
           /\ ((forall x y, before = x ++ y -> ~ HeadingMarked y) ->
               candidateOf bodyHtml dayName element
               = Some {| href := link; weekNum := None |})))
  /\ (forall load,
        load twoWeeksHtml = page twoWeeks ->
        findMenuPdfUrl load twoWeeksHtml 3 (js "mandag") = Some (js "mon2.pdf")
        /\ findMenuPdfUrl load twoWeeksHtml 2 (js "mandag")
           = Some (js "mon.pdf"))
  /\ (forall doc html dayName,
        candidatesOf doc html dayName
        = filterMap (candidateOf (searchedMarkup doc html) dayName)
                    (Cheerio.selectPdfAnchors doc))
  /\ (forall load html dayName element link,
        In element (Cheerio.elements (load html)) ->
        Cheerio.isPdfAnchor element = true ->
        Cheerio.attr element (js "href") = Some link ->
        ForDay dayName element link ->
        (forall x y, link = x ++ y -> ~ UrlMarked y) ->
        let body := searchedMarkup (load html) html in
        let candidates := candidatesOf (load html) html dayName in
        ((forall x y, body <> x ++ Cheerio.outerHtml element ++ y) ->
         In {| href := link; weekNum := None |} candidates)
        /\ (forall before,
              FirstAt before (Cheerio.outerHtml element) body ->
              (forall pre m ds post,
                 before = pre ++ m ++ post ->
                 HeadingWeekMark m ds -> stops isDigit post ->
                 (forall x y, m ++ post = x ++ y -> x <> [] ->
                              ~ HeadingMarked y) ->
                 In {| href := link;
                       weekNum := Some (Num (digitsValue ds)) |} candidates)
              /\ ((forall x y, before = x ++ y -> ~ HeadingMarked y) ->
                  In {| href := link; weekNum := None |} candidates)))
  /\ (forall load,
        load titledHtml = titledPage ->
        candidatesOf (load titledHtml) titledHtml (js "mandag")
        = [ {| href := js "menu.pdf"; weekNum := None |} ]
        /\ findMenuPdfUrl load titledHtml 7 (js "mandag")
           = Some (js "menu.pdf")).
Proof.
  split; [exact candidateOf_by_position |].
  split.
  { intros load Hload. unfold findMenuPdfUrl. rewrite Hload.
    split; vm_compute; reflexivity. }
  split; [exact candidatesOf_searched |].
  split.
  - intros load html dayName element link Hin Hpdf Hattr Hday Hplain
           body candidates.
    destruct (candidateOf_by_position body dayName element link
                Hpdf Hattr Hday Hplain) as [A1 A2].
    assert (K : forall c, candidateOf body dayName element = Some c ->
                          In c candidates).
    { intros c Hc. unfold candidates. rewrite candidatesOf_searched.
      apply (filterMap_complete _ _ element); [| exact Hc].
      unfold Cheerio.selectPdfAnchors. apply filter_In. auto. }
    split; [intros H; apply K, A1, H |].
    intros before Hfirst. destruct (A2 before Hfirst) as [A3 A4].
    split.
    + intros pre m ds post H1 H2 H3 H4. apply K. eapply A3; eauto.
    + intros H. apply K, A4, H.
  - intros load Hload. unfold findMenuPdfUrl. rewrite Hload.
    split; vm_compute; reflexivity.
Qed.

Lemma positional_week_inference_witness :
  candidateOf twoWeeksHtml (js "mandag") (anchor "mon2.pdf" "Mandag")
  = Some {| href := js "mon2.pdf"; weekNum := Some (Num 3) |}
  /\ In {| href := js "menu.pdf"; weekNum := None |}
        (candidatesOf titledPage titledHtml (js "mandag")).
Proof.
  split.
  - pose (before := firstn 56 twoWeeksHtml).
    assert (Hfirst : FirstAt before
                       (Cheerio.outerHtml (anchor "mon2.pdf" "Mandag"))
                       twoWeeksHtml)
      by (apply FirstAt_by_indexOf; vm_compute; reflexivity).
    refine (proj1 (proj2 (proj1 positional_week_inference
                            twoWeeksHtml (js "mandag")
                            (anchor "mon2.pdf" "Mandag") (js "mon2.pdf")
                            eq_refl eq_refl _ _) before Hfirst)
                  (firstn 46 twoWeeksHtml) (js "Uge 3") (js "3") (js "</h2>")
                  eq_refl _ _ _).
    + left. exists [], []. reflexivity.
    + apply url_unmarked_by_exec. vm_compute. reflexivity.
    + exists (js "Uge"), (js " ").
      repeat split; try discriminate; try (left; reflexivity);
        repeat constructor.
    + reflexivity.
    + apply heading_unmarked_after. vm_compute. reflexivity.
  - assert (Hfirst : FirstAt (firstn 0 (searchedMarkup titledPage titledHtml))
                       (Cheerio.outerHtml (anchor "menu.pdf" "Mandag"))
                       (searchedMarkup titledPage titledHtml))
      by (apply FirstAt_by_indexOf; vm_compute; reflexivity).
    refine (proj2 (proj2 (proj1 (proj2 (proj2 (proj2
                     positional_week_inference)))
                     (fun _ => titledPage) titledHtml (js "mandag")
                     (anchor "menu.pdf" "Mandag") (js "menu.pdf")
                     _ eq_refl eq_refl _ _) _ Hfirst) _).
    + right. right. right. right. left. reflexivity.
    + left. exists [], []. reflexivity.
    + apply url_unmarked_by_exec. vm_compute. reflexivity.
    + apply heading_unmarked_by_exec. vm_compute. reflexivity.
Defined.

Lemma filter_none {A : Type} (f : A -> bool) l :
  (forall a, In a l -> f a = false) -> filter f l = [].
Proof.
  induction l as [| a l IH]; intros H; [reflexivity |].
  cbn [filter]. rewrite (H a) by now left.
  apply IH. intros a' Hin. apply H. now right.
Qed.

(** C2.  For an anchor that is kept for the day and whose [href] holds a
    week marker (one of [uge], [week] and [w] in any case, an optional
    underscore, hyphen or white space, digits), the week of the candidate
    is the value of the digits of the first marker of the [href]; it depends
    on the [href] alone, not on the markup of the body or of the anchor.
    A page whose first PDF anchor is [<a href="menu-uge3-mandag.pdf">Mandag</a>]
    resolves to that [href] for week 3 and [mandag], whatever its body and
    the elements around the anchor. *)
Theorem url_week_marker_decides :
  (forall bodyHtml dayName element link pre m ds post,
     Cheerio.attr element (js "href") = Some link ->
     ForDay dayName element link ->
     link = pre ++ m ++ post ->
     UrlWeekMark m ds -> stops isDigit post ->
     (forall p1 p2, pre = p1 ++ p2 -> p2 <> [] ->
                    ~ UrlMarked (p2 ++ m ++ post)) ->
     candidateOf bodyHtml dayName element
     = Some {| href := link; weekNum := Some (Num (digitsValue ds)) |})
  /\ (forall link,
        (exists x y, link = x ++ y /\ UrlMarked y) ->
        exists ds,
          Some1 isDigit ds /\
          forall bodyHtml dayName element,
            Cheerio.attr element (js "href") = Some link ->
            ForDay dayName element link ->
            candidateOf bodyHtml dayName element
            = Some {| href := link; weekNum := Some (Num (digitsValue ds)) |})
  /\ (forall load html body outer before after,
        load html
        = {| Cheerio.bodyHtml := body;
             Cheerio.elements :=
               before
               ++ {| Cheerio.tagName := js "a";
                     Cheerio.attribs := [(js "href", js "menu-uge3-mandag.pdf")];
                     Cheerio.text := js "Mandag";
                     Cheerio.outerHtml := outer |} :: after |} ->
        (forall e, In e before -> Cheerio.isPdfAnchor e = false) ->
        findMenuPdfUrl load html 3 (js "mandag")
        = Some (js "menu-uge3-mandag.pdf")).
Proof.
  split; [exact candidateOf_url |]. split; [exact candidateOf_url_any |].
  intros load html body outer before after Hload Hbefore.
  unfold findMenuPdfUrl, candidatesOf, Cheerio.selectPdfAnchors.
  rewrite Hload. cbn [Cheerio.bodyHtml Cheerio.elements].
  rewrite filter_app.
  replace (filter Cheerio.isPdfAnchor before) with (@nil Cheerio.Element).
  - cbn [app filter]. 
    match goal with |- context [Cheerio.isPdfAnchor ?a] =>
      change (Cheerio.isPdfAnchor a) with true end.
    cbn [filterMap].
    match goal with |- context [candidateOf ?b ?d ?a] =>
      change (candidateOf b d a)
        with (Some {| href := js "menu-uge3-mandag.pdf";
                      weekNum := Some (Num 3) |}) end.
    reflexivity.
  - symmetry. now apply filter_none.
Qed.

Lemma url_week_marker_decides_witness :
  candidateOf (js "<h2>Uge 7</h2>") (js "mandag")
              (anchor "menu-uge3-mandag.pdf" "Mandag")
  = Some {| href := js "menu-uge3-mandag.pdf"; weekNum := Some (Num 3) |}.
Proof.
  refine (proj1 url_week_marker_decides (js "<h2>Uge 7</h2>") (js "mandag")
            (anchor "menu-uge3-mandag.pdf" "Mandag")
            (js "menu-uge3-mandag.pdf")
            (js "menu-") (js "uge3") (js "3") (js "-mandag.pdf")
            eq_refl _ eq_refl _ _ _).
  - left. exists [], []. reflexivity.
  - exists (js "uge"), [].
    repeat split; try discriminate; try (left; reflexivity);
      repeat constructor.
  - reflexivity.
  - apply url_unmarked_prefix. vm_compute. reflexivity.
Defined.

(** C3.  When no candidate has the week asked for: if there is exactly one
    candidate and its week is unknown, the resolver returns its [href],
    whatever the week asked for, and [main] goes on with it; in every other
    case the resolver returns [null] and [main] fails with the message
    [Could not find PDF for <day> in week <N>].  The week of a candidate is
    unknown or an integer. *)
Theorem fallback_or_failure :
  forall load html (target : Target),
    let candidates :=
      candidatesOf (load html) html (danish (selectedDay target)) in
    (forall c, In c candidates -> weekNum c <> Some (Num (weekNumber target))) ->
    (forall c,
       candidates = [c] -> weekNum c = None ->
       findMenuPdfUrl load html (weekNumber target)
                      (danish (selectedDay target)) = Some (href c)
       /\ main_pdfUrl load html target = Return (href c))
    /\ ((forall c, candidates = [c] -> weekNum c <> None) ->
        findMenuPdfUrl load html (weekNumber target)
                       (danish (selectedDay target)) = None
        /\ main_pdfUrl load html target
           = Throw (couldNotFindMessage (danish (selectedDay target))
                                        (weekNumber target)))
    /\ (forall c, In c candidates ->
                  weekNum c = None \/ exists n, weekNum c = Some (Num n)).
Proof.
  intros load html target candidates Hnone.
  pose proof (find_none_iff _ _ Hnone) as Hfind.
  split; [| split].
  - intros c Ec Hc.
    assert (E : findMenuPdfUrl load html (weekNumber target)
                  (danish (selectedDay target)) = Some (href c)).
    { unfold findMenuPdfUrl. fold candidates. rewrite Hfind, Ec, Hc.
      reflexivity. }
    split; [exact E |]. unfold main_pdfUrl. rewrite E.
    rewrite (candidatesOf_truthy (load html) html
               (danish (selectedDay target)) c); [reflexivity |].
    fold candidates. rewrite Ec. now left.
  - intros Hother.
    assert (E : findMenuPdfUrl load html (weekNumber target)
                  (danish (selectedDay target)) = None).
    { unfold findMenuPdfUrl. fold candidates. rewrite Hfind.
      destruct candidates as [| c [| c' cs]] eqn:Ec; try reflexivity.
      destruct (weekNum c) eqn:Ew; [reflexivity |].
      exfalso. now apply (Hother c). }
    split; [exact E |]. unfold main_pdfUrl. rewrite E. reflexivity.
  - intros c Hin. unfold candidates, candidatesOf in Hin.
    apply filterMap_In in Hin. destruct Hin as (a & _ & H).
    eapply candidateOf_known. exact H.
Qed.

Lemma fallback_or_failure_witness :
  findMenuPdfUrl (fun _ => page [anchor "menu.pdf" "Mandag"]) [] 7 (js "mandag")
  = Some (js "menu.pdf")
  /\ main_pdfUrl (fun _ => page [anchor "menu.pdf" "Mandag"]) []
       {| weekNumber := 7;
          selectedDay := {| danish := js "mandag"; english := monday |} |}
     = Return (js "menu.pdf").
Proof.
  refine (proj1 (fallback_or_failure
                   (fun _ => page [anchor "menu.pdf" "Mandag"]) []
                   {| weekNumber := 7;
                      selectedDay := {| danish := js "mandag";
                                        english := monday |} |} _)
                {| href := js "menu.pdf"; weekNum := None |} eq_refl eq_refl).
  intros c Hin. vm_compute in Hin. destruct Hin as [<- | []]. discriminate.
Defined.

End ResolverFacts.

(* ================================================================= *)
(** ** Arguments and overrides *)

Module OverrideFacts.
Import JSString JSRegExp JSDate LunchMenu Spec RegExpFacts TextFacts
  WeekMarkFacts ResolverFacts.

(** *** [getArgValue] *)

Lemma argIndexFrom_absent flag : forall args pos,
  ~ In flag args -> argIndexFrom pos args flag = (-1)%Z.
Proof.
  induction args as [| a args IH]; intros pos H; cbn; [reflexivity |].
  destruct (eqb a flag) eqn:E.
  - apply eqb_eq in E. exfalso. apply H. now left.
  - apply IH. intros Hin. apply H. now right.
Qed.

Lemma argIndexFrom_last flag : forall pre pos,
  ~ In flag pre ->
  argIndexFrom pos (pre ++ [flag]) flag = (pos + Z.of_nat (List.length pre))%Z.
Proof.
  induction pre as [| a pre IH]; intros pos H; cbn [app argIndexFrom].
  - rewrite eqb_refl. cbn. lia.
  - destruct (eqb a flag) eqn:E.
    + apply eqb_eq in E. exfalso. apply H. now left.
    + rewrite IH by (intros Hin; apply H; now right).
      cbn [List.length]. lia.
Qed.

Lemma getArgValue_trailing pre flag : forall flags,
  (forall f, In f flags -> ~ In f pre) ->
  getArgValue (pre ++ [flag]) flags = None.
Proof.
  induction flags as [| f flags IH]; intros H; cbn [getArgValue];
    [reflexivity |].
  assert (Hf : ~ In f pre) by (apply H; now left).
  assert (E : (negb (argIndex (pre ++ [flag]) f =? -1)
               && (argIndex (pre ++ [flag]) f + 1
                   <? Z.of_nat (List.length (pre ++ [flag]))))%Z = false).
  { unfold argIndex. rewrite length_app. cbn [List.length].
    destruct (eqb flag f) eqn:Ef.
    - apply eqb_eq in Ef. subst f. rewrite argIndexFrom_last by exact Hf.
      apply andb_false_iff. right. apply Z.ltb_ge. lia.
    - rewrite argIndexFrom_absent; [reflexivity |].
      intros Hin. apply in_app_or in Hin. destruct Hin as [Hin | [-> | []]].
      + contradiction.
      + rewrite eqb_refl in Ef. discriminate. }
  rewrite E. apply IH. intros f' Hin. apply H. now right.
Qed.

(** *** The weekday table *)

Lemma getDayByName_Some name e :
  getDayByName name = Some e <->
  In e WEEKDAYS
  /\ (toLowerCase name = danish e
      \/ toLowerCase name = DayOfWeek_string (english e)).
Proof.
  unfold getDayByName. split.
  - intros H. apply find_some in H. destruct H as [Hin H].
    split; [exact Hin |]. apply orb_true_iff in H.
    destruct H as [H | H]; apply eqb_eq in H; auto.
  - intros [Hin H].
    cbn in Hin.
    destruct Hin as [<- | [<- | [<- | [<- | [<- | []]]]]];
      destruct H as [-> | ->]; reflexivity.
Qed.

Lemma getDayByName_None name :
  getDayByName name = None <->
  forall e, In e WEEKDAYS ->
            toLowerCase name <> danish e
            /\ toLowerCase name <> DayOfWeek_string (english e).
Proof.
  split.
  - intros H e Hin.
    split; intros E;
      assert (X : getDayByName name = Some e)
        by (apply getDayByName_Some; auto);
      congruence.
  - intros H. destruct (getDayByName name) as [e |] eqn:E; [| reflexivity].
    apply getDayByName_Some in E. destruct E as [Hin [E | E]];
      destruct (H e Hin); contradiction.
Qed.

(** *** Weekends *)

Lemma getCurrentDay_weekend tz now :
  IsWeekend tz now ->
  getCurrentDay tz now = Throw (js "No menu available on weekends").
Proof.
  unfold IsWeekend, localDay, isoWeekday, getCurrentDay, getDay, WeekDay.
  generalize (Day (LocalTime tz now)). intros d H.
  assert (E : ((d + 4) mod 7 = 0 \/ (d + 4) mod 7 = 6)%Z) by lia.
  destruct E as [-> | ->]; reflexivity.
Qed.

Lemma getCurrentDay_weekday tz now :
  ~ IsWeekend tz now ->
  exists e, getCurrentDay tz now = Return e /\ In e WEEKDAYS
            /\ nth_error WEEKDAYS
                 (Z.to_nat (isoWeekday (localDay tz now))) = Some e.
Proof.
  unfold IsWeekend, localDay, isoWeekday, getCurrentDay, getDay, WeekDay.
  generalize (Day (LocalTime tz now)). intros d H.
  assert (E : ((d + 4) mod 7 = 1 /\ (d + 3) mod 7 = 0
               \/ (d + 4) mod 7 = 2 /\ (d + 3) mod 7 = 1
               \/ (d + 4) mod 7 = 3 /\ (d + 3) mod 7 = 2
               \/ (d + 4) mod 7 = 4 /\ (d + 3) mod 7 = 3
               \/ (d + 4) mod 7 = 5 /\ (d + 3) mod 7 = 4)%Z) by lia.
  destruct E as [[-> ->] | [[-> ->] | [[-> ->] | [[-> ->] | [-> ->]]]]];
    cbn; eexists; (split; [reflexivity |]); (split; [| reflexivity]);
    cbn; tauto.
Qed.

(** *** The week override *)

Lemma IntegerLiteral_leading s n : IntegerLiteral s n -> LeadingInteger s n.
Proof.
  intros (ds & Hds & H). exists [], ds, [].
  split; [constructor |]. split; [exact Hds |]. split; [exact I |].
  cbn [app]. rewrite app_nil_r. exact H.
Qed.

Lemma dropWhile_app p ws t :
  All p ws -> stops p t -> dropWhile p (ws ++ t) = t.
Proof.
  intros Hws Ht. induction Hws as [| c ws Hc _ IH]; cbn.
  - destruct t as [| c t]; [reflexivity |]. cbn in *. now rewrite Ht.
  - now rewrite Hc.
Qed.

Lemma takeWhile_app p ds t :
  All p ds -> stops p t -> takeWhile p (ds ++ t) = ds.
Proof.
  intros Hds Ht. induction Hds as [| c ds Hc _ IH]; cbn.
  - destruct t as [| c t]; [reflexivity |]. cbn in *. now rewrite Ht.
  - now rewrite Hc, IH.
Qed.

Lemma digits_read sign ds rest :
  Some1 isDigit ds -> stops isDigit rest ->
  match takeWhile isDigit (ds ++ rest) with
  | [] => None
  | ds => Some (sign * digitsValue ds)%Z
  end = Some (sign * digitsValue ds)%Z.
Proof.
  intros [Hn Ha] Hr. rewrite takeWhile_app by auto.
  destruct ds; [contradiction | reflexivity].
Qed.

Lemma parseInt_leading s n : LeadingInteger s n -> parseInt s = Some n.
Proof.
  intros (ws & ds & rest & Hws & Hds & Hrest & H).
  assert (Hd : exists d ds', ds = d :: ds' /\ isDigit d = true).
  { destruct Hds as [Hn Ha]. destruct Ha as [| d ds' Hd _]; [contradiction |].
    eauto. }
  destruct Hd as (d & ds' & Eds & Hd).
  unfold parseInt, trimStart.
  destruct H as [[-> ->] | [[-> ->] | [-> ->]]].
  - rewrite dropWhile_app;
      [| exact Hws | rewrite Eds; cbn; now apply digit_not_space].
    pose proof (digits_read 1 ds rest Hds Hrest) as R.
    rewrite Eds in *. cbn [app] in *.
    destruct (digit_not_sign _ Hd) as [-> ->].
    rewrite R. f_equal; try lia.
  - rewrite dropWhile_app; [| exact Hws | reflexivity].
    change (Ascii.eqb "+" "-") with false.
    change (Ascii.eqb "+" "+") with true. cbn iota.
    rewrite (digits_read 1 ds rest Hds Hrest). f_equal; try lia.
  - rewrite dropWhile_app; [| exact Hws | reflexivity].
    change (Ascii.eqb "-" "-") with true. cbn iota.
    rewrite (digits_read (-1) ds rest Hds Hrest). f_equal; try lia.
Qed.

Lemma parseInt_sound s n : parseInt s = Some n -> LeadingInteger s n.
Proof.
  unfold parseInt, trimStart.
  pose proof (takeWhile_dropWhile isWhiteSpace s) as Es.
  pose proof (takeWhile_All isWhiteSpace s) as Hws.
  set (ws := takeWhile isWhiteSpace s) in *.
  set (s1 := dropWhile isWhiteSpace s) in *.
  assert (Hfin : forall sign s2,
    match takeWhile isDigit s2 with
    | [] => None
    | ds => Some (sign * digitsValue ds)%Z
    end = Some n ->
    exists ds rest, s2 = ds ++ rest /\ Some1 isDigit ds /\ stops isDigit rest
                    /\ n = (sign * digitsValue ds)%Z).
  { intros sign s2 H.
    exists (takeWhile isDigit s2), (dropWhile isDigit s2).
    split; [now rewrite takeWhile_dropWhile |].
    destruct (takeWhile isDigit s2) as [| d ds] eqn:E; [discriminate |].
    injection H as <-. rewrite <- E.
    repeat split.
    - rewrite E. discriminate.
    - apply takeWhile_All.
    - apply dropWhile_stops. }
  destruct s1 as [| c t] eqn:E1.
  - intros H. apply Hfin in H. destruct H as (ds & rest & E & [Hn _] & _).
    destruct ds; [contradiction | discriminate].
  - destruct (Ascii.eqb c "-") eqn:Em; [| destruct (Ascii.eqb c "+") eqn:Ep].
    + apply Ascii.eqb_eq in Em. subst c. intros H. apply Hfin in H.
      destruct H as (ds & rest & -> & Hds & Hrest & ->).
      exists ws, ds, rest.
      split; [exact Hws |]. split; [exact Hds |]. split; [exact Hrest |].
      right. right. split; [now rewrite <- Es | lia].
    + apply Ascii.eqb_eq in Ep. subst c. intros H. apply Hfin in H.
      destruct H as (ds & rest & -> & Hds & Hrest & ->).
      exists ws, ds, rest.
      split; [exact Hws |]. split; [exact Hds |]. split; [exact Hrest |].
      right. left. split; [now rewrite <- Es | lia].
    + intros H. apply Hfin in H.
      destruct H as (ds & rest & E & Hds & Hrest & ->).
      exists ws, ds, rest.
      split; [exact Hws |]. split; [exact Hds |]. split; [exact Hrest |].
      left. split; [rewrite <- Es; now rewrite E | lia].
Qed.

Lemma main_weekNumber_spec current weekArg :
  truthy weekArg = true ->
  (forall n, LeadingInteger weekArg n -> (1 <= n <= 53)%Z ->
             main_weekNumber current (Some weekArg) = Return n)
  /\ (forall n, LeadingInteger weekArg n -> ~ (1 <= n <= 53)%Z ->
                main_weekNumber current (Some weekArg)
                = Throw (invalidWeekMessage weekArg))
  /\ ((forall n, ~ LeadingInteger weekArg n) ->
      main_weekNumber current (Some weekArg)
      = Throw (invalidWeekMessage weekArg)).
Proof.
  intros Ht. unfold main_weekNumber, parseInt10. rewrite Ht.
  repeat split.
  - intros n H Hn. rewrite (parseInt_leading _ _ H).
    destruct (Z.ltb_spec n 1); [lia |].
    destruct (Z.gtb_spec n 53); [lia |]. reflexivity.
  - intros n H Hn. rewrite (parseInt_leading _ _ H).
    destruct (Z.ltb_spec n 1); [reflexivity |].
    destruct (Z.gtb_spec n 53); [reflexivity | lia].
  - intros H. destruct (parseInt weekArg) as [n |] eqn:E; [| reflexivity].
    apply parseInt_sound in E. now apply H in E.
Qed.

Lemma digits_All s : All isDigit s -> forall c, In c s -> isDigit c = true.
Proof. intros H c Hin. unfold All in H. rewrite Forall_forall in H. auto. Qed.

(** C5, as the specification words it, fails: [3abc] is no integer, yet it
    is accepted as week 3; and the empty string, no integer either, is not
    rejected but taken for an absent override. *)
Lemma week_override_prefix_accepted :
  (forall n, ~ IntegerLiteral (js "3abc") n)
  /\ main_weekNumber 7 (Some (js "3abc")) = Return 3%Z
  /\ (forall n, ~ IntegerLiteral [] n)
  /\ main_weekNumber 7 (Some []) = Return 7%Z.
Proof.
  split; [| split; [reflexivity | split; [| reflexivity]]].
  - intros n (ds & [_ Hds] & [[E _] | [[E _] | [E _]]]);
      try discriminate.
    subst ds. pose proof (digits_All _ Hds "a"%char) as H.
    cbn in H. specialize (H ltac:(tauto)). discriminate.
  - intros n (ds & [Hn _] & [[E _] | [[E _] | [E _]]]);
      try discriminate.
    now subst ds.
Qed.

(** C5 (amended).  A week override that is not the empty string is read as
    [parseInt] reads it: white space is skipped, a sign is read, and the
    digits up to the first code unit that is no digit are the value;
    whatever follows is ignored.  If the value lies in 1..53 it is the
    target week; if it lies outside, or there are no digits to read, [main]
    fails with [Invalid week number: <input>. Must be between 1 and 53.].
    Every decimal numeral is read as its value, so that 1 and 53 are
    accepted and 0 and 54 rejected.  The empty string is taken for an
    absent override and leaves the current week. *)
Theorem week_override_parse :
  (forall current weekArg,
     weekArg <> [] ->
     (forall n, LeadingInteger weekArg n -> (1 <= n <= 53)%Z ->
                main_weekNumber current (Some weekArg) = Return n)
     /\ (forall n, LeadingInteger weekArg n -> ~ (1 <= n <= 53)%Z ->
                   main_weekNumber current (Some weekArg)
                   = Throw (invalidWeekMessage weekArg))
     /\ ((forall n, ~ LeadingInteger weekArg n) ->
         main_weekNumber current (Some weekArg)
         = Throw (invalidWeekMessage weekArg)))
  /\ (forall s n, IntegerLiteral s n -> LeadingInteger s n)
  /\ (forall current,
        main_weekNumber current (Some []) = Return current
        /\ main_weekNumber current None = Return current)
  /\ (forall current,
        main_weekNumber current (Some (js "1")) = Return 1%Z
        /\ main_weekNumber current (Some (js "53")) = Return 53%Z
        /\ main_weekNumber current (Some (js "0"))
           = Throw (invalidWeekMessage (js "0"))
        /\ main_weekNumber current (Some (js "54"))
           = Throw (invalidWeekMessage (js "54"))
        /\ main_weekNumber current (Some (js "abc"))
           = Throw (invalidWeekMessage (js "abc"))).
Proof.
  split; [| split; [exact IntegerLiteral_leading | split]].
  - intros current weekArg Hn. apply main_weekNumber_spec.
    destruct weekArg; [contradiction | reflexivity].
  - intros current. split; reflexivity.
  - intros current. repeat split; reflexivity.
Qed.

Lemma week_override_parse_witness :
  main_weekNumber 7 (Some (js "12")) = Return 12%Z.
Proof.
  refine (proj1 (proj1 week_override_parse 7%Z (js "12") _) 12%Z _ _).
  - discriminate.
  - apply IntegerLiteral_leading. exists (js "12").
    split; [split; [discriminate | repeat constructor] |].
    left. split; reflexivity.
  - lia.
Defined.

Lemma EqualIgnoringCase_table name e :
  In e WEEKDAYS ->
  (EqualIgnoringCase name (danish e) <-> toLowerCase name = danish e)
  /\ (EqualIgnoringCase name (DayOfWeek_string (english e))
      <-> toLowerCase name = DayOfWeek_string (english e)).
Proof.
  unfold EqualIgnoringCase. cbn.
  intros [<- | [<- | [<- | [<- | [<- | []]]]]]; split; reflexivity.
Qed.

(** C6, as the specification words it, fails: the empty string names no
    weekday, yet as a day override it raises no error; on Wednesday 3
    January 2024 the run goes on with Wednesday. *)
Lemma empty_day_override_ignored :
  getDayByName [] = None
  /\ main_selectedDay utcZone (newDate utcZone 2024 0 3 12) (Some [])
     = Return {| danish := js "onsdag"; english := wednesday |}.
Proof. split; vm_compute; reflexivity. Qed.

(** C6 (amended).  [getDayByName] returns the entry of the weekday table
    whose Danish name or English identifier equals the input but for the
    case of the letters, and no entry when there is none: [mandag] and
    [monday] give the Monday entry, [loerdag] (with the Danish letter) gives
    none.  A day override that is not the empty string and names no entry
    makes [main] fail with [Invalid day: <input>. Valid days: ...], which
    lists the two names of every entry.  The empty string is taken for an
    absent override. *)
Theorem getDayByName_lookup :
  (forall name e,
     getDayByName name = Some e <->
     In e WEEKDAYS
     /\ (EqualIgnoringCase name (danish e)
         \/ EqualIgnoringCase name (DayOfWeek_string (english e))))
  /\ (forall name,
        getDayByName name = None <->
        forall e, In e WEEKDAYS ->
                  ~ EqualIgnoringCase name (danish e)
                  /\ ~ EqualIgnoringCase name (DayOfWeek_string (english e)))
  /\ getDayByName (js "mandag")
     = Some {| danish := js "mandag"; english := monday |}
  /\ getDayByName (js "monday")
     = Some {| danish := js "mandag"; english := monday |}
  /\ getDayByName (js "l" ++ ["248"%char] ++ js "rdag") = None
  /\ (forall tz now dayArg,
        dayArg <> [] -> getDayByName dayArg = None ->
        main_selectedDay tz now (Some dayArg)
        = Throw (invalidDayMessage dayArg))
  /\ (forall dayArg e,
        In e WEEKDAYS ->
        Contains (invalidDayMessage dayArg) (danish e)
        /\ Contains (invalidDayMessage dayArg) (DayOfWeek_string (english e)))
  /\ (forall tz now,
        main_selectedDay tz now (Some []) = getCurrentDay tz now).
Proof.
  split; [| split].
  - intros name e. rewrite getDayByName_Some. split.
    + intros [Hin H]. split; [exact Hin |].
      destruct (EqualIgnoringCase_table name e Hin) as [E1 E2].
      rewrite E1, E2. exact H.
    + intros [Hin H]. split; [exact Hin |].
      destruct (EqualIgnoringCase_table name e Hin) as [E1 E2].
      rewrite <- E1, <- E2. exact H.
  - intros name. rewrite getDayByName_None. split; intros H e Hin;
      destruct (EqualIgnoringCase_table name e Hin) as [E1 E2];
      specialize (H e Hin); rewrite ?E1, ?E2 in *; exact H.
  - split; [vm_compute; reflexivity |].
    split; [vm_compute; reflexivity |].
    split; [vm_compute; reflexivity |].
    split; [| split].
    + intros tz now dayArg Hn Hnone. unfold main_selectedDay.
      destruct dayArg; [contradiction |]. cbn [truthy]. rewrite Hnone.
      reflexivity.
    + intros dayArg e H. unfold invalidDayMessage.
      split; apply Contains_app_l, Contains_app_l, Contains_by_includes;
        cbn in H; destruct H as [<- | [<- | [<- | [<- | [<- | []]]]]];
        vm_compute; reflexivity.
    + intros tz now. reflexivity.
Qed.

Lemma getDayByName_lookup_witness :
  main_selectedDay utcZone (newDate utcZone 2024 0 6 12)
                   (Some (js "l" ++ ["248"%char] ++ js "rdag"))
  = Throw (invalidDayMessage (js "l" ++ ["248"%char] ++ js "rdag")).
Proof.
  refine (proj1 (proj2 (proj2 (proj2 (proj2 (proj2 getDayByName_lookup)))))
            utcZone (newDate utcZone 2024 0 6 12)
            (js "l" ++ ["248"%char] ++ js "rdag") _ _).
  - discriminate.
  - vm_compute. reflexivity.
Defined.

(** [main] runs its steps in order: the help flag, the week, the day. *)
Lemma main_target_steps tz today now args :
  main_target tz today now args =
  if argsInclude args (js "--help") || argsInclude args (js "-h")
  then Exit 0%Z
  else
    match main_weekNumber (getWeekNumber tz today)
                          (getArgValue args [js "--week"; js "-w"]) with
    | Throw m => Throw m
    | Exit n => Exit n
    | Return w =>
        match main_selectedDay tz now
                (getArgValue args [js "--day"; js "-d"]) with
        | Throw m => Throw m
        | Exit n => Exit n
        | Return d => Return {| weekNumber := w; selectedDay := d |}
        end
    end.
Proof. reflexivity. Qed.

(** C7.  When [main] comes to choose the weekday on a Saturday or a Sunday
    (in local time) and there is no day override, it fails with
    [No menu available on weekends].  When there is a day override that
    names an entry of the table, that entry is the weekday of the run and
    the check of the weekend is not made, whatever the date. *)
Theorem weekend_without_day_override :
  (forall tz now,
     IsWeekend tz now ->
     main_selectedDay tz now None
     = Throw (js "No menu available on weekends"))
  /\ (forall tz now dayArg e,
        getDayByName dayArg = Some e ->
        main_selectedDay tz now (Some dayArg) = Return e).
Proof.
  split.
  - intros tz now H. cbn [main_selectedDay]. now apply getCurrentDay_weekend.
  - intros tz now dayArg e H. unfold main_selectedDay.
    destruct dayArg as [| c dayArg]; [discriminate |].
    cbn [truthy]. rewrite H. reflexivity.
Qed.

Lemma weekend_without_day_override_witness :
  main_selectedDay cet2024 (newDate cet2024 2024 0 6 12) None
  = Throw (js "No menu available on weekends")
  /\ main_selectedDay cet2024 (newDate cet2024 2024 0 6 12) (Some (js "Fredag"))
     = Return {| danish := js "fredag"; english := friday |}.
Proof.
  split.
  - refine (proj1 weekend_without_day_override cet2024
              (newDate cet2024 2024 0 6 12) _).
    left. vm_compute. reflexivity.
  - refine (proj2 weekend_without_day_override cet2024
              (newDate cet2024 2024 0 6 12) (js "Fredag") _ _).
    vm_compute. reflexivity.
Defined.

(** C10.  When a flag that takes a value stands only at the end of the
    arguments, none of its spellings occurring before, [getArgValue] returns
    [null].  [main] then keeps the current week for [--week] or [-w], and
    asks [getCurrentDay] for the weekday for [--day] or [-d]: no error about
    an invalid week or an invalid day is raised. *)
Theorem trailing_flag_falls_back :
  (forall pre flag flags,
     In flag flags -> (forall f, In f flags -> ~ In f pre) ->
     getArgValue (pre ++ [flag]) flags = None)
  /\ (forall tz today pre flag,
        In flag [js "--week"; js "-w"] ->
        (forall f, In f [js "--week"; js "-w"] -> ~ In f pre) ->
        main_weekNumber (getWeekNumber tz today)
          (getArgValue (pre ++ [flag]) [js "--week"; js "-w"])
        = Return (getWeekNumber tz today))
  /\ (forall tz now pre flag,
        In flag [js "--day"; js "-d"] ->
        (forall f, In f [js "--day"; js "-d"] -> ~ In f pre) ->
        main_selectedDay tz now
          (getArgValue (pre ++ [flag]) [js "--day"; js "-d"])
        = getCurrentDay tz now).
Proof.
  split; [| split].
  - intros pre flag flags _ H. now apply getArgValue_trailing.
  - intros tz today pre flag _ H. rewrite getArgValue_trailing by exact H.
    reflexivity.
  - intros tz now pre flag _ H. rewrite getArgValue_trailing by exact H.
    reflexivity.
Qed.

Lemma trailing_flag_falls_back_witness :
  getArgValue [js "--no-allergies"; js "--week"] [js "--week"; js "-w"] = None
  /\ main_weekNumber (getWeekNumber cet2024 (newDate cet2024 2024 0 3 12))
       (getArgValue [js "--no-allergies"; js "--week"] [js "--week"; js "-w"])
     = Return 1%Z.
Proof.
  assert (H : forall f, In f [js "--week"; js "-w"] ->
                        ~ In f [js "--no-allergies"]).
  { intros f [<- | [<- | []]] [E | []]; discriminate. }
  split.
  - exact (proj1 trailing_flag_falls_back [js "--no-allergies"] (js "--week")
             [js "--week"; js "-w"] (or_introl eq_refl) H).
  - exact (proj1 (proj2 trailing_flag_falls_back) cet2024
             (newDate cet2024 2024 0 3 12) [js "--no-allergies"] (js "--week")
             (or_introl eq_refl) H).
Defined.

End OverrideFacts.

(* ================================================================= *)
(** ** The week number, further *)

Module WeekFacts.
Import JSDate Spec DateFacts.
Open Scope Z_scope.

(** The first Thursday of a year is the one Thursday among its first seven
    days. *)
Lemma firstThursday_multiple y :
  firstThursdayOfYear y mod 7 = 0
  /\ DayFromYear y <= firstThursdayOfYear y <= DayFromYear y + 6.
Proof. unfold firstThursdayOfYear, isoWeekday. lia. Qed.

(** A year has 52 or 53 weeks. *)
Lemma firstThursday_next y :
  firstThursdayOfYear (y + 1) = firstThursdayOfYear y + 364
  \/ firstThursdayOfYear (y + 1) = firstThursdayOfYear y + 371.
Proof.
  pose proof (DayFromYear_step y) as S.
  destruct (firstThursday_multiple y) as [M1 R1].
  destruct (firstThursday_multiple (y + 1)) as [M2 R2].
  destruct (InLeapYear y); lia.
Qed.

Lemma IsoWeek_range d y w : IsoWeek d y w -> 1 <= w <= 53.
Proof.
  unfold IsoWeek, week1Monday. intros [R ->].
  destruct (firstThursday_next y); lia.
Qed.

Lemma thursdayOfWeek_multiple d :
  thursdayOfWeek d mod 7 = 0 /\ d - 3 <= thursdayOfWeek d <= d + 3.
Proof. unfold thursdayOfWeek, isoWeekday. lia. Qed.

(** For a steady date the week is a function of the local calendar day. *)
Lemma getWeekNumber_isoWeekOfDay tz date :
  steadyFor tz date -> getWeekNumber tz date = isoWeekOfDay (localDay tz date).
Proof.
  unfold steadyFor, YearFromTime. intros (H1 & H2 & H3).
  rewrite Day_MakeDate in * by apply TimeWithinDay_range.
  pose proof (getWeekNumber_steady tz date H1 H2 H3) as [R E].
  rewrite E. unfold isoWeekOfDay, localDay, week1Monday.
  set (d := Day (LocalTime tz date)) in *.
  destruct (thursdayOfWeek_multiple d) as [M B].
  set (th := thursdayOfWeek d) in *.
  destruct (firstThursday_multiple (YearFromDay th)) as [M' _].
  lia.
Qed.

Lemma isoWeekOfDay_next d :
  isoWeekOfDay (d + 7) = isoWeekOfDay d + 1
  \/ (isoWeekOfDay (d + 7) = 1 /\ 52 <= isoWeekOfDay d).
Proof.
  unfold isoWeekOfDay.
  assert (E : thursdayOfWeek (d + 7) = thursdayOfWeek d + 7)
    by (unfold thursdayOfWeek, isoWeekday; lia).
  rewrite E. cbn zeta.
  destruct (thursdayOfWeek_multiple d) as [M _].
  set (th := thursdayOfWeek d) in *. clearbody th.
  pose proof (YearFromDay_spec th) as Y.
  set (y := YearFromDay th) in *.
  destruct (firstThursday_multiple y) as [M1 R1].
  destruct (firstThursday_multiple (y + 1)) as [M2 R2].
  pose proof (firstThursday_next y) as N.
  destruct (Z_lt_le_dec (th + 7) (DayFromYear (y + 1))) as [L | G].
  - left. rewrite (YearFromDay_unique (th + 7) y) by lia. lia.
  - right. assert (Y2 : YearFromDay (th + 7) = y + 1).
    { apply YearFromDay_unique.
      pose proof (DayFromYear_step (y + 1)) as S.
      replace (y + 1 + 1) with (y + 2) in * by lia.
      destruct (InLeapYear (y + 1)); lia. }
    rewrite Y2. split; lia.
Qed.

Lemma MakeDay_december_28 y : MakeDay y 11 28 = DayFromYear (y + 1) - 4.
Proof.
  unfold MakeDay. change (11 / 12) with 0. change (11 mod 12) with 11.
  replace (y + 0) with y by lia.
  pose proof (DayFromYear_step y) as S.
  destruct (InLeapYear y);
    [change (DaysBeforeMonth true 11) with 335
    | change (DaysBeforeMonth false 11) with 334]; lia.
Qed.

Lemma isoWeekOfDay_january_4 y : isoWeekOfDay (MakeDay y 0 4) = 1.
Proof.
  rewrite MakeDay_january. unfold isoWeekOfDay.
  destruct (thursdayOfWeek_multiple (DayFromYear y + 4 - 1)) as [M B].
  set (th := thursdayOfWeek (DayFromYear y + 4 - 1)) in *. clearbody th.
  pose proof (DayFromYear_step y) as S.
  assert (Y : YearFromDay th = y)
    by (apply YearFromDay_unique; destruct (InLeapYear y); lia).
  cbn zeta. rewrite Y.
  destruct (firstThursday_multiple y) as [M1 R1]. lia.
Qed.

Lemma isoWeekOfDay_december_28 y : 52 <= isoWeekOfDay (MakeDay y 11 28) <= 53.
Proof.
  rewrite MakeDay_december_28. unfold isoWeekOfDay.
  destruct (thursdayOfWeek_multiple (DayFromYear (y + 1) - 4)) as [M B].
  set (th := thursdayOfWeek (DayFromYear (y + 1) - 4)) in *. clearbody th.
  pose proof (DayFromYear_step y) as S.
  assert (Y : YearFromDay th = y)
    by (apply YearFromDay_unique; destruct (InLeapYear y); lia).
  cbn zeta. rewrite Y.
  destruct (firstThursday_multiple y) as [M1 R1].
  destruct (InLeapYear y); lia.
Qed.

Lemma getWeekNumber_bounds tz date :
  steadyFor tz date -> 1 <= getWeekNumber tz date <= 53.
Proof.
  intros H. destruct (getWeekNumber_IsoWeek tz date H) as [y Hy].
  eapply IsoWeek_range; eauto.
Qed.

Ltac steady_by_computation :=
  unfold steadyFor, roundTrips; vm_compute; repeat split; congruence.

(** X1.  Whenever the zone is steady for the date, [getWeekNumber] returns a
    week from 1 to 53. *)
Theorem getWeekNumber_range tz date :
  steadyFor tz date -> 1 <= getWeekNumber tz date <= 53.
Proof. exact (getWeekNumber_bounds tz date). Qed.

Lemma getWeekNumber_range_witness :
  1 <= getWeekNumber cet2024 (newDate cet2024 2024 6 1 12) <= 53.
Proof. apply getWeekNumber_range. steady_by_computation. Defined.

(** X2.  Two dates whose local calendar days lie in the same week, Monday to
    Sunday, get the same week from [getWeekNumber], whatever their times of
    day, when the zone is steady for both. *)
Theorem getWeekNumber_same_week tz date1 date2 :
  steadyFor tz date1 -> steadyFor tz date2 ->
  mondayOfWeek (localDay tz date1) = mondayOfWeek (localDay tz date2) ->
  getWeekNumber tz date1 = getWeekNumber tz date2.
Proof.
  intros S1 S2 E.
  rewrite (getWeekNumber_isoWeekOfDay tz date1 S1).
  rewrite (getWeekNumber_isoWeekOfDay tz date2 S2).
  unfold isoWeekOfDay, thursdayOfWeek. unfold mondayOfWeek in E.
  rewrite E. reflexivity.
Qed.

Lemma getWeekNumber_same_week_witness :
  getWeekNumber cet2024 (newDate cet2024 2024 6 1 0)
  = getWeekNumber cet2024 (newDate cet2024 2024 6 7 23).
Proof.
  apply getWeekNumber_same_week.
  - steady_by_computation.
  - steady_by_computation.
  - vm_compute. reflexivity.
Defined.

(** X3.  Seven local calendar days later the week is one more, or it is 1
    again after week 52 or 53, when the zone is steady for both dates. *)
Theorem getWeekNumber_next_week tz date1 date2 :
  steadyFor tz date1 -> steadyFor tz date2 ->
  localDay tz date2 = localDay tz date1 + 7 ->
  getWeekNumber tz date2 = getWeekNumber tz date1 + 1
  \/ (getWeekNumber tz date2 = 1 /\ 52 <= getWeekNumber tz date1).
Proof.
  intros S1 S2 E.
  rewrite (getWeekNumber_isoWeekOfDay tz date1 S1).
  rewrite (getWeekNumber_isoWeekOfDay tz date2 S2).
  rewrite E. apply isoWeekOfDay_next.
Qed.

Lemma getWeekNumber_next_week_witness :
  getWeekNumber cet2024 (newDate cet2024 2024 11 30 12)
  = getWeekNumber cet2024 (newDate cet2024 2024 11 23 12) + 1
  \/ (getWeekNumber cet2024 (newDate cet2024 2024 11 30 12) = 1
      /\ 52 <= getWeekNumber cet2024 (newDate cet2024 2024 11 23 12)).
Proof.
  apply getWeekNumber_next_week.
  - steady_by_computation.
  - steady_by_computation.
  - vm_compute. reflexivity.
Defined.

(** X4.  When the zone is steady for the date, [getWeekNumber] gives week 1
    on every 4 January and week 52 or 53 on every 28 December. *)
Theorem getWeekNumber_year_ends tz date y :
  steadyFor tz date ->
  (localDay tz date = MakeDay y 0 4 -> getWeekNumber tz date = 1)
  /\ (localDay tz date = MakeDay y 11 28 -> 52 <= getWeekNumber tz date <= 53).
Proof.
  intros S. rewrite (getWeekNumber_isoWeekOfDay tz date S).
  split; intros ->.
  - apply isoWeekOfDay_january_4.
  - apply isoWeekOfDay_december_28.
Qed.

Lemma getWeekNumber_year_ends_witness :
  getWeekNumber cet2024 (newDate cet2024 2027 0 4 9) = 1
  /\ 52 <= getWeekNumber cet2024 (newDate cet2024 2024 11 28 9) <= 53.
Proof.
  split.
  - refine (proj1 (getWeekNumber_year_ends cet2024 _ 2027 _) _).
    + steady_by_computation.
    + vm_compute. reflexivity.
  - refine (proj2 (getWeekNumber_year_ends cet2024 _ 2024 _) _).
    + steady_by_computation.
    + vm_compute. reflexivity.
Defined.

End WeekFacts.

(* ================================================================= *)
(** ** Arguments, further *)

Module ArgumentFacts.
Import JSString JSDate LunchMenu Spec TextFacts OverrideFacts.

Lemma argIndexFrom_first flag post : forall pre pos,
  ~ In flag pre ->
  argIndexFrom pos (pre ++ flag :: post) flag
  = (pos + Z.of_nat (List.length pre))%Z.
Proof.
  induction pre as [| a pre IH]; intros pos H; cbn [app argIndexFrom].
  - rewrite eqb_refl. cbn. lia.
  - destruct (eqb a flag) eqn:E.
    + apply eqb_eq in E. exfalso. apply H. now left.
    + rewrite IH by (intros Hin; apply H; now right).
      cbn [List.length]. lia.
Qed.

Lemma first_occurrence (flag : jsstring) : forall args,
  In flag args ->
  exists pre post, args = pre ++ flag :: post /\ ~ In flag pre.
Proof.
  induction args as [| a args IH]; intros H; [destruct H |].
  destruct (eqb a flag) eqn:E.
  - apply eqb_eq in E. subst a. exists [], args. split; [reflexivity | intros []].
  - apply eqb_neq in E. destruct H as [H | H]; [contradiction |].
    destruct (IH H) as (pre & post & -> & Hn).
    exists (a :: pre), post. split; [reflexivity |].
    intros [Ha | Hin]; [congruence | contradiction].
Qed.

(** A flag has no value, or it has one. *)
Lemma flag_cases args flag :
  NoValue args flag \/ exists v, ValueAfterFirst args flag v.
Proof.
  destruct (existsb (fun a => eqb a flag) args) eqn:E.
  - apply argsInclude_In in E. destruct (first_occurrence _ _ E)
      as (pre & [| v post] & -> & Hn).
    + left. right. exists pre. auto.
    + right. exists v, pre, post. auto.
  - left. left. intros Hin. apply argsInclude_In in Hin.
    unfold argsInclude in Hin. congruence.
Qed.

Lemma getArgValue_value args flag flags v :
  ValueAfterFirst args flag v -> getArgValue args (flag :: flags) = Some v.
Proof.
  intros (pre & post & -> & Hn). cbn [getArgValue]. unfold argIndex.
  rewrite argIndexFrom_first by exact Hn.
  rewrite length_app. cbn [List.length].
  replace (negb (0 + Z.of_nat (List.length pre) =? -1)%Z
           && (0 + Z.of_nat (List.length pre) + 1
               <? Z.of_nat (List.length pre + S (S (List.length post))))%Z)
    with true.
  - replace (Z.to_nat (0 + Z.of_nat (List.length pre) + 1))
      with (List.length pre + 1)%nat by lia.
    rewrite nth_error_app2 by lia.
    replace (List.length pre + 1 - List.length pre)%nat with 1%nat by lia.
    reflexivity.
  - symmetry. apply andb_true_iff. split.
    + apply negb_true_iff. apply Z.eqb_neq. lia.
    + apply Z.ltb_lt. lia.
Qed.

Lemma getArgValue_skip args flag flags :
  NoValue args flag -> getArgValue args (flag :: flags) = getArgValue args flags.
Proof.
  intros H. cbn [getArgValue]. unfold argIndex.
  destruct H as [H | (pre & -> & Hn)].
  - rewrite argIndexFrom_absent by exact H. reflexivity.
  - rewrite argIndexFrom_last by exact Hn. rewrite length_app. cbn [List.length].
    replace (0 + Z.of_nat (List.length pre) + 1
             <? Z.of_nat (List.length pre + 1))%Z with false.
    + rewrite andb_false_r. reflexivity.
    + symmetry. apply Z.ltb_ge. lia.
Qed.

Lemma getArgValue_none args : forall flags,
  getArgValue args flags = None <-> forall f, In f flags -> NoValue args f.
Proof.
  induction flags as [| f flags IH].
  - split; [intros _ f [] | reflexivity].
  - destruct (flag_cases args f) as [N | [v V]].
    + rewrite getArgValue_skip by exact N. rewrite IH. split.
      * intros H g [<- | Hg]; auto.
      * intros H g Hg. apply H. now right.
    + rewrite (getArgValue_value _ _ _ _ V). split; [discriminate |].
      intros H. exfalso.
      assert (X : getArgValue args [f] = Some v)
        by (apply getArgValue_value; exact V).
      rewrite getArgValue_skip in X by (apply H; now left).
      discriminate.
Qed.

Lemma getArgValue_some args v : forall flags,
  getArgValue args flags = Some v <->
  exists skipped flag later,
    flags = skipped ++ flag :: later
    /\ (forall f, In f skipped -> NoValue args f)
    /\ ValueAfterFirst args flag v.
Proof.
  induction flags as [| f flags IH].
  - split; [discriminate |].
    intros (sk & fl & la & E & _). destruct sk; discriminate.
  - destruct (flag_cases args f) as [N | [w V]].
    + rewrite getArgValue_skip by exact N. rewrite IH. split.
      * intros (sk & fl & la & -> & Hs & Hv).
        exists (f :: sk), fl, la. split; [reflexivity |].
        split; [| exact Hv]. intros g [<- | Hg]; auto.
      * intros (sk & fl & la & E & Hs & Hv).
        destruct sk as [| g sk]; cbn in E; injection E as -> ->.
        -- exfalso.
           assert (X : getArgValue args [fl] = Some v)
             by (apply getArgValue_value; exact Hv).
           rewrite getArgValue_skip in X by exact N. discriminate.
        -- exists sk, fl, la. split; [reflexivity |].
           split; [| exact Hv]. intros h Hh. apply Hs. now right.
    + rewrite (getArgValue_value _ _ _ _ V). split.
      * intros [= ->]. exists [], f, flags.
        split; [reflexivity |]. split; [intros _ [] | exact V].
      * intros (sk & fl & la & E & Hs & Hv).
        destruct sk as [| g sk]; cbn in E; injection E as -> ->.
        -- rewrite <- (getArgValue_value args fl [] w V).
           rewrite <- (getArgValue_value args fl [] v Hv). reflexivity.
        -- exfalso.
           assert (X : getArgValue args [g] = Some w)
             by (apply getArgValue_value; exact V).
           rewrite getArgValue_skip in X by (apply Hs; now left).
           discriminate.
Qed.

(** X5.  [getArgValue] returns the argument that follows the first
    occurrence of the first flag, in the order of [flags], whose first
    occurrence is not the last argument; flags before it in [flags] are
    absent or occur first at the very end.  It returns [null] exactly when
    every flag is absent or occurs first at the very end. *)
Theorem getArgValue_first_flag_with_value :
  (forall args flags v,
     getArgValue args flags = Some v <->
     exists skipped flag later,
       flags = skipped ++ flag :: later
       /\ (forall f, In f skipped -> NoValue args f)
       /\ ValueAfterFirst args flag v)
  /\ (forall args flags,
        getArgValue args flags = None <->
        forall f, In f flags -> NoValue args f).
Proof.
  split.
  - intros args flags v. apply getArgValue_some.
  - intros args flags. apply getArgValue_none.
Qed.

Lemma getArgValue_first_flag_with_value_witness :
  getArgValue [js "-w"; js "7"; js "--week"; js "3"; js "--week"; js "9"]
              [js "--week"; js "-w"]
  = Some (js "3").
Proof.
  apply (proj1 getArgValue_first_flag_with_value).
  exists [], (js "--week"), [js "-w"].
  split; [reflexivity |]. split; [intros f [] |].
  exists [js "-w"; js "7"], [js "--week"; js "9"].
  split; [reflexivity |].
  intros [H | [H | []]]; discriminate H.
Defined.

End ArgumentFacts.

(* ================================================================= *)
(** ** The target of a run *)

Module TargetFacts.
Import JSString JSDate LunchMenu Spec DateFacts TextFacts OverrideFacts
  WeekFacts ArgumentFacts.

Lemma getCurrentDay_closed tz now :
  getCurrentDay tz now =
  match nth_error WEEKDAYS (Z.to_nat (isoWeekday (localDay tz now))) with
  | Some e => Return e
  | None => Throw (js "No menu available on weekends")
  end.
Proof.
  unfold localDay, isoWeekday, getCurrentDay, getDay, WeekDay.
  generalize (Day (LocalTime tz now)). intros d.
  assert (E : ((d + 4) mod 7 = 1 /\ (d + 3) mod 7 = 0
               \/ (d + 4) mod 7 = 2 /\ (d + 3) mod 7 = 1
               \/ (d + 4) mod 7 = 3 /\ (d + 3) mod 7 = 2
               \/ (d + 4) mod 7 = 4 /\ (d + 3) mod 7 = 3
               \/ (d + 4) mod 7 = 5 /\ (d + 3) mod 7 = 4
               \/ (d + 4) mod 7 = 6 /\ (d + 3) mod 7 = 5
               \/ (d + 4) mod 7 = 0 /\ (d + 3) mod 7 = 6)%Z) by lia.
  destruct E as [[-> ->] | [[-> ->] | [[-> ->] | [[-> ->] | [[-> ->]
                | [[-> ->] | [-> ->]]]]]]]; reflexivity.
Qed.

Lemma getCurrentDay_table tz now e :
  getCurrentDay tz now = Return e -> In e WEEKDAYS.
Proof.
  rewrite getCurrentDay_closed.
  destruct (nth_error WEEKDAYS _) as [x |] eqn:E; [| discriminate].
  intros [= <-]. eapply nth_error_In; eauto.
Qed.

Lemma getCurrentDay_no_exit tz now n : getCurrentDay tz now <> Exit n.
Proof.
  rewrite getCurrentDay_closed.
  destruct (nth_error WEEKDAYS _); discriminate.
Qed.

Lemma main_weekNumber_range current weekArg w :
  main_weekNumber current weekArg = Return w ->
  w = current \/ (1 <= w <= 53)%Z.
Proof.
  unfold main_weekNumber. destruct weekArg as [a |]; [| intros [= <-]; now left].
  destruct (truthy a); [| intros [= <-]; now left].
  destruct (parseInt10 (Some a)) as [| z]; [discriminate |].
  destruct ((z <? 1)%Z || (z >? 53)%Z) eqn:E; [discriminate |].
  intros [= <-]. right. apply orb_false_iff in E. lia.
Qed.

Lemma main_weekNumber_no_exit current weekArg n :
  main_weekNumber current weekArg <> Exit n.
Proof.
  unfold main_weekNumber. destruct weekArg as [a |]; [| discriminate].
  destruct (truthy a); [| discriminate].
  destruct (parseInt10 (Some a)) as [| z]; [discriminate |].
  destruct ((z <? 1)%Z || (z >? 53)%Z); discriminate.
Qed.

Lemma main_selectedDay_table tz now dayArg e :
  main_selectedDay tz now dayArg = Return e -> In e WEEKDAYS.
Proof.
  unfold main_selectedDay.
  destruct dayArg as [a |]; [| apply getCurrentDay_table].
  destruct (truthy a); [| apply getCurrentDay_table].
  destruct (getDayByName a) as [x |] eqn:E; [| discriminate].
  intros [= <-]. apply getDayByName_Some in E. tauto.
Qed.

Lemma main_selectedDay_no_exit tz now dayArg n :
  main_selectedDay tz now dayArg <> Exit n.
Proof.
  unfold main_selectedDay.
  destruct dayArg as [a |]; [| apply getCurrentDay_no_exit].
  destruct (truthy a); [| apply getCurrentDay_no_exit].
  destruct (getDayByName a); discriminate.
Qed.

(** X6.  [getCurrentDay] returns the entry of [WEEKDAYS] at the place of the
    local weekday counted from Monday, and throws on Saturday and Sunday;
    the index it computes from [getDay] never falls outside the table. *)
Theorem getCurrentDay_by_weekday tz now :
  getCurrentDay tz now =
  match nth_error WEEKDAYS (Z.to_nat (isoWeekday (localDay tz now))) with
  | Some e => Return e
  | None => Throw (js "No menu available on weekends")
  end.
Proof. apply getCurrentDay_closed. Qed.

(** X7.  Giving the name of today's entry as the day, Danish or English and
    in whatever case, selects the day that is selected without a day. *)
Theorem day_override_todays_name tz now e name :
  getCurrentDay tz now = Return e ->
  EqualIgnoringCase name (danish e)
  \/ EqualIgnoringCase name (DayOfWeek_string (english e)) ->
  main_selectedDay tz now (Some name) = main_selectedDay tz now None.
Proof.
  intros C N. pose proof (getCurrentDay_table _ _ _ C) as Hin.
  cbn [main_selectedDay]. rewrite C.
  assert (G : getDayByName name = Some e).
  { apply getDayByName_Some. split; [exact Hin |].
    destruct (EqualIgnoringCase_table name e Hin) as [A B]. tauto. }
  assert (T : truthy name = true).
  { destruct name; [| reflexivity]. exfalso.
    unfold EqualIgnoringCase in N. cbn in Hin.
    destruct Hin as [<- | [<- | [<- | [<- | [<- | []]]]]];
      destruct N as [N | N]; discriminate N. }
  rewrite T, G. reflexivity.
Qed.

Lemma day_override_todays_name_witness :
  main_selectedDay cet2024 (newDate cet2024 2024 6 1 12) (Some (js "MONDAY"))
  = main_selectedDay cet2024 (newDate cet2024 2024 6 1 12) None.
Proof.
  apply (day_override_todays_name cet2024 (newDate cet2024 2024 6 1 12)
           {| danish := js "mandag"; english := monday |}).
  - vm_compute. reflexivity.
  - right. vm_compute. reflexivity.
Defined.

(** X8.  A target that [main] arrives at has a day of [WEEKDAYS], whatever
    the zone, and, when the zone is steady for the date of the run, a week
    from 1 to 53, with or without overrides. *)
Theorem main_target_in_range tz today now args t :
  main_target tz today now args = Return t ->
  In (selectedDay t) WEEKDAYS
  /\ (steadyFor tz today -> (1 <= weekNumber t <= 53)%Z).
Proof.
  rewrite main_target_steps.
  destruct (argsInclude args (js "--help") || argsInclude args (js "-h"));
    [discriminate |].
  destruct (main_weekNumber _ _) as [w | |] eqn:W; try discriminate.
  destruct (main_selectedDay _ _ _) as [d | |] eqn:D; try discriminate.
  intros [= <-]. cbn [weekNumber selectedDay]. split.
  - eapply main_selectedDay_table; eauto.
  - intros S.
    apply main_weekNumber_range in W. destruct W as [-> | W]; [| exact W].
    apply getWeekNumber_bounds. exact S.
Qed.

Lemma main_target_in_range_witness :
  (In {| danish := js "fredag"; english := friday |} WEEKDAYS
   /\ (1 <= 27 <= 53)%Z)
  /\ In {| danish := js "mandag"; english := monday |} WEEKDAYS.
Proof.
  assert (E : main_target cet2024 (newDate cet2024 2024 6 1 12)
                (newDate cet2024 2024 6 1 12) [js "--day"; js "Friday"]
              = Return {| weekNumber := 27;
                          selectedDay :=
                            {| danish := js "fredag"; english := friday |} |})
    by (vm_compute; reflexivity).
  assert (E' : main_target aet2024 (newDate aet2024 2024 6 1 12)
                 (newDate aet2024 2024 6 1 12) []
               = Return {| weekNumber := 28;
                           selectedDay :=
                             {| danish := js "mandag"; english := monday |} |})
    by (vm_compute; reflexivity).
  split.
  - destruct (main_target_in_range _ _ _ _ _ E) as [A B].
    split; [exact A |]. apply B.
    unfold steadyFor, roundTrips. vm_compute. repeat split; congruence.
  - exact (proj1 (main_target_in_range _ _ _ _ _ E')).
Defined.

(** X9.  [main] ends the process before choosing a target exactly when
    [--help] or [-h] is among the arguments, and then with status 0; the
    week and the day steps throw or return. *)
Theorem main_target_exit tz today now args n :
  main_target tz today now args = Exit n <->
  n = 0%Z /\ (In (js "--help") args \/ In (js "-h") args).
Proof.
  rewrite main_target_steps.
  rewrite <- !argsInclude_In, <- orb_true_iff.
  destruct (argsInclude args (js "--help") || argsInclude args (js "-h")).
  - split; [intros [= <-]; auto | intros [-> _]; reflexivity].
  - split; [| intros [_ ?]; discriminate].
    destruct (main_weekNumber _ _) as [w | |] eqn:W;
      [| discriminate | exfalso; eapply main_weekNumber_no_exit; eauto].
    destruct (main_selectedDay _ _ _) as [d | |] eqn:D;
      [discriminate | discriminate |
       exfalso; eapply main_selectedDay_no_exit; eauto].
Qed.

Lemma main_target_exit_witness :
  main_target cet2024 (newDate cet2024 2024 6 6 12)
              (newDate cet2024 2024 6 6 12)
              [js "--week"; js "99"; js "-h"]
  = Exit 0%Z.
Proof.
  apply main_target_exit. split; [reflexivity |].
  right. right. right. left. reflexivity.
Defined.

(** X10.  When none of [--week], [-w], [--day] and [-d] is followed by a
    value, [main] arrives at the target the earlier revision of the script,
    which knows no overrides, arrives at. *)
Theorem main_target_without_overrides tz today now args :
  (forall f, In f [js "--week"; js "-w"; js "--day"; js "-d"] ->
             NoValue args f) ->
  main_target tz today now args = LunchMenuEarlier.main_target tz today now args.
Proof.
  intros H. rewrite main_target_steps. unfold LunchMenuEarlier.main_target.
  assert (W : getArgValue args [js "--week"; js "-w"] = None).
  { apply getArgValue_none. intros f Hf. apply H. cbn in *. tauto. }
  assert (D : getArgValue args [js "--day"; js "-d"] = None).
  { apply getArgValue_none. intros f Hf. apply H. cbn in *. tauto. }
  rewrite W, D. reflexivity.
Qed.

Lemma main_target_without_overrides_witness :
  main_target cet2024 (newDate cet2024 2024 6 1 12)
              (newDate cet2024 2024 6 1 12) [js "--no-allergies"; js "--day"]
  = LunchMenuEarlier.main_target cet2024 (newDate cet2024 2024 6 1 12)
      (newDate cet2024 2024 6 1 12) [js "--no-allergies"; js "--day"].
Proof.
  apply main_target_without_overrides.
  intros f [<- | [<- | [<- | [<- | []]]]].
  - left. intros [H | [H | []]]; discriminate H.
  - left. intros [H | [H | []]]; discriminate H.
  - right. exists [js "--no-allergies"]. split; [reflexivity |].
    intros [H | []]; discriminate H.
  - left. intros [H | [H | []]]; discriminate H.
Defined.

End TargetFacts.

(* ================================================================= *)
(** ** The link resolver, further *)

Module SelectionFacts.
Import JSString JSRegExp JSDate LunchMenu Spec TextFacts ResolverFacts.

(** A candidate carries the [href] of its anchor, and the anchor is for the
    day. *)
Lemma candidateOf_source bodyHtml dayName element c :
  candidateOf bodyHtml dayName element = Some c ->
  Cheerio.attr element (js "href") = Some (href c)
  /\ ForDay dayName element (href c).
Proof.
  unfold candidateOf.
  destruct (Cheerio.attr element (js "href")) as [link |]; [| discriminate].
  destruct (truthy link); cbn [negb]; [| discriminate].
  destruct (includes (toLowerCase (Cheerio.text element)) (toLowerCase dayName))
    eqn:I1; cbn [negb andb].
  - intros H.
    assert (E : href c = link).
    { destruct (jsmatch link urlWeekPattern); [injection H as <-; reflexivity |].
      destruct (indexOf bodyHtml (Cheerio.outerHtml element) =? -1)%Z;
        injection H as <-; reflexivity. }
    rewrite E. split; [reflexivity |]. left. apply Contains_by_includes. exact I1.
  - destruct (includes (toLowerCase link) (toLowerCase dayName)) eqn:I2;
      cbn [negb]; [| discriminate].
    intros H.
    assert (E : href c = link).
    { destruct (jsmatch link urlWeekPattern); [injection H as <-; reflexivity |].
      destruct (indexOf bodyHtml (Cheerio.outerHtml element) =? -1)%Z;
        injection H as <-; reflexivity. }
    rewrite E. split; [reflexivity |]. right. apply Contains_by_includes. exact I2.
Qed.

Lemma candidatesOf_source doc html dayName c :
  In c (candidatesOf doc html dayName) ->
  exists element,
    In element (Cheerio.elements doc)
    /\ Cheerio.isPdfAnchor element = true
    /\ Cheerio.attr element (js "href") = Some (href c)
    /\ ForDay dayName element (href c).
Proof.
  unfold candidatesOf, Cheerio.selectPdfAnchors. intros H.
  apply filterMap_In in H. destruct H as (e & Hin & Hc).
  apply filter_In in Hin. destruct Hin as [Hin Hp].
  apply candidateOf_source in Hc. exists e. tauto.
Qed.

(** What [findMenuPdfUrl] returns is the [href] of a candidate of the
    week, or of the only candidate when it has no week. *)
Lemma findMenuPdfUrl_choice load html weekNumber dayName url :
  findMenuPdfUrl load html weekNumber dayName = Some url ->
  exists c,
    In c (candidatesOf (load html) html dayName) /\ href c = url
    /\ (weekNum c = Some (Num weekNumber)
        \/ candidatesOf (load html) html dayName = [c] /\ weekNum c = None).
Proof.
  unfold findMenuPdfUrl.
  destruct (find (weekNumIs weekNumber) _) as [m |] eqn:F.
  - intros [= <-]. apply find_some in F. destruct F as [Hin W].
    exists m. split; [exact Hin |]. split; [reflexivity |]. left.
    unfold weekNumIs in W. destruct (weekNum m) as [[| n] |]; try discriminate.
    apply Z.eqb_eq in W. now subst.
  - destruct (candidatesOf (load html) html dayName) as [| c [| c' cs]];
      try discriminate.
    destruct (weekNum c) eqn:W; [discriminate |].
    intros [= <-]. exists c. split; [now left |]. split; [reflexivity |].
    right. auto.
Qed.

Lemma pdf_anchor_suffix element link :
  Cheerio.isPdfAnchor element = true ->
  Cheerio.attr element (js "href") = Some link ->
  endsWith link (js ".pdf") = true.
Proof.
  unfold Cheerio.isPdfAnchor. intros H E. rewrite E in H.
  apply andb_true_iff in H. tauto.
Qed.

Lemma filterMap_none {A B : Type} (f : A -> option B) l :
  (forall a, In a l -> f a = None) -> filterMap f l = [].
Proof.
  induction l as [| a l IH]; intros H; [reflexivity |].
  cbn. rewrite (H a (or_introl eq_refl)). apply IH.
  intros b Hb. apply H. now right.
Qed.

(** An anchor with an [href] that is for the day gives a candidate with
    that [href]. *)
Lemma candidateOf_complete bodyHtml dayName element link :
  Cheerio.isPdfAnchor element = true ->
  Cheerio.attr element (js "href") = Some link ->
  ForDay dayName element link ->
  exists c, candidateOf bodyHtml dayName element = Some c /\ href c = link.
Proof.
  intros Hp Ha Hd.
  destruct (isPdfAnchor_href element Hp) as (l & Hl & T).
  rewrite Ha in Hl. injection Hl as <-.
  unfold candidateOf. rewrite Ha, T. cbn [negb].
  rewrite (ForDay_check dayName element link Hd).
  destruct (jsmatch link urlWeekPattern); [eexists; split; reflexivity |].
  destruct (indexOf bodyHtml (Cheerio.outerHtml element) =? -1)%Z;
    eexists; split; reflexivity.
Qed.

Lemma findMenuPdfUrl_suffix load html weekNumber dayName url :
  findMenuPdfUrl load html weekNumber dayName = Some url ->
  url <> [] /\ endsWith url (js ".pdf") = true.
Proof.
  intros H. apply findMenuPdfUrl_choice in H.
  destruct H as (c & Hin & <- & _).
  pose proof (candidatesOf_truthy _ _ _ _ Hin) as T.
  apply candidatesOf_source in Hin. destruct Hin as (e & He & Hp & Ha & Hd).
  split; [intros E; rewrite E in T; discriminate |].
  eapply pdf_anchor_suffix; eauto.
Qed.

Lemma main_pdfUrl_closed load html target :
  main_pdfUrl load html target =
  match findMenuPdfUrl load html (weekNumber target)
                       (danish (selectedDay target)) with
  | Some pdfUrl => Return pdfUrl
  | None => Throw (couldNotFindMessage (danish (selectedDay target))
                                       (weekNumber target))
  end.
Proof.
  unfold main_pdfUrl.
  destruct (findMenuPdfUrl _ _ _ _) as [u |] eqn:F; [| reflexivity].
  apply findMenuPdfUrl_choice in F. destruct F as (c & Hin & <- & _).
  rewrite (candidatesOf_truthy _ _ _ _ Hin). reflexivity.
Qed.

(** X11.  A link [findMenuPdfUrl] returns is the [href] of an anchor of the
    page that the selector picks and that is for the day: its text or its
    [href] contains the name of the day, whatever the case.  The link is
    not empty and ends in [.pdf]. *)
Theorem findMenuPdfUrl_link_of_day load html weekNumber dayName url :
  findMenuPdfUrl load html weekNumber dayName = Some url ->
  url <> []
  /\ endsWith url (js ".pdf") = true
  /\ exists element,
       In element (Cheerio.elements (load html))
       /\ Cheerio.isPdfAnchor element = true
       /\ Cheerio.attr element (js "href") = Some url
       /\ ForDay dayName element url.
Proof.
  intros H. destruct (findMenuPdfUrl_suffix _ _ _ _ _ H) as [N S].
  split; [exact N |]. split; [exact S |].
  apply findMenuPdfUrl_choice in H.
  destruct H as (c & Hin & <- & _).
  apply candidatesOf_source in Hin. exact Hin.
Qed.

Lemma findMenuPdfUrl_link_of_day_witness :
  js "menu.pdf" <> []
  /\ endsWith (js "menu.pdf") (js ".pdf") = true
  /\ exists element,
       In element (Cheerio.elements (page [anchor "menu.pdf" "Mandag"]))
       /\ Cheerio.isPdfAnchor element = true
       /\ Cheerio.attr element (js "href") = Some (js "menu.pdf")
       /\ ForDay (js "mandag") element (js "menu.pdf").
Proof.
  apply (findMenuPdfUrl_link_of_day
           (fun _ => page [anchor "menu.pdf" "Mandag"]) [] 7 (js "mandag")).
  vm_compute. reflexivity.
Defined.

(** X12.  [findMenuPdfUrl] never returns the link of a candidate known to be
    of another week: the candidate it returns has the week asked for, or it
    is the only candidate and has no week. *)
Theorem findMenuPdfUrl_week_safe load html weekNumber dayName url :
  findMenuPdfUrl load html weekNumber dayName = Some url ->
  exists c,
    In c (candidatesOf (load html) html dayName) /\ href c = url
    /\ (weekNum c = Some (Num weekNumber)
        \/ candidatesOf (load html) html dayName = [c] /\ weekNum c = None).
Proof. apply findMenuPdfUrl_choice. Qed.

Lemma findMenuPdfUrl_week_safe_witness :
  exists c,
    In c (candidatesOf (page twoWeeks) twoWeeksHtml (js "mandag"))
    /\ href c = js "mon2.pdf"
    /\ (weekNum c = Some (Num 3)
        \/ candidatesOf (page twoWeeks) twoWeeksHtml (js "mandag") = [c]
           /\ weekNum c = None).
Proof.
  apply (findMenuPdfUrl_week_safe (fun _ => page twoWeeks) twoWeeksHtml 3
           (js "mandag") (js "mon2.pdf")).
  vm_compute. reflexivity.
Defined.

(** X13.  Among the candidates of the week asked for, the first in the
    order of the document is the one whose link is returned. *)
Theorem findMenuPdfUrl_first_wins load html weekNumber dayName before c after :
  candidatesOf (load html) html dayName = before ++ c :: after ->
  (forall b, In b before -> weekNum b <> Some (Num weekNumber)) ->
  weekNum c = Some (Num weekNumber) ->
  findMenuPdfUrl load html weekNumber dayName = Some (href c).
Proof.
  intros E B W. unfold findMenuPdfUrl. rewrite E.
  rewrite (find_first weekNumber before c after B W). reflexivity.
Qed.

Lemma findMenuPdfUrl_first_wins_witness :
  findMenuPdfUrl
    (fun _ => page [ anchor "uge3-mandag.pdf" "Menu";
                     anchor "uge4-mandag.pdf" "Menu";
                     anchor "week4-mandag-b.pdf" "Menu" ])
    [] 4 (js "mandag")
  = Some (js "uge4-mandag.pdf").
Proof.
  apply (findMenuPdfUrl_first_wins _ [] 4 (js "mandag")
           [ {| href := js "uge3-mandag.pdf"; weekNum := Some (Num 3) |} ]
           {| href := js "uge4-mandag.pdf"; weekNum := Some (Num 4) |}
           [ {| href := js "week4-mandag-b.pdf"; weekNum := Some (Num 4) |} ]).
  - vm_compute. reflexivity.
  - intros b [<- | []]. discriminate.
  - reflexivity.
Defined.

(** X14.  When no anchor the selector picks is for the day, [findMenuPdfUrl]
    returns [null] for every week. *)
Theorem findMenuPdfUrl_no_link_for_day load html dayName :
  (forall element link,
     In element (Cheerio.elements (load html)) ->
     Cheerio.isPdfAnchor element = true ->
     Cheerio.attr element (js "href") = Some link ->
     ~ ForDay dayName element link) ->
  forall weekNumber, findMenuPdfUrl load html weekNumber dayName = None.
Proof.
  intros H w.
  assert (E : candidatesOf (load html) html dayName = []).
  { unfold candidatesOf. apply filterMap_none. intros e He.
    unfold Cheerio.selectPdfAnchors in He. apply filter_In in He.
    destruct He as [He Hp].
    destruct (candidateOf _ dayName e) as [c |] eqn:C; [| reflexivity].
    apply candidateOf_source in C. destruct C as [Ha Hd].
    exfalso. exact (H e (href c) He Hp Ha Hd). }
  unfold findMenuPdfUrl. rewrite E. reflexivity.
Qed.

Lemma findMenuPdfUrl_no_link_for_day_witness :
  findMenuPdfUrl (fun _ => page [anchor "menu.pdf" "Mandag"]) [] 7
                 (js "fredag")
  = None.
Proof.
  refine (findMenuPdfUrl_no_link_for_day
            (fun _ => page [anchor "menu.pdf" "Mandag"]) [] (js "fredag") _ 7).
  intros element link [<- | []] _ A. injection A as <-.
  intros [C | C]; apply includes_Contains in C; vm_compute in C; discriminate C.
Defined.

(** X15.  [main] goes on with the link exactly when [findMenuPdfUrl] returns
    one, and throws the error of the missing PDF otherwise: a link that is
    returned is never the empty string the check of [main] would reject. *)
Theorem main_pdfUrl_total load html target :
  main_pdfUrl load html target =
  match findMenuPdfUrl load html (weekNumber target)
                       (danish (selectedDay target)) with
  | Some pdfUrl => Return pdfUrl
  | None => Throw (couldNotFindMessage (danish (selectedDay target))
                                       (weekNumber target))
  end.
Proof. apply main_pdfUrl_closed. Qed.

(** X22.  The links of the candidates [findMenuPdfUrl] chooses from are
    exactly the [href]s of the anchors of the page that the selector picks
    and that are for the day. *)
Theorem candidates_are_day_links doc html dayName link :
  (exists c, In c (candidatesOf doc html dayName) /\ href c = link) <->
  (exists element,
     In element (Cheerio.elements doc)
     /\ Cheerio.isPdfAnchor element = true
     /\ Cheerio.attr element (js "href") = Some link
     /\ ForDay dayName element link).
Proof.
  split.
  - intros (c & Hin & <-). apply candidatesOf_source in Hin. exact Hin.
  - intros (e & He & Hp & Ha & Hd).
    destruct (candidateOf_complete
                match Cheerio.bodyHtml doc with
                | Some b => if truthy b then b else html
                | None => html
                end dayName e link Hp Ha Hd) as (c & Hc & E).
    exists c. split; [| exact E].
    unfold candidatesOf. apply (filterMap_complete _ _ e); [| exact Hc].
    unfold Cheerio.selectPdfAnchors. apply filter_In. auto.
Qed.

Lemma candidates_are_day_links_witness :
  exists c,
    In c (candidatesOf (page twoWeeks) twoWeeksHtml (js "MANDAG"))
    /\ href c = js "mon2.pdf".
Proof.
  apply (proj2 (candidates_are_day_links (page twoWeeks) twoWeeksHtml
                  (js "MANDAG") (js "mon2.pdf"))).
  exists (anchor "mon2.pdf" "Mandag").
  split; [right; right; right; left; reflexivity |].
  split; [vm_compute; reflexivity |].
  split; [reflexivity |].
  left. exists [], []. vm_compute. reflexivity.
Defined.

End SelectionFacts.

(* ================================================================= *)
(** ** The text transforms, further *)

Module CleanupFacts.
Import JSString JSRegExp LunchMenu Spec RegExpFacts TextFacts.

Lemma Subsequence_refl s : Subsequence s s.
Proof. induction s; constructor; auto. Qed.

Lemma Subsequence_nil s : Subsequence [] s.
Proof. induction s; constructor; auto. Qed.

Lemma Subsequence_app t1 s1 t2 s2 :
  Subsequence t1 s1 -> Subsequence t2 s2 -> Subsequence (t1 ++ t2) (s1 ++ s2).
Proof. induction 1; intros H2; cbn; try constructor; auto. Qed.

Lemma Subsequence_trans t s :
  Subsequence t s -> forall u, Subsequence u t -> Subsequence u s.
Proof.
  induction 1; intros u Hu; [exact Hu | | constructor; auto].
  inversion Hu; subst; constructor; auto.
Qed.

Lemma Subsequence_rev t s : Subsequence t s -> Subsequence (rev t) (rev s).
Proof.
  induction 1; cbn; [constructor | |].
  - apply Subsequence_app; [assumption | apply Subsequence_refl].
  - rewrite <- (app_nil_r (rev t)). apply Subsequence_app;
      [assumption | apply Subsequence_nil].
Qed.

Lemma without_app p a b : without p (a ++ b) = without p a ++ without p b.
Proof. apply filter_app. Qed.

Lemma without_All p m : All p m -> without p m = [].
Proof.
  induction 1 as [| c m Hc _ IH]; [reflexivity |].
  cbn. rewrite Hc. exact IH.
Qed.

Lemma without_rev p s : without p (rev s) = rev (without p s).
Proof. apply filter_rev. Qed.

(** Leaving out a larger class after a smaller one leaves out the larger. *)
Lemma without_without (p q : ascii -> bool) s :
  (forall c, p c = true -> q c = true) ->
  without q (without p s) = without q s.
Proof.
  intros H. unfold without. induction s as [| c s IH]; [reflexivity |].
  cbn [filter]. destruct (p c) eqn:E; cbn [negb filter].
  - rewrite (H c E). cbn [negb]. exact IH.
  - destruct (q c); cbn [negb]; rewrite IH; reflexivity.
Qed.

Lemma without_coarser (p q : ascii -> bool) a b :
  (forall c, p c = true -> q c = true) ->
  without p a = without p b -> without q a = without q b.
Proof.
  intros H E. rewrite <- (without_without p q a H), E.
  apply without_without. exact H.
Qed.

Lemma Stripped_Subsequence P s out : Stripped P s out -> Subsequence out s.
Proof.
  induction 1 as [s _ | pre m rest out _ _ _ _ IH]; [apply Subsequence_refl |].
  apply Subsequence_app; [apply Subsequence_refl |].
  rewrite <- (app_nil_l out). apply Subsequence_app;
    [apply Subsequence_nil | exact IH].
Qed.

Lemma Stripped_without P (p : ascii -> bool) s out :
  (forall m, P m -> All p m) -> Stripped P s out -> without p out = without p s.
Proof.
  intros HP. induction 1 as [s _ | pre m rest out _ Hm _ _ IH]; [reflexivity |].
  rewrite !without_app, IH, (without_All p m (HP m Hm)). reflexivity.
Qed.

Lemma dropWhile_Subsequence p s : Subsequence (dropWhile p s) s.
Proof.
  induction s as [| c s IH]; cbn; [constructor |].
  destruct (p c); [constructor; exact IH | apply Subsequence_refl].
Qed.

Lemma dropWhile_without (p q : ascii -> bool) s :
  (forall c, p c = true -> q c = true) ->
  without q (dropWhile p s) = without q s.
Proof.
  intros H. induction s as [| c s IH]; cbn; [reflexivity |].
  destruct (p c) eqn:E; [| reflexivity].
  rewrite (H c E). cbn. exact IH.
Qed.

Lemma trim_Subsequence s : Subsequence (trim s) s.
Proof.
  unfold trim, trimEnd, trimStart.
  eapply Subsequence_trans; [apply dropWhile_Subsequence |].
  rewrite <- (rev_involutive (dropWhile isWhiteSpace s)) at 2.
  apply Subsequence_rev. apply dropWhile_Subsequence.
Qed.

Lemma trim_without (q : ascii -> bool) s :
  (forall c, isWhiteSpace c = true -> q c = true) ->
  without q (trim s) = without q s.
Proof.
  intros H. unfold trim, trimEnd, trimStart.
  rewrite without_rev, (dropWhile_without _ q _ H), without_rev, rev_involutive.
  apply dropWhile_without. exact H.
Qed.

Lemma All_app p a b : All p a -> All p b -> All p (a ++ b).
Proof. unfold All. intros. apply Forall_app. auto. Qed.

Lemma All_impl (p q : ascii -> bool) s :
  (forall c, p c = true -> q c = true) -> All p s -> All q s.
Proof. intros H. unfold All. apply Forall_impl. exact H. Qed.

Lemma PageMark_class m : PageMark m -> All inPageMark m.
Proof.
  intros (w1 & d1 & w2 & w3 & d2 & w4 & -> & A1 & [_ A2] & [_ A3] & [_ A4]
          & [_ A5] & A6).
  assert (W : forall c, isWhiteSpace c = true -> inPageMark c = true)
    by (intros c E; unfold inPageMark; rewrite E, !orb_true_r; reflexivity).
  assert (D : forall c, isDigit c = true -> inPageMark c = true)
    by (intros c E; unfold inPageMark; rewrite E, !orb_true_r; reflexivity).
  repeat apply All_app;
    try (eapply All_impl; [| eassumption]; assumption);
    repeat constructor.
Qed.

Lemma AllergenMark_class m : AllergenMark m -> All inAllergenMark m.
Proof.
  intros (w & cs & -> & A1 & [_ A2]).
  assert (W : forall c, isWhiteSpace c = true -> inAllergenMark c = true)
    by (intros c E; unfold inAllergenMark; rewrite E; reflexivity).
  assert (D : forall c, allergyClass c = true -> inAllergenMark c = true)
    by (intros c E; unfold inAllergenMark; rewrite E, !orb_true_r; reflexivity).
  repeat apply All_app;
    try (eapply All_impl; [| eassumption]; assumption);
    repeat constructor.
Qed.

Lemma AllergenMark_parens m :
  AllergenMark m -> In "("%char m /\ In ")"%char m.
Proof.
  intros (w & cs & -> & _). split; apply in_or_app; right.
  - now left.
  - change (In ")"%char ("("%char :: cs ++ [")"%char])).
    right. apply in_or_app. right. now left.
Qed.

Lemma PageMark_hyphen m : PageMark m -> In "-"%char m.
Proof. intros (w1 & d1 & w2 & w3 & d2 & w4 & -> & _). now left. Qed.

(** Nothing is cut from a text that cannot hold an instance. *)
Lemma Stripped_untouched P (Q : jsstring -> Prop) s out :
  (forall pre m rest, P m -> Q (pre ++ m ++ rest) -> False) ->
  Stripped P s out -> Q s -> out = s.
Proof.
  intros H S. destruct S as [s _ | pre m rest out _ Hm _ _]; [reflexivity |].
  intros HQ. exfalso. eapply H; eauto.
Qed.

Lemma removeAllergyInfo_marks text :
  Subsequence (removeAllergyInfo text) text
  /\ without inAllergenMark (removeAllergyInfo text)
     = without inAllergenMark text.
Proof.
  pose proof (removeAllergyInfo_stripped text) as S. split.
  - eapply Stripped_Subsequence; eauto.
  - eapply Stripped_without; [apply AllergenMark_class | exact S].
Qed.

Lemma removePageNumbers_marks text :
  Subsequence (removePageNumbers text) text
  /\ without inPageMark (removePageNumbers text) = without inPageMark text.
Proof.
  pose proof (removePageNumbers_stripped text) as S. unfold removePageNumbers.
  split.
  - eapply Subsequence_trans; [eapply Stripped_Subsequence; eauto |].
    apply trim_Subsequence.
  - rewrite trim_without.
    + eapply Stripped_without; [apply PageMark_class | exact S].
    + intros c E. unfold inPageMark. rewrite E, !orb_true_r. reflexivity.
Qed.

(** X16.  [removeAllergyInfo] only leaves code units out, and only white
    space, parentheses, digits, commas and the letters T, K, M and N: every
    other code unit of the text is kept, in order. *)
Theorem removeAllergyInfo_only_marks text :
  Subsequence (removeAllergyInfo text) text
  /\ without inAllergenMark (removeAllergyInfo text)
     = without inAllergenMark text.
Proof. apply removeAllergyInfo_marks. Qed.

(** X17.  [removePageNumbers] only leaves code units out, and only hyphens,
    white space, digits and the letters o and f: every other code unit of
    the text is kept, in order. *)
Theorem removePageNumbers_only_marks text :
  Subsequence (removePageNumbers text) text
  /\ without inPageMark (removePageNumbers text) = without inPageMark text.
Proof. apply removePageNumbers_marks. Qed.

(** X18.  [removeAllergyInfo] returns a text without an open parenthesis, or
    without a close parenthesis, as it is; [removePageNumbers] only trims a
    text without a hyphen. *)
Theorem cleanup_leaves_plain_text :
  (forall text,
     ~ In "("%char text \/ ~ In ")"%char text -> removeAllergyInfo text = text)
  /\ (forall text, ~ In "-"%char text -> removePageNumbers text = trim text).
Proof.
  split.
  - intros text H.
    apply (Stripped_untouched AllergenMark
             (fun s => ~ In "("%char s \/ ~ In ")"%char s) text);
      [| apply removeAllergyInfo_stripped | exact H].
    intros pre m rest Hm [N | N]; apply N; apply in_or_app; right;
      apply in_or_app; left; apply (AllergenMark_parens m Hm).
  - intros text H. unfold removePageNumbers. f_equal.
    apply (Stripped_untouched PageMark (fun s => ~ In "-"%char s) text);
      [| apply removePageNumbers_stripped | exact H].
    intros pre m rest Hm N; apply N; apply in_or_app; right;
      apply in_or_app; left; apply (PageMark_hyphen m Hm).
Qed.

Lemma cleanup_leaves_plain_text_witness :
  removeAllergyInfo (js "Soup 1) of 2") = js "Soup 1) of 2"
  /\ removePageNumbers (js " Soup 1 of 2 ") = trim (js " Soup 1 of 2 ").
Proof.
  split.
  - apply (proj1 cleanup_leaves_plain_text). left.
    intros H. vm_compute in H.
    repeat (destruct H as [H | H]; [discriminate H |]). exact H.
  - apply (proj2 cleanup_leaves_plain_text).
    intros H. vm_compute in H.
    repeat (destruct H as [H | H]; [discriminate H |]). exact H.
Defined.

(** X19.  The clean-up of [main] only leaves code units out of the text
    read from the PDF: those of page marks, and those of allergen marks
    when allergens are to be removed.  Every other code unit is kept, in
    order. *)
Theorem main_menuText_only_marks noAllergies menuText :
  Subsequence (main_menuText noAllergies menuText) menuText
  /\ without (inCleanupMark noAllergies) (main_menuText noAllergies menuText)
     = without (inCleanupMark noAllergies) menuText.
Proof.
  unfold main_menuText.
  destruct (removePageNumbers_marks menuText) as [S1 W1].
  destruct noAllergies.
  - destruct (removeAllergyInfo_marks (removePageNumbers menuText)) as [S2 W2].
    split; [eapply Subsequence_trans; eauto |].
    rewrite (without_coarser inAllergenMark (inCleanupMark true) _ _
               (fun c E => eq_trans (f_equal (fun b => inPageMark c || (true && b)) E)
                                    (orb_true_r _)) W2).
    apply (without_coarser inPageMark); [| exact W1].
    intros c E. unfold inCleanupMark. rewrite E. reflexivity.
  - split; [exact S1 |].
    apply (without_coarser inPageMark); [| exact W1].
    intros c E. unfold inCleanupMark. rewrite E. reflexivity.
Qed.

End CleanupFacts.

(* ================================================================= *)
(** ** The URL of the download *)

Module UrlFacts.
Import JSString JSRegExp LunchMenu Spec TextFacts ResolverFacts SelectionFacts.

Lemma startsWith_app s t : forall p,
  startsWith s p = true -> startsWith (s ++ t) p = true.
Proof.
  intros p H. apply startsWith_iff in H. destruct H as [rest ->].
  apply startsWith_iff. exists (rest ++ t). rewrite app_assoc. reflexivity.
Qed.

Lemma endsWith_app x s suffix :
  endsWith s suffix = true -> endsWith (x ++ s) suffix = true.
Proof.
  unfold endsWith. intros H. rewrite rev_app_distr.
  apply startsWith_app. exact H.
Qed.

Lemma startsWith_trans s p q :
  startsWith s p = true -> startsWith p q = true -> startsWith s q = true.
Proof.
  intros H1 H2. apply startsWith_iff in H1, H2.
  destruct H1 as [r1 ->]. destruct H2 as [r2 ->].
  apply startsWith_iff. exists (r2 ++ r1). rewrite app_assoc. reflexivity.
Qed.

Lemma main_absolutePdfUrl_http pdfUrl :
  startsWith (main_absolutePdfUrl pdfUrl) (js "http") = true.
Proof.
  unfold main_absolutePdfUrl.
  destruct (startsWith pdfUrl (js "http")) eqn:E; [exact E |].
  apply (startsWith_app (js "https://www.nooncph.dk")). reflexivity.
Qed.

(** X20.  The URL [main] downloads from begins with [http]; a link that
    begins with [http] is taken as it is, so that making a URL absolute
    twice changes nothing; a link that does not is put after
    [https://www.nooncph.dk] and is downloaded with the [https] client. *)
Theorem main_absolutePdfUrl_absolute pdfUrl :
  startsWith (main_absolutePdfUrl pdfUrl) (js "http") = true
  /\ main_absolutePdfUrl (main_absolutePdfUrl pdfUrl)
     = main_absolutePdfUrl pdfUrl
  /\ (startsWith pdfUrl (js "http") = true ->
      main_absolutePdfUrl pdfUrl = pdfUrl)
  /\ (startsWith pdfUrl (js "http") = false ->
      main_absolutePdfUrl pdfUrl = js "https://www.nooncph.dk" ++ pdfUrl
      /\ clientFor (main_absolutePdfUrl pdfUrl) = https).
Proof.
  pose proof (main_absolutePdfUrl_http pdfUrl) as H.
  split; [exact H |]. split; [| split].
  - unfold main_absolutePdfUrl at 1. rewrite H. reflexivity.
  - intros E. unfold main_absolutePdfUrl. rewrite E. reflexivity.
  - intros E. unfold main_absolutePdfUrl. rewrite E.
    split; [reflexivity |].
    unfold clientFor.
    rewrite (startsWith_app (js "https://www.nooncph.dk") pdfUrl (js "https"));
      reflexivity.
Qed.

Lemma main_absolutePdfUrl_absolute_witness :
  main_absolutePdfUrl (js "/menus/uge3-mandag.pdf")
  = js "https://www.nooncph.dk" ++ js "/menus/uge3-mandag.pdf"
  /\ clientFor (main_absolutePdfUrl (js "/menus/uge3-mandag.pdf")) = https.
Proof.
  apply (proj2 (proj2 (proj2 (main_absolutePdfUrl_absolute
                                (js "/menus/uge3-mandag.pdf"))))).
  reflexivity.
Defined.

(** X21.  Whatever the page and the target, the URL [main] downloads from,
    when it finds a link, begins with [http] and ends in [.pdf]; it is the
    link itself or the link after [https://www.nooncph.dk]. *)
Theorem main_download_url load html target pdfUrl :
  main_pdfUrl load html target = Return pdfUrl ->
  startsWith (main_absolutePdfUrl pdfUrl) (js "http") = true
  /\ endsWith (main_absolutePdfUrl pdfUrl) (js ".pdf") = true
  /\ (main_absolutePdfUrl pdfUrl = pdfUrl
      \/ main_absolutePdfUrl pdfUrl = js "https://www.nooncph.dk" ++ pdfUrl).
Proof.
  rewrite main_pdfUrl_closed.
  destruct (findMenuPdfUrl _ _ _ _) as [u |] eqn:F; [| discriminate].
  intros [= ->].
  destruct (findMenuPdfUrl_suffix _ _ _ _ _ F) as [_ S].
  split; [apply main_absolutePdfUrl_http |].
  unfold main_absolutePdfUrl.
  destruct (startsWith pdfUrl (js "http")).
  - split; [exact S | now left].
  - split; [apply endsWith_app; exact S | now right].
Qed.

Lemma main_download_url_witness :
  startsWith (main_absolutePdfUrl (js "mon2.pdf")) (js "http") = true
  /\ endsWith (main_absolutePdfUrl (js "mon2.pdf")) (js ".pdf") = true
  /\ (main_absolutePdfUrl (js "mon2.pdf") = js "mon2.pdf"
      \/ main_absolutePdfUrl (js "mon2.pdf")
         = js "https://www.nooncph.dk" ++ js "mon2.pdf").
Proof.
  apply (main_download_url (fun _ => page twoWeeks) twoWeeksHtml
           {| weekNumber := 3;
              selectedDay := {| danish := js "mandag"; english := monday |} |}).
  vm_compute. reflexivity.
Defined.

End UrlFacts.
